(** * Waveform-compilation core of PycQED: Sequence, merge, compression
      and the analytic pulse shapes.

    The development embeds
    - [pycqed/measurement/waveform_control/sequence.py] (class [Sequence]:
      [add], [extend], [n_segments], [n_acq_elements], [repeat],
      [repeat_ro], [generate_waveforms_sequences], [merge],
      [compress_2D_sweep], [__deepcopy__]) and
    - [modules/measurement/waveform_control/pulse_library.py]
      ([MW_IQmod_pulse.chan_wf], [SSB_DRAG_pulse.chan_wf],
      [SSB_DRAG_pulse.apply_modulation]).

    Python objects live in an explicit store, a Python dict whose iteration
    order matters is an insertion-ordered association list, numpy arrays of
    floats are lists of real numbers. *)

From Stdlib Require Import Reals Lra Lia ZArith List String.
From stdpp Require Import base option list sorting gmap strings pretty.

Open Scope string_scope.
Open Scope list_scope.
Open Scope nat_scope.

(** ** Python dictionaries with insertion order *)

Module PyDict.
Section Dict.
Context {K V : Type} `{EqDecision K}.

(** [d[k]] *)
Fixpoint get (k : K) (d : list (K * V)) : option V :=
match d with
| [] => None
| (k', v) :: d' => if decide (k = k') then Some v else get k d'
end.

(** [k in d] *)
Definition mem (k : K) (d : list (K * V)) : bool :=
match get k d with Some _ => true | None => false end.

(** [d[k] = v]: an existing key keeps its position, a new key goes last. *)
Fixpoint set (k : K) (v : V) (d : list (K * V)) : list (K * V) :=
match d with
| [] => [(k, v)]
| (k', v') :: d' =>
    if decide (k = k') then (k, v) :: d' else (k', v') :: set k v d'
end.

Definition keys (d : list (K * V)) : list K := map fst d.
Definition values (d : list (K * V)) : list V := map snd d.
End Dict.
End PyDict.

(** ** Objects and the store *)

Definition loc := nat.

(** A repeat pattern [(n_repetitions, nr_elements_per_loop)]. *)
Abbreviation pattern := (nat * nat)%type (only parsing).

Module Segment.
(** Modelled from the spec: the Segment class (segment.py is not among the
    sources).  A Segment is "a named, time-ordered collection of pulse
    instances" with a [name], the set [acquisition_elements] of elements
    that trigger a readout, and its pulses; copying it is "a value-copy of
    the Segment graph". *)
Record t := mk {
  name : string;
  acquisition_elements : list string;
  pulses : list (string * nat)
}.

Definition set_name (g : t) (n : string) : t :=
  mk n (acquisition_elements g) (pulses g).
End Segment.

Module Sequence.

(** The attributes set by [Sequence.__init__]. [segments] is the odict
    from segment names to Segment objects (references), [pulsar] the
    reference to the shared Pulsar instance. *)
Record t := mk {
  name : string;
  pulsar : loc;
  segments : list (string * loc);
  awg_sequence : list (string * list string);
  repeat_patterns : list (string * pattern)
}.

Definition set_name (q : t) (n : string) : t :=
  mk n (pulsar q) (segments q) (awg_sequence q) (repeat_patterns q).
Definition set_segments (q : t) (s : list (string * loc)) : t :=
  mk (name q) (pulsar q) s (awg_sequence q) (repeat_patterns q).
Definition set_repeat_patterns (q : t) (r : list (string * pattern)) : t :=
  mk (name q) (pulsar q) (segments q) (awg_sequence q) r.

(** The store: Sequence objects, Segment objects and Python lists of
    Sequence references, each addressed by location. *)
Record heap := Heap {
  sequences : gmap loc t;
  segs : gmap loc Segment.t;
  lists : gmap loc (list loc)
}.

Definition with_sequences (σ : heap) (m : gmap loc t) : heap :=
  Heap m (segs σ) (lists σ).
Definition with_segs (σ : heap) (m : gmap loc Segment.t) : heap :=
  Heap (sequences σ) m (lists σ).
Definition with_lists (σ : heap) (m : gmap loc (list loc)) : heap :=
  Heap (sequences σ) (segs σ) m.

(** Exceptions raised on the modelled paths. [DanglingReference] is not a
    Python exception: it marks a store that lacks a referenced object. *)
Inductive exn :=
| ValueError
| NameError
| KeyError
| AssertionError
| NotImplementedError
| UnboundLocalError
| IndexError
| ZeroDivisionError
| DanglingReference.

Global Instance exn_eq_dec : EqDecision exn.
Proof. solve_decision. Defined.

Inductive outcome (A : Type) :=
| Ok (a : A)
| Raise (e : exn).
Arguments Ok {A} a.
Arguments Raise {A} e.

(** Computations over the store that may raise; the store survives a
    raise, as the objects mutated so far do in Python. *)
Definition M (A : Type) := heap -> outcome A * heap.

Definition ret {A} (a : A) : M A := fun σ => (Ok a, σ).
Definition raise {A} (e : exn) : M A := fun σ => (Raise e, σ).
Definition bind {A B} (m : M A) (f : A -> M B) : M B :=
  fun σ =>
    match m σ with
    | (Ok a, σ') => f a σ'
    | (Raise e, σ') => (Raise e, σ')
    end.

(** [try: m except e: handler] *)
Definition try_except {A} (m : M A) (e : exn) (handler : M A) : M A :=
  fun σ =>
    match m σ with
    | (Ok a, σ') => (Ok a, σ')
    | (Raise e', σ') =>
        if decide (e' = e) then handler σ' else (Raise e', σ')
    end.

Notation "x <- m ;; k" := (bind m (fun x => k))
  (at level 100, m at next level, right associativity).
Notation "m ;;; k" := (bind m (fun _ => k))
  (at level 100, right associativity).

(** [for x in xs: s = body(x, s)] *)
Fixpoint for_each {A S} (xs : list A) (body : A -> S -> M S) (s : S)
  : M S :=
  match xs with
  | [] => ret s
  | x :: xs' => s' <- body x s ;; for_each xs' body s'
  end.

(** [[f(x) for x in xs]] *)
Fixpoint map_m {A B} (f : A -> M B) (xs : list A) : M (list B) :=
  match xs with
  | [] => ret []
  | x :: xs' => y <- f x ;; ys <- map_m f xs' ;; ret (y :: ys)
  end.

Definition get_sequence (l : loc) : M t :=
  fun σ =>
    match sequences σ !! l with
    | Some q => (Ok q, σ)
    | None => (Raise DanglingReference, σ)
    end.
Definition get_segment (l : loc) : M Segment.t :=
  fun σ =>
    match segs σ !! l with
    | Some g => (Ok g, σ)
    | None => (Raise DanglingReference, σ)
    end.
Definition get_list (l : loc) : M (list loc) :=
  fun σ =>
    match lists σ !! l with
    | Some ls => (Ok ls, σ)
    | None => (Raise DanglingReference, σ)
    end.

Definition put_sequence (l : loc) (q : t) : M unit :=
  fun σ => (Ok tt, with_sequences σ (<[l := q]> (sequences σ))).
Definition put_segment (l : loc) (g : Segment.t) : M unit :=
  fun σ => (Ok tt, with_segs σ (<[l := g]> (segs σ))).

Definition new_sequence (q : t) : M loc :=
  fun σ =>
    let l := fresh (dom (sequences σ)) in
    (Ok l, with_sequences σ (<[l := q]> (sequences σ))).
Definition new_segment (g : Segment.t) : M loc :=
  fun σ =>
    let l := fresh (dom (segs σ)) in
    (Ok l, with_segs σ (<[l := g]> (segs σ))).
Definition new_list (ls : list loc) : M loc :=
  fun σ =>
    let l := fresh (dom (lists σ)) in
    (Ok l, with_lists σ (<[l := ls]> (lists σ))).

(** [xs[-1]] *)
Definition last_item {A} (xs : list A) : M A :=
  match last xs with
  | Some x => ret x
  | None => raise IndexError
  end.

(** [xs[-1] = x] for the dict held in the last slot of a list. *)
Definition set_last {A} (xs : list A) (x : A) : list A :=
  <[pred (length xs) := x]> xs.

(** *** Sequence.add *)
Definition add (self : loc) (segment : loc) : M unit :=
  g <- get_segment segment ;;
  q <- get_sequence self ;;
  if PyDict.mem (Segment.name g) (segments q)
  then raise NameError
  else put_sequence self
         (set_segments q
            (PyDict.set (Segment.name g) segment (segments q))).

(** *** Sequence.extend *)
Definition extend (self : loc) (segments : list loc) : M unit :=
  for_each segments (fun seg _ => add self seg) tt.

(** *** Sequence.n_segments *)
Definition n_segments (self : loc) : M nat :=
  q <- get_sequence self ;; ret (length (segments q)).

(** *** Sequence.n_acq_elements (with [per_segment=False]) *)
Definition n_acq_elements (self : loc) : M nat :=
  q <- get_sequence self ;;
  n_readouts <-
    map_m (fun seg => g <- get_segment seg ;;
                      ret (length (Segment.acquisition_elements g)))
          (PyDict.values (segments q)) ;;
  ret (sum_list n_readouts).

(** *** Sequence.__deepcopy__
    Every attribute but [pulsar] is deep-copied under one memo, so a
    Segment object met twice inside one Sequence is copied once. *)
Definition deepcopy_segment (segment : loc) (memo : list (loc * loc))
  : M (loc * list (loc * loc)) :=
  match PyDict.get segment memo with
  | Some c => ret (c, memo)
  | None =>
      g <- get_segment segment ;;
      c <- new_segment g ;;
      ret (c, PyDict.set segment c memo)
  end.

Definition deepcopy (self : loc) : M loc :=
  q <- get_sequence self ;;
  r <- for_each (segments q)
         (fun item st =>
            cm <- deepcopy_segment (snd item) (snd st) ;;
            ret (fst st ++ [(fst item, fst cm)], snd cm))
         ([], []) ;;
  new_sequence
    (mk (name q) (pulsar q) (fst r) (awg_sequence q) (repeat_patterns q)).

(** *** Sequence.merge *)

(** [n <= segment_limit], where [None] stands for [np.inf]. *)
Definition le_limit (n : nat) (segment_limit : option nat) : bool :=
  match segment_limit with
  | None => true
  | Some l => n <=? l
  end.

(** [{s: 1 for s in seq.segments}] *)
Definition occurrences (segments : list (string * loc))
  : gmap string nat :=
  list_to_map (map (fun s => (s, 1)) (PyDict.keys segments)).

(** Body of the loop over [seq.segments.items()] (lines 213-221). *)
Definition merge_segment (acc : loc) (item : string * loc)
    (occ : gmap string nat) : M (gmap string nat) :=
  let seg_name := fst item in
  let segment := snd item in
  try_except
    (add acc segment ;;; ret occ)
    NameError
    (match occ !! seg_name with
     | None => raise KeyError
     | Some c =>
         let occ' := <[seg_name := c + 1]> occ in
         let new_name :=
           seg_name +:+ "_copy_from_merge_" +:+ pretty (c + 1 - 1) in
         g <- get_segment segment ;;
         put_segment segment (Segment.set_name g new_name) ;;;
         add acc segment ;;;
         ret occ'
     end).

(** Body of the loop over [seq.repeat_patterns.items()] (lines 227-246). *)
Definition merge_pattern (acc : loc) (item : string * pattern)
    (_ : unit) : M unit :=
  let ch_name := fst item in
  let pattern := snd item in
  a <- get_sequence acc ;;
  match PyDict.get ch_name (repeat_patterns a) with
  | Some pattern_prev =>
      if negb (snd pattern_prev =? snd pattern)
      then raise NotImplementedError
      else
        let pattern_updated :=
          (fst pattern_prev + fst pattern, snd pattern_prev) in
        put_sequence acc
          (set_repeat_patterns a
             (PyDict.set ch_name pattern_updated (repeat_patterns a)))
  | None =>
      put_sequence acc
        (set_repeat_patterns a
           (PyDict.set ch_name pattern (repeat_patterns a)))
  end.

Definition merge_state : Type :=
  list loc * list (gmap string nat) * nat.

(** Body of [for seq in sequences[1:]] (lines 200-246); the state is
    [(merged_seqs, seg_occurences, segment_counter)]. *)
Definition merge_step (segment_limit : option nat)
    (merge_repeat_patterns : bool) (seq : loc) (st : merge_state)
  : M merge_state :=
  let merged_seqs := fst (fst st) in
  let seg_occurences := snd (fst st) in
  let segment_counter := snd st in
  n <- n_segments seq ;;
  if negb (le_limit n segment_limit) then raise AssertionError
  else
    acc <- last_item merged_seqs ;;
    n_acc <- n_segments acc ;;
    if negb (le_limit (n_acc + n) segment_limit) then
      q <- get_sequence seq ;;
      ret (merged_seqs ++ [seq],
           seg_occurences ++ [occurrences (segments q)],
           n)
    else
      q <- get_sequence seq ;;
      occ <- last_item seg_occurences ;;
      occ' <- for_each (segments q) (merge_segment acc) occ ;;
      n' <- n_segments seq ;;
      a <- get_sequence acc ;;
      s <- get_sequence seq ;;
      put_sequence acc (set_name a (name a +:+ "+" +:+ name s)) ;;;
      (if merge_repeat_patterns
       then
         s' <- get_sequence seq ;;
         for_each (repeat_patterns s') (merge_pattern acc) tt
       else ret tt) ;;;
      ret (merged_seqs, set_last seg_occurences occ',
           segment_counter + n').

Definition merge (sequences : loc) (segment_limit : option nat)
    (merge_repeat_patterns : bool) : M loc :=
  seqs <- get_list sequences ;;
  match seqs with
  | [] => raise ValueError
  | [_] => ret sequences
  | _ =>
      copies <- map_m deepcopy seqs ;;
      match copies with
      | [] => raise IndexError
      | first :: rest =>
          n0 <- n_segments first ;;
          q0 <- get_sequence first ;;
          st <- for_each rest
                  (merge_step segment_limit merge_repeat_patterns)
                  ([first], [occurrences (segments q0)], n0) ;;
          new_list (fst (fst st))
      end
  end.

(** *** Sequence.compress_2D_sweep *)

(** Modelled from the spec: [pycqed.utilities.math.factors] is not among
    the sources; it yields "the integer divisors of [len(sequences)]". *)
Definition factors (n : nat) : list nat :=
  filter (fun d => n `mod` d = 0) (seq 1 n).

(** [np.sort] on integers. *)
Definition np_sort (a : list nat) : list nat := merge_sort (≤) a.

(** [np.unique]: the sorted distinct values. *)
Definition np_unique (a : list nat) : list nat := np_sort (remove_dups a).

(** [xs[i]] *)
Definition item {A} (xs : list A) (i : nat) : M A :=
  match xs !! i with
  | Some x => ret x
  | None => raise IndexError
  end.

Definition lift {A} (o : outcome A) : M A := fun σ => (o, σ).

(** The message of [log.warning] is an f-string: building it evaluates
    [compression_fact[-2] * n_seg] and [np.floor(segment_limit / n_seg)]. *)
Definition compression_warning (compression_fact : list nat) (n_seg : nat)
  : outcome unit :=
  if decide (length compression_fact < 2) then Raise IndexError
  else if decide (n_seg = 0) then Raise ZeroDivisionError
  else Ok tt.

(** [for factor in compression_fact: ...] (lines 284-300); the last
    argument is the loop variable [factor] as bound so far. *)
Fixpoint compression_loop (fs compression_fact : list nat) (n_seg : nat)
    (segment_limit : option nat) (factor : option nat)
  : outcome (option nat) :=
  match fs with
  | [] => Ok factor
  | f :: fs' =>
      if negb (le_limit (f * n_seg) segment_limit)
      then compression_loop fs' compression_fact n_seg segment_limit
             (Some f)
      else if decide (f = 1)
      then match compression_warning compression_fact n_seg with
           | Ok _ => Ok (Some f)
           | Raise e => Raise e
           end
      else Ok (Some f)
  end.

Definition compress_2D_sweep (sequences : loc)
    (segment_limit : option nat) (merge_repeat_patterns : bool)
  : M (loc * list nat * list nat * nat) :=
  seqs <- get_list sequences ;;
  ns <- map_m n_segments seqs ;;
  if negb (length (np_unique ns) =? 1) then raise AssertionError
  else
    let n_soft_sp := length seqs in
    s0 <- item seqs 0 ;;
    n_seg <- n_segments s0 ;;
    let compression_fact := reverse (np_sort (factors n_soft_sp)) in
    bound <- lift (compression_loop compression_fact compression_fact
                     n_seg segment_limit None) ;;
    match bound with
    | None => raise UnboundLocalError
    | Some factor =>
        let seg_lim_eff := factor * n_seg in
        compressed_2D_sweep <-
          merge sequences (Some seg_lim_eff) merge_repeat_patterns ;;
        cs <- get_list compressed_2D_sweep ;;
        c0 <- item cs 0 ;;
        n_acq <- n_acq_elements c0 ;;
        let hard_sp_ind := seq 0 n_acq in
        let soft_sp_ind := seq 0 (length cs) in
        ret (compressed_2D_sweep, hard_sp_ind, soft_sp_ind, factor)
    end.

(** *** Sequence.generate_waveforms_sequences

    The Segment methods it calls are parameters (segment.py is not among
    the sources): [resolve_segment] and [gen_elements_on_awg] update the
    Segment, the others read it.  [seg_waveforms g awg elname ch cw] is the
    array that the four [popitem] calls take out of
    [seg.waveforms(awgs={awg}, elements={elname}, channels={ch},
    codewords={cw})]. *)
Section Generate.
Context {cw wf : Type} `{EqDecision cw}.
Variables
  (resolve_segment gen_elements_on_awg : Segment.t -> Segment.t)
  (elements_on_awg : Segment.t -> list (string * list string))
  (get_element_codewords : Segment.t -> string -> string -> list cw)
  (get_element_channels : Segment.t -> string -> string -> list string)
  (calculate_hash : Segment.t -> string -> cw -> string -> Z)
  (seg_waveforms : Segment.t -> string -> string -> string -> cw -> wf)
  (pulsar_get : string -> string).

(** An entry of [sequences[awg]]: [None] under a segment name, and
    under an element name the dict holding ['metadata'] and, per
    codeword, the hash of each channel id. *)
Inductive awg_entry :=
| SegmentMarker
| ElementEntry (metadata : list (string * bool))
               (codewords : list (cw * list (string * Z))).

(** The waveform table [waveforms], and the hashes for which
    [seg.waveforms] has been called, in call order. *)
Definition wf_state : Type := list (Z * wf) * list Z.

(** Body of [for ch in seg.get_element_channels(elname, awg=awg)]. *)
Definition channel_step (g : Segment.t) (awg elname : string) (c : cw)
    (st : list (string * Z) * wf_state) (ch : string)
  : list (string * Z) * wf_state :=
  let h := calculate_hash g elname c ch in
  let chid := pulsar_get (ch +:+ "_id") in
  let cw_dict := PyDict.set chid h (fst st) in
  let waveforms := fst (snd st) in
  let calls := snd (snd st) in
  if PyDict.mem h waveforms then (cw_dict, (waveforms, calls))
  else
    let wf := seg_waveforms g awg elname ch c in
    (cw_dict, (PyDict.set h wf waveforms, calls ++ [h])).

(** Body of [for cw in seg.get_element_codewords(elname, awg=awg)]. *)
Definition codeword_step (g : Segment.t) (awg elname : string)
    (st : list (cw * list (string * Z)) * wf_state) (c : cw)
  : list (cw * list (string * Z)) * wf_state :=
  let r := fold_left (channel_step g awg elname c)
             (get_element_channels g elname awg) ([], snd st) in
  (PyDict.set c (fst r) (fst st), snd r).

(** Body of [for elname in seg.elements_on_awg.get(awg, [])]. *)
Definition element_step (g : Segment.t) (awg : string)
    (st : list (string * awg_entry) * wf_state) (elname : string)
  : list (string * awg_entry) * wf_state :=
  let r := fold_left (codeword_step g awg elname)
             (get_element_codewords g elname awg) ([], snd st) in
  let acq :=
    bool_decide (elname ∈ Segment.acquisition_elements g) in
  (PyDict.set elname (ElementEntry [("acq", acq)] (fst r)) (fst st),
   snd r).

(** Body of [for segname, seg in self.segments.items()]. *)
Definition segment_step (awg : string)
    (st : list (string * awg_entry) * wf_state)
    (item : string * Segment.t)
  : list (string * awg_entry) * wf_state :=
  fold_left (element_step (snd item) awg)
    (default [] (PyDict.get awg (elements_on_awg (snd item))))
    (PyDict.set (fst item) SegmentMarker (fst st), snd st).

(** Body of [for awg in awgs]. *)
Definition awg_step (segments : list (string * Segment.t))
    (st : list (string * list (string * awg_entry)) * wf_state)
    (awg : string)
  : list (string * list (string * awg_entry)) * wf_state :=
  let r := fold_left (segment_step awg) segments ([], snd st) in
  (PyDict.set awg (fst r) (fst st), snd r).

(** [awgs = set(); for seg in ...: awgs |= set(seg.elements_on_awg)];
    the set is listed in one of its possible iteration orders.  Python
    fixes none of them, so for [awgs = None] only statements that hold
    for every order of this list are made. *)
Definition default_awgs (segments : list (string * Segment.t))
  : list string :=
  fold_left
    (fun awgs item =>
       list_union awgs
         (remove_dups (PyDict.keys (elements_on_awg (snd item)))))
    segments [].

(** Lines 57-85 on the resolved segments. *)
Definition generate_tables (segments : list (string * Segment.t))
    (awgs : option (list string))
  : list (string * list (string * awg_entry)) * wf_state :=
  let awgs := match awgs with
              | None => default_awgs segments
              | Some a => a
              end in
  fold_left (awg_step segments) awgs ([], ([], [])).

Definition generate_waveforms_sequences (self : loc)
    (awgs : option (list string))
  : M (list (Z * wf) * list (string * list (string * awg_entry))) :=
  q <- get_sequence self ;;
  for_each (PyDict.values (segments q))
    (fun seg _ =>
       g <- get_segment seg ;;
       put_segment seg (gen_elements_on_awg (resolve_segment g)))
    tt ;;;
  gs <- map_m get_segment (PyDict.values (segments q)) ;;
  let r := generate_tables (zip (PyDict.keys (segments q)) gs) awgs in
  ret (fst (snd r), fst r).

(** The hashes referenced by the loops, one per (awg, segment, element,
    codeword, channel), in loop order. *)
Definition hash_references (segments : list (string * Segment.t))
    (awgs : list string) : list Z :=
  awg ← awgs;
  item ← segments;
  elname ← default [] (PyDict.get awg (elements_on_awg (snd item)));
  c ← get_element_codewords (snd item) elname awg;
  ch ← get_element_channels (snd item) elname awg;
  [calculate_hash (snd item) elname c ch].

(** The same references, each with the array [seg.waveforms] yields for
    it. *)
Definition waveform_references (segments : list (string * Segment.t))
    (awgs : list string) : list (Z * wf) :=
  awg ← awgs;
  item ← segments;
  elname ← default [] (PyDict.get awg (elements_on_awg (snd item)));
  c ← get_element_codewords (snd item) elname awg;
  ch ← get_element_channels (snd item) elname awg;
  [(calculate_hash (snd item) elname c ch,
    seg_waveforms (snd item) awg elname ch c)].
End Generate.

End Sequence.

(** ** Sequence.repeat and Sequence.repeat_ro

    A pulse is a dict of pulse parameters, of which [repeat] reads the
    entries that name AWG channels.  The pulse is either looked up by
    [pulse_name] in [operation_dict] or, when [operation_dict] is [None],
    passed itself in the place of [pulse_name]. *)

Module SequenceRepeat.
Import Sequence.

Inductive pulse_ref :=
| Named (pulse_name : string)
        (operation_dict : list (string * list (string * string)))
| Given (pulse : list (string * string)).

(** [d[k]], which raises [KeyError] on a missing key. *)
Definition getitem {V} (k : string) (d : list (string * V)) : M V :=
  match PyDict.get k d with
  | Some v => ret v
  | None => raise KeyError
  end.

(** [d.update(other)] *)
Definition update {V} (d other : list (string * V)) : list (string * V) :=
  fold_left (fun acc kv => PyDict.set (fst kv) (snd kv) acc) other d.

Definition repeat (self : loc) (pulse_name : pulse_ref)
    (pattern : nat * nat) (pulse_channel_names : list string)
  : M (list (string * (nat * nat))) :=
  pulse <- match pulse_name with
           | Given pulse => ret pulse
           | Named pulse_name operation_dict =>
               getitem pulse_name operation_dict
           end ;;
  rep <- for_each pulse_channel_names
           (fun ch rep =>
              c <- getitem ch pulse ;; ret (PyDict.set c pattern rep))
           [] ;;
  q <- get_sequence self ;;
  let repeat_patterns := update (repeat_patterns q) rep in
  put_sequence self (set_repeat_patterns q repeat_patterns) ;;;
  ret repeat_patterns.

(** The default of [pulse_channel_names]. *)
Definition IQ_channel_names : list string := ["I_channel"; "Q_channel"].

Definition repeat_ro (self : loc) (pulse_name : pulse_ref)
  : M (list (string * pattern)) :=
  n <- n_acq_elements self ;;
  repeat self pulse_name (n, 1) IQ_channel_names.
End SequenceRepeat.


(** ** numpy arrays of floats, as lists of reals *)

Module Numpy.
Local Open Scope R_scope.

Global Instance Rle_decision : RelDecision Rle := Rle_dec.
Global Instance Rge_decision : RelDecision Rge := Rge_dec.

(** [np.where(cond)[0]]: the indices at which [cond] holds. *)
Fixpoint np_where_from (i : nat) (cond : list bool) : list nat :=
  match cond with
  | [] => []
  | c :: cond' =>
      if c then i :: np_where_from (S i) cond' else np_where_from (S i) cond'
  end.
Definition np_where (cond : list bool) : list nat := np_where_from 0 cond.

(** [np.zeros(n)] *)
Definition zeros (n : nat) : list R := repeat 0 n.

(** [a[i:j]] for indices [0 <= i], [0 <= j]. *)
Definition slice {A} (a : list A) (i j : nat) : list A :=
  take (j - i) (drop i a).

(** Element-wise binary operation on one-dimensional arrays, with numpy's
    broadcasting of a length-one operand; other shape mismatches raise. *)
Definition broadcast2 (f : R -> R -> R) (a b : list R) : option (list R) :=
  if decide (List.length a = List.length b) then Some (zip_with f a b)
  else match a, b with
       | [x], _ => Some (map (f x) b)
       | _, [y] => Some (map (fun x => f x y) a)
       | _, _ => None
       end.

(** [wf[i:j] += v]: [v] must have the shape of the slice or length one. *)
Definition iadd_slice (wf : list R) (i j : nat) (v : list R)
  : option (list R) :=
  let target := slice wf i j in
  let n := List.length target in
  v' ← (if decide (List.length v = n) then Some v
        else match v with
             | [x] => Some (repeat x n)
             | _ => None
             end);
  Some (take i wf ++ zip_with Rplus target v' ++ drop (i + n) wf).

(** [a -= (a[0] + a[-1]) / 2.] *)
Definition sub_offset (a : list R) : option (list R) :=
  a0 ← head a;
  an ← last a;
  Some (map (fun x => x - (a0 + an) / 2) a).
End Numpy.

(** ** pulse_library.MW_IQmod_pulse *)

Module MW_IQmod_pulse.
Import Numpy.
Local Open Scope R_scope.

Record t := mk {
  name : string;
  I_channel : string;
  Q_channel : string;
  mod_frequency : R;
  amplitude : R;
  length : R;
  phase : R;
  phaselock : bool
}.

Definition chan_wf (self : t) (chan : string) (tvals : list R)
  : option (list R) :=
  t0 ← tvals !! 0%nat;
  idx0 ← head (np_where (map (fun x => bool_decide (x >= t0)) tvals));
  i1 ← last (np_where
               (map (fun x => bool_decide (x <= t0 + length self)) tvals));
  let idx1 := (i1 + 1)%nat in
  let wf := zeros (List.length tvals) in
  tvals ← (if negb (phaselock self)
           then ts ← tvals !! idx0; Some (map (fun x => x - ts) tvals)
           else Some tvals);
  wf ← (if decide (chan = I_channel self)
        then iadd_slice wf idx0 idx1
               (map (fun x => amplitude self *
                              cos (2 * PI * (mod_frequency self * x +
                                             phase self / 360)))
                    (slice tvals idx0 idx1))
        else Some wf);
  wf ← (if decide (chan = Q_channel self)
        then iadd_slice wf idx0 idx1
               (map (fun x => amplitude self *
                              sin (2 * PI * (mod_frequency self * x +
                                             phase self / 360)))
                    (slice tvals idx0 idx1))
        else Some wf);
  Some wf.
End MW_IQmod_pulse.

(** ** pulse_library.SSB_DRAG_pulse *)

Module SSB_DRAG_pulse.
Import Numpy.
Local Open Scope R_scope.

Record t := mk {
  name : string;
  I_channel : string;
  Q_channel : string;
  amplitude : R;
  sigma : R;
  nr_sigma : R;
  motzoi : R;
  mod_frequency : R;
  phase : R;
  phaselock : bool;
  alpha : R;
  phi_skew : R;
  length : R
}.

(** [__init__]: [length] is [sigma * nr_sigma]. *)
Definition init (name I_channel Q_channel : string)
    (amplitude sigma nr_sigma motzoi mod_frequency phase : R)
    (phaselock : bool) (alpha phi_skew : R) : t :=
  mk name I_channel Q_channel amplitude sigma nr_sigma motzoi
     mod_frequency phase phaselock alpha phi_skew (sigma * nr_sigma).

(** The two envelopes of [chan_wf] (lines 147-156), over the time axis
    [t = tvals - tvals[0]]: the Gaussian and its scaled derivative, each
    with its offset subtracted. *)
Definition gauss_env_raw (self : t) (t : list R) : list R :=
  map (fun ti => amplitude self *
                 exp (- (0.5 * ((ti - length self / 2.0) ^ 2)
                         / sigma self ^ 2)))
      t.

Definition deriv_gauss_env_raw (self : t) (t : list R) : list R :=
  zip_with (fun ti gi => motzoi self * -1 * (ti - length self / 2.0)
                         / (sigma self ^ 1) * gi)
           t (gauss_env_raw self t).

Definition gauss_env (self : t) (t : list R) : option (list R) :=
  sub_offset (gauss_env_raw self t).

Definition deriv_gauss_env (self : t) (t : list R) : option (list R) :=
  sub_offset (deriv_gauss_env_raw self t).

Definition apply_modulation (self : t) (I_env Q_env tvals : list R)
  : option (list R * list R) :=
  let tan_phi_skew := tan (2 * PI * phi_skew self / 360) in
  let sec_phi_alpha := 1 / (cos (2 * PI * phi_skew self / 360)
                            * alpha self) in
  let x := fun tv => 2 * PI * (mod_frequency self * tv
                               + phase self / 360) in
  i1 ← broadcast2 Rmult I_env
         (map (fun tv => cos (x tv) - tan_phi_skew * sin (x tv)) tvals);
  i2 ← broadcast2 Rmult Q_env
         (map (fun tv => sin (x tv) + tan_phi_skew * cos (x tv)) tvals);
  I_mod ← broadcast2 Rplus i1 i2;
  q1 ← broadcast2 Rmult
         (map (fun e => -1 * e * sec_phi_alpha) I_env)
         (map (fun tv => sin (x tv)) tvals);
  q2 ← broadcast2 Rmult
         (map (fun e => e * sec_phi_alpha) Q_env)
         (map (fun tv => cos (x tv)) tvals);
  Q_mod ← broadcast2 Rplus q1 q2;
  Some (I_mod, Q_mod).

Definition chan_wf (self : t) (chan : string) (tvals : list R)
  : option (list R) :=
  t0 ← tvals !! 0%nat;
  idx0 ← head (np_where (map (fun x => bool_decide (x >= t0)) tvals));
  i1 ← last (np_where
               (map (fun x => bool_decide (x <= t0 + length self)) tvals));
  let idx1 := (i1 + 1)%nat in
  let wf := zeros (List.length tvals) in
  let t := map (fun x => x - t0) tvals in
  tvals ← (if negb (phaselock self)
           then ts ← tvals !! idx0; Some (map (fun x => x - ts) tvals)
           else Some tvals);
  gauss ← gauss_env self t;
  deriv ← deriv_gauss_env self t;
  wf ← (if decide (chan = I_channel self)
        then m ← apply_modulation self gauss deriv (slice tvals idx0 idx1);
             iadd_slice wf idx0 idx1 (fst m)
        else Some wf);
  wf ← (if decide (chan = Q_channel self)
        then m ← apply_modulation self gauss deriv (slice tvals idx0 idx1);
             iadd_slice wf idx0 idx1 (snd m)
        else Some wf);
  Some wf.
End SSB_DRAG_pulse.

(** * Example stores *)

Module Examples.
Import Sequence.

Definition segment (n : string) : Segment.t := Segment.mk n ["ro"] [].

(** The segments of the [i]-th sequence of [uniform k n]. *)
Definition uniform_segments (n i : nat) : list (string * loc) :=
  map (fun j => ("seg" +:+ pretty j, n * i + j)) (seq 0 n).

(** [k] Sequences [seq0], [seq1], ... of [n] Segments [seg0], [seg1], ...
    each, held by the list at location 0. *)
Definition uniform (k n : nat) : heap :=
  Heap
    (list_to_map
       (map (fun i => (i, mk ("seq" +:+ pretty i) 0
                             (uniform_segments n i) [] []))
            (seq 0 k)))
    (list_to_map
       (flat_map
          (fun i => map (fun j => (n * i + j, segment ("seg" +:+ pretty j)))
                        (seq 0 n))
          (seq 0 k)))
    (list_to_map [(0, seq 0 k)]).

(** Sequences [A], [B], [C] holding one Segment each, named [a], [b] and
    [b], in the list at location 0. *)
Definition abb : heap :=
  Heap
    (list_to_map [(0, mk "A" 0 [("a", 0)] [] []);
                  (1, mk "B" 0 [("b", 1)] [] []);
                  (2, mk "C" 0 [("b", 2)] [] [])])
    (list_to_map [(0, segment "a"); (1, segment "b"); (2, segment "b")])
    (list_to_map [(0, [0; 1; 2])]).

(** Sequences [A] with one Segment and [B] with two, in the list at
    location 0. *)
Definition uneven : heap :=
  Heap
    (list_to_map [(0, mk "A" 0 [("a", 0)] [] []);
                  (1, mk "B" 0 [("b", 1); ("c", 2)] [] [])])
    (list_to_map [(0, segment "a"); (1, segment "b"); (2, segment "c")])
    (list_to_map [(0, [0; 1])]).

(** Two Sequences with a repeat pattern on channel [ch1]. *)
Definition repeated (inner0 inner1 : nat) : heap :=
  Heap
    (list_to_map [(0, mk "A" 0 [("a", 0)] [] [("ch1", (2, inner0))]);
                  (1, mk "B" 0 [("b", 1)] [] [("ch1", (3, inner1))])])
    (list_to_map [(0, segment "a"); (1, segment "b")])
    (list_to_map [(0, [0; 1])]).

(** A readout pulse on the AWG channels [ch1] and [ch2], and the operation
    dict that holds it. *)
Definition ro_pulse : list (string * string) :=
  [("I_channel", "ch1"); ("Q_channel", "ch2"); ("pulse_type", "ro")].
Definition operations : list (string * list (string * string)) :=
  [("RO qb1", ro_pulse)].

(** Stand-ins for the Segment methods: every segment has the elements of
    its [acquisition_elements] on the one AWG, one codeword, two channels,
    and a hash that depends on the element and the channel only. *)
Definition one_awg (g : Segment.t) : list (string * list string) :=
  [("AWG1", Segment.acquisition_elements g)].
Definition one_codeword (g : Segment.t) (elname awg : string) : list nat :=
  [0].
Definition two_channels (g : Segment.t) (elname awg : string)
  : list string := ["ch1"; "ch2"].
Definition hash_of (g : Segment.t) (elname : string) (c : nat)
    (ch : string) : Z :=
  Z.of_nat (String.length elname + c
            + (if String.eqb ch "ch1" then 100 else 200)).
Definition samples_of (g : Segment.t) (awg elname ch : string) (c : nat)
  : list nat := [String.length elname; String.length ch; c].
Definition channel_id (key : string) : string := key.
End Examples.

(** * Specification vocabulary *)

Module Spec.
Import Sequence.

(** Number of segments of the Sequence object at [l]. *)
Definition count (σ : heap) (l : loc) : nat :=
  match sequences σ !! l with
  | Some q => length (segments q)
  | None => 0
  end.

(** The Segment references held by the Sequence object at [l]. *)
Definition seq_refs (σ : heap) (l : loc) : list loc :=
  match sequences σ !! l with
  | Some q => (segments q).*2
  | None => []
  end.

(** Every object of [σ0] is still in [σ], unchanged. *)
Definition preserves (σ0 σ : heap) : Prop :=
  sequences σ0 ⊆ sequences σ /\ segs σ0 ⊆ segs σ /\ lists σ0 ⊆ lists σ.

(** From [σ] to [σ'] the only Sequence object written is [acc], which
    gained segments among [refs] at the end of its mapping; the only
    Segment objects written are among [refs]. *)
Definition grows (acc : loc) (refs : list loc) (σ σ' : heap) : Prop :=
  lists σ' = lists σ /\
  (forall l, l <> acc -> sequences σ' !! l = sequences σ !! l) /\
  (forall l, l ∉ refs -> segs σ' !! l = segs σ !! l) /\
  match sequences σ !! acc with
  | None => sequences σ' !! acc = None
  | Some q =>
      exists q' ext,
        sequences σ' !! acc = Some q' /\
        segments q' = segments q ++ ext /\
        ext.*2 ⊆ refs
  end.

(** [σ] keeps the objects of [σ0], and a Sequence object made since [σ0]
    holds only Segment objects made since [σ0]. *)
Definition copies_apart (σ0 σ : heap) : Prop :=
  preserves σ0 σ /\
  forall l q s,
    sequences σ0 !! l = None ->
    sequences σ !! l = Some q ->
    s ∈ (segments q).*2 ->
    segs σ0 !! s = None.

(** The merge-respects-limit property as the spec words it: for every
    non-empty list and every limit, each returned Sequence has at most
    [segment_limit] segments. *)
Definition merge_respects_limit_as_stated : Prop :=
  forall σ sequences seqs lim mrp r σ' ms,
    lists σ !! sequences = Some seqs ->
    seqs <> [] ->
    merge sequences lim mrp σ = (Ok r, σ') ->
    lists σ' !! r = Some ms ->
    Forall (fun m => le_limit (count σ' m) lim = true) ms.

(** The renaming example as the spec words it: merging two Sequences
    that each hold a Segment [seg0] gives one Sequence whose second
    segment is renamed [seg0_copy_from_merge_0]. *)
Definition rename_example_as_stated : Prop :=
  exists r σ' m q,
    merge 0 None true (Examples.uniform 2 1) = (Ok r, σ') /\
    lists σ' !! r = Some [m] /\
    sequences σ' !! m = Some q /\
    PyDict.keys (segments q) = ["seg0"; "seg0_copy_from_merge_0"].

(** The choice of the compression factor as the spec words it: for
    every list of Sequences with the same segment count [n_seg] and every
    limit, the factor returned is the largest divisor [f] of the number of
    sequences with [f * n_seg <= segment_limit]. *)
Definition compression_factor_as_stated : Prop :=
  forall σ sequences seqs n_seg lim mrp res σ',
    lists σ !! sequences = Some seqs ->
    seqs <> [] ->
    Forall (fun s => exists q, Sequence.sequences σ !! s = Some q /\
                               length (segments q) = n_seg) seqs ->
    compress_2D_sweep sequences lim mrp σ = (Ok res, σ') ->
    Nat.divide (snd res) (length seqs) /\
    le_limit (snd res * n_seg) lim = true /\
    forall d, Nat.divide d (length seqs) ->
              le_limit (d * n_seg) lim = true -> d <= snd res.

(** The end of [compress_2D_sweep] (lines 304-306), given the factor and
    the merged list. *)
Definition sweep_indices (factor : nat) (compressed_2D_sweep : loc)
  : M (loc * list nat * list nat * nat) :=
  bind (get_list compressed_2D_sweep) (fun cs =>
  bind (item cs 0) (fun c0 =>
  bind (n_acq_elements c0) (fun n_acq =>
  ret (compressed_2D_sweep, seq 0 n_acq, seq 0 (length cs), factor)))).

(** The waveform table and the log of [seg.waveforms] calls agree with
    the hashes [seen] so far: the keys of the table are the logged hashes
    in call order, no hash is logged twice, and the logged hashes are the
    hashes seen. *)
Definition deduplicated {wf} (ws : list (Z * wf) * list Z)
    (seen : list Z) : Prop :=
  PyDict.keys (fst ws) = snd ws /\
  NoDup (snd ws) /\
  forall h, h ∈ snd ws <-> h ∈ seen.

(** Some channel has a repeat pattern in both mappings, with different
    [inner_loop_size]. *)
Definition mismatch (p0 p1 : list (string * pattern)) : Prop :=
  exists ch a b,
    PyDict.get ch p0 = Some a /\ PyDict.get ch p1 = Some b /\
    snd a <> snd b.

(** The pattern of one channel after reconciliation, from the pattern of
    the accumulator and the pattern of the incoming sequence: "counts are
    summed". *)
Definition reconciled (a b : option pattern) : option pattern :=
  match a, b with
  | Some a, Some b => Some (fst a + fst b, snd a)
  | Some a, None => Some a
  | None, b => b
  end.

(** The reconciliation of the spec over all the patterns of the incoming
    sequence, in their order; [None] stands for the mismatch error. *)
Fixpoint reconcile (acc incoming : list (string * pattern))
  : option (list (string * pattern)) :=
  match incoming with
  | [] => Some acc
  | (ch, p) :: rest =>
      match PyDict.get ch acc with
      | Some prev =>
          if decide (snd prev = snd p)
          then reconcile (PyDict.set ch (fst prev + fst p, snd prev) acc)
                 rest
          else None
      | None => reconcile (PyDict.set ch p acc) rest
      end
  end.

(** The reconciliation of repeat patterns as the spec words it, for a
    merge of two Sequences under any limit: with [merge_repeat_patterns]
    on, when both define a pattern for a channel, [merge] raises if and
    only if the two [inner_loop_size] differ. *)
Definition repeat_pattern_mismatch_as_stated : Prop :=
  forall σ sequences s0 s1 q0 q1 lim ch p0 p1,
    lists σ !! sequences = Some [s0; s1] ->
    Sequence.sequences σ !! s0 = Some q0 ->
    Sequence.sequences σ !! s1 = Some q1 ->
    PyDict.get ch (repeat_patterns q0) = Some p0 ->
    PyDict.get ch (repeat_patterns q1) = Some p1 ->
    ((exists e, fst (merge sequences lim true σ) = Raise e)
     <-> snd p0 <> snd p1).

(** The grouping the spec describes, on segment counts: a sequence is
    folded into the current accumulator while the combined count stays
    within the limit, otherwise it starts a new accumulator. *)
Fixpoint greedy (segment_limit : option nat) (cur : nat) (cs : list nat)
  : list nat :=
  match cs with
  | [] => [cur]
  | c :: cs' =>
      if le_limit (cur + c) segment_limit
      then greedy segment_limit (cur + c) cs'
      else cur :: greedy segment_limit c cs'
  end.
End Spec.

(** The vocabulary of the claims on the pulse shapes. *)
Module PulseSpec.
Import Numpy.
Local Open Scope R_scope.

(** The samples of [MW_IQmod_pulse.chan_wf] for one modulation function
    [osc] ([cos] on the I channel, [sin] on the Q channel) over a time
    axis that starts at [t0]: the phase runs on the global clock when
    [phaselock] is set and from [t0] otherwise. *)
Definition block (self : MW_IQmod_pulse.t) (osc : R -> R) (t0 : R)
    (tvals : list R) : list R :=
  let origin := if MW_IQmod_pulse.phaselock self then 0 else t0 in
  map (fun t =>
         if decide (t <= t0 + MW_IQmod_pulse.length self)
         then MW_IQmod_pulse.amplitude self *
              osc (2 * PI * (MW_IQmod_pulse.mod_frequency self
                             * (t - origin)
                             + MW_IQmod_pulse.phase self / 360))
         else 0)
      tvals.

(** The I-channel formula as the spec words it, with the global time
    [t] whatever [phaselock] is. *)
Definition iq_formula_as_stated : Prop :=
  forall (self : MW_IQmod_pulse.t) (t0 : R) (rest : list R),
    StronglySorted Rle (t0 :: rest) ->
    0 <= MW_IQmod_pulse.length self ->
    MW_IQmod_pulse.I_channel self <> MW_IQmod_pulse.Q_channel self ->
    MW_IQmod_pulse.chan_wf self (MW_IQmod_pulse.I_channel self)
      (t0 :: rest)
    = Some (map (fun t =>
                   if decide (t <= t0 + MW_IQmod_pulse.length self)
                   then MW_IQmod_pulse.amplitude self *
                        cos (2 * PI * (MW_IQmod_pulse.mod_frequency self
                                       * t
                                       + MW_IQmod_pulse.phase self / 360))
                   else 0)
                (t0 :: rest)).

(** The default pulse of the spec's example: amplitude 0.1, length 1e-6,
    modulation frequency 1e6, phase 0. *)
Definition default_pulse : MW_IQmod_pulse.t :=
  MW_IQmod_pulse.mk "pulse" "I" "Q" 1000000 (1 / 10) (1 / 1000000) 0 true.

(** A pulse without phase lock, at a quarter of the unit frequency. *)
Definition unlocked_pulse : MW_IQmod_pulse.t :=
  MW_IQmod_pulse.mk "pulse" "I" "Q" (1 / 4) 1 1 0 false.

(** A DRAG pulse without [motzoi], modulation frequency and phase. *)
Definition plain_drag : SSB_DRAG_pulse.t :=
  SSB_DRAG_pulse.init "drag" "I" "Q" (1 / 10) 1 4 0 0 0 true 1 0.

(** The Gaussian of the DRAG pulse as the spec describes it: "mean =
    length/2, std = sigma, amplitude A", at time [t] after the start of
    the pulse. *)
Definition gaussian (self : SSB_DRAG_pulse.t) (t : R) : R :=
  SSB_DRAG_pulse.amplitude self *
  exp (- ((t - SSB_DRAG_pulse.length self / 2) ^ 2
          / (2 * SSB_DRAG_pulse.sigma self ^ 2))).

(** The pure Gaussian envelope over a time axis that starts at [t0] and
    ends at [tn], "DC-offset removed by subtracting the average of
    first/last sample". *)
Definition gaussian_envelope (self : SSB_DRAG_pulse.t) (t0 tn : R)
    (tvals : list R) : list R :=
  map (fun t => gaussian self (t - t0)
                - (gaussian self 0 + gaussian self (tn - t0)) / 2)
      tvals.

(** The DRAG degenerate case as the spec words it, for every time axis:
    without [motzoi], modulation frequency and phase the I waveform is the
    pure Gaussian envelope. *)
Definition drag_gaussian_as_stated : Prop :=
  forall (self : SSB_DRAG_pulse.t) (t0 : R) (rest : list R),
    SSB_DRAG_pulse.motzoi self = 0 ->
    SSB_DRAG_pulse.mod_frequency self = 0 ->
    SSB_DRAG_pulse.phase self = 0 ->
    SSB_DRAG_pulse.sigma self <> 0 ->
    0 <= SSB_DRAG_pulse.length self ->
    SSB_DRAG_pulse.I_channel self <> SSB_DRAG_pulse.Q_channel self ->
    StronglySorted Rle (t0 :: rest) ->
    SSB_DRAG_pulse.chan_wf self (SSB_DRAG_pulse.I_channel self) (t0 :: rest)
    = Some (gaussian_envelope self t0 (default t0 (last rest)) (t0 :: rest)).
End PulseSpec.

(** * Properties *)

(** ** Dictionaries *)

Section DictFacts.
Context {K V : Type} `{EqDecision K}.
Implicit Types (d : list (K * V)) (k : K) (v : V).

Lemma dict_get_None d k : PyDict.get k d = None <-> k ∉ PyDict.keys d.
Proof.
  induction d as [|[k' v'] d IH]; simpl.
  - split; [intros _; apply not_elem_of_nil | done].
  - destruct (decide (k = k')) as [->|Hne].
    + split; [done | intros Hn; exfalso; apply Hn; left].
    + rewrite IH, not_elem_of_cons. tauto.
Qed.

Lemma dict_mem_true d k : PyDict.mem k d = true <-> k ∈ PyDict.keys d.
Proof.
  unfold PyDict.mem. destruct (PyDict.get k d) eqn:E.
  - split; [intros _ | done].
    destruct (decide (k ∈ PyDict.keys d)) as [|Hn]; [done|].
    apply dict_get_None in Hn. congruence.
  - apply dict_get_None in E. split; [done | tauto].
Qed.

Lemma dict_mem_false d k : PyDict.mem k d = false <-> k ∉ PyDict.keys d.
Proof.
  rewrite <- dict_mem_true. destruct (PyDict.mem k d); split; congruence.
Qed.

Lemma dict_set_new d k v :
  k ∉ PyDict.keys d -> PyDict.set k v d = d ++ [(k, v)].
Proof.
  induction d as [|[k' v'] d IH]; simpl; [done|].
  rewrite not_elem_of_cons. intros [Hne Hn].
  destruct (decide (k = k')); [done|]. by rewrite IH.
Qed.

Lemma dict_get_set_eq d k v : PyDict.get k (PyDict.set k v d) = Some v.
Proof.
  induction d as [|[k' v'] d IH]; simpl.
  - by destruct (decide (k = k)).
  - destruct (decide (k = k')) as [->|Hne]; simpl.
    + by destruct (decide (k' = k')).
    + by destruct (decide (k = k')).
Qed.

Lemma dict_get_set_ne d k k' v :
  k <> k' -> PyDict.get k' (PyDict.set k v d) = PyDict.get k' d.
Proof.
  intros Hne. induction d as [|[k0 v0] d IH]; simpl.
  - destruct (decide (k' = k)); [congruence | done].
  - destruct (decide (k = k0)) as [->|Hne0]; simpl.
    + destruct (decide (k' = k0)); [congruence | done].
    + destruct (decide (k' = k0)); [done | apply IH].
Qed.

Lemma dict_keys_set d k v :
  PyDict.keys (PyDict.set k v d) =
  if decide (k ∈ PyDict.keys d) then PyDict.keys d
  else PyDict.keys d ++ [k].
Proof.
  induction d as [|[k' v'] d IH]; simpl.
  - destruct (decide (k ∈ [])) as [Hin|]; [by apply elem_of_nil in Hin|done].
  - destruct (decide (k = k')) as [->|Hne]; simpl.
    + destruct (decide (k' ∈ k' :: PyDict.keys d)) as [|Hn]; [done|].
      exfalso; apply Hn; left.
    + rewrite IH.
      destruct (decide (k ∈ PyDict.keys d)) as [Hin|Hn];
        destruct (decide (k ∈ k' :: PyDict.keys d)) as [Hin'|Hn'];
        try done.
      * exfalso; apply Hn'; by right.
      * apply elem_of_cons in Hin' as [?|?]; done.
Qed.

Lemma dict_length_set_new d k v :
  k ∉ PyDict.keys d -> length (PyDict.set k v d) = S (length d).
Proof.
  intros Hn. rewrite dict_set_new by done. rewrite length_app. simpl. lia.
Qed.
End DictFacts.

(** ** Sequence.add *)

Section Add.
Import Sequence.

Lemma add_collision σ self segment q g :
  sequences σ !! self = Some q ->
  segs σ !! segment = Some g ->
  Segment.name g ∈ PyDict.keys (segments q) ->
  add self segment σ = (Raise NameError, σ).
Proof.
  intros Hq Hg Hin. unfold add, bind, get_segment, get_sequence.
  rewrite Hg, Hq.
  apply dict_mem_true in Hin. by rewrite Hin.
Qed.

Lemma add_fresh σ self segment q g :
  sequences σ !! self = Some q ->
  segs σ !! segment = Some g ->
  Segment.name g ∉ PyDict.keys (segments q) ->
  add self segment σ =
  (Ok tt,
   with_sequences σ
     (<[self := set_segments q (segments q ++ [(Segment.name g, segment)])]>
        (sequences σ))).
Proof.
  intros Hq Hg Hn. unfold add, bind, get_segment, get_sequence.
  rewrite Hg, Hq.
  pose proof Hn as Hm. apply dict_mem_false in Hm. rewrite Hm.
  unfold put_sequence. by rewrite dict_set_new.
Qed.

(** C9: [Sequence.add] of a Segment whose name is already a key of
    [segments] raises [NameError] and leaves the store, hence the
    [segments] mapping, as it was; otherwise the segment is appended
    after all the segments added before, whose order is kept. *)
Theorem add_atomic_or_appends σ self segment q g :
  sequences σ !! self = Some q ->
  segs σ !! segment = Some g ->
  (Segment.name g ∈ PyDict.keys (segments q) ->
   add self segment σ = (Raise NameError, σ)) /\
  (Segment.name g ∉ PyDict.keys (segments q) ->
   exists σ',
     add self segment σ = (Ok tt, σ') /\
     segs σ' = segs σ /\ lists σ' = lists σ /\
     (forall l, l <> self -> sequences σ' !! l = sequences σ !! l) /\
     sequences σ' !! self =
     Some (set_segments q (segments q ++ [(Segment.name g, segment)]))).
Proof.
  intros Hq Hg. split.
  - by apply add_collision.
  - intros Hn. eexists. split; [by apply add_fresh|]. simpl.
    repeat split.
    + intros l Hl. by rewrite lookup_insert_ne.
    + by rewrite lookup_insert_eq.
Qed.
End Add.

(** ** Running computations over the store *)

Section Run.
Import Sequence.

Lemma bind_inv {A B} (m : M A) (f : A -> M B) σ r σ' :
  bind m f σ = (r, σ') ->
  (exists a σ1, m σ = (Ok a, σ1) /\ f a σ1 = (r, σ')) \/
  (exists e, m σ = (Raise e, σ') /\ r = Raise e).
Proof.
  unfold bind. destruct (m σ) as [[a|e] σ1]; intros Hr.
  - left. eauto.
  - right. inversion Hr; subst. eauto.
Qed.

Lemma bind_ok {A B} (m : M A) (f : A -> M B) σ a σ1 :
  m σ = (Ok a, σ1) -> bind m f σ = f a σ1.
Proof. unfold bind. by intros ->. Qed.

Lemma bind_raise {A B} (m : M A) (f : A -> M B) σ e σ1 :
  m σ = (Raise e, σ1) -> bind m f σ = (Raise e, σ1).
Proof. unfold bind. by intros ->. Qed.

Lemma get_sequence_inv l σ r σ' :
  get_sequence l σ = (r, σ') ->
  σ' = σ /\
  match r with
  | Ok q => sequences σ !! l = Some q
  | Raise e => sequences σ !! l = None /\ e = DanglingReference
  end.
Proof.
  unfold get_sequence. destruct (sequences σ !! l); intros Hr;
    inversion Hr; subst; auto.
Qed.

Lemma get_segment_inv l σ r σ' :
  get_segment l σ = (r, σ') ->
  σ' = σ /\
  match r with
  | Ok g => segs σ !! l = Some g
  | Raise e => segs σ !! l = None /\ e = DanglingReference
  end.
Proof.
  unfold get_segment. destruct (segs σ !! l); intros Hr;
    inversion Hr; subst; auto.
Qed.

Lemma get_list_inv l σ r σ' :
  get_list l σ = (r, σ') ->
  σ' = σ /\
  match r with
  | Ok ls => lists σ !! l = Some ls
  | Raise e => lists σ !! l = None /\ e = DanglingReference
  end.
Proof.
  unfold get_list. destruct (lists σ !! l); intros Hr;
    inversion Hr; subst; auto.
Qed.

Lemma get_sequence_some l σ q :
  sequences σ !! l = Some q -> get_sequence l σ = (Ok q, σ).
Proof. unfold get_sequence. by intros ->. Qed.

Lemma get_segment_some l σ g :
  segs σ !! l = Some g -> get_segment l σ = (Ok g, σ).
Proof. unfold get_segment. by intros ->. Qed.

Lemma get_list_some l σ ls :
  lists σ !! l = Some ls -> get_list l σ = (Ok ls, σ).
Proof. unfold get_list. by intros ->. Qed.

Lemma n_segments_inv l σ r σ' :
  n_segments l σ = (r, σ') ->
  σ' = σ /\
  match r with
  | Ok n => exists q, sequences σ !! l = Some q /\ n = length (segments q)
  | Raise e => sequences σ !! l = None /\ e = DanglingReference
  end.
Proof.
  unfold n_segments, bind, get_sequence, ret.
  destruct (sequences σ !! l); intros Hr; inversion Hr; subst; eauto.
Qed.

Lemma n_segments_some l σ q :
  sequences σ !! l = Some q ->
  n_segments l σ = (Ok (length (segments q)), σ).
Proof. unfold n_segments, bind, get_sequence, ret. by intros ->. Qed.

Lemma last_item_inv {A} (xs : list A) σ r σ' :
  last_item xs σ = (r, σ') ->
  σ' = σ /\
  match r with
  | Ok x => last xs = Some x
  | Raise e => xs = [] /\ e = IndexError
  end.
Proof.
  unfold last_item. destruct (last xs) eqn:E; intros Hr;
    inversion Hr; subst; split; auto.
  split; [by apply last_None | done].
Qed.
End Run.

(** Split a [bind] found in hypothesis [H] into its two outcomes. *)
Ltac bind_cases H a σ1 E :=
  let e := fresh "e" in
  let Hr := fresh "Hr" in
  apply bind_inv in H as [(a & σ1 & E & H)|(e & E & Hr)];
  [|try (match type of Hr with ?r = _ => is_var r; subst r end)].

(** ** One segment folded into the accumulator (lines 213-221) *)

Section MergeSegment.
Import Sequence.

(** What [merge_segment] returns, case by case. *)
Lemma merge_segment_cases acc k s occ σ :
  match sequences σ !! acc, segs σ !! s with
  | Some q, Some g =>
      if decide (Segment.name g ∈ PyDict.keys (segments q)) then
        match occ !! k with
        | None => merge_segment acc (k, s) occ σ = (Raise KeyError, σ)
        | Some c =>
            let new := k +:+ "_copy_from_merge_" +:+ pretty c in
            let σ1 :=
              with_segs σ (<[s := Segment.set_name g new]> (segs σ)) in
            if decide (new ∈ PyDict.keys (segments q)) then
              merge_segment acc (k, s) occ σ = (Raise NameError, σ1)
            else
              merge_segment acc (k, s) occ σ =
              (Ok (<[k := c + 1]> occ),
               with_sequences σ1
                 (<[acc := set_segments q (segments q ++ [(new, s)])]>
                    (sequences σ)))
        end
      else
        merge_segment acc (k, s) occ σ =
        (Ok occ,
         with_sequences σ
           (<[acc := set_segments q
                       (segments q ++ [(Segment.name g, s)])]>
              (sequences σ)))
  | _, _ => merge_segment acc (k, s) occ σ = (Raise DanglingReference, σ)
  end.
Proof.
  unfold merge_segment, try_except. simpl.
  destruct (sequences σ !! acc) as [q|] eqn:Hq;
    destruct (segs σ !! s) as [g|] eqn:Hg.
  - destruct (decide (Segment.name g ∈ PyDict.keys (segments q)))
      as [Hin|Hn].
    + rewrite (bind_raise _ _ _ _ _ (add_collision _ _ _ _ _ Hq Hg Hin)).
      simpl. destruct (occ !! k) as [c|]; [|done].
      rewrite Nat.add_sub. cbv zeta.
      set (new := k +:+ "_copy_from_merge_" +:+ pretty c).
      set (σ1 := with_segs σ (<[s := Segment.set_name g new]> (segs σ))).
      assert (Hq1 : sequences σ1 !! acc = Some q) by done.
      assert (Hg1 : segs σ1 !! s = Some (Segment.set_name g new))
        by (simpl; by rewrite lookup_insert_eq).
      assert (Hput : put_segment s (Segment.set_name g new) σ = (Ok tt, σ1))
        by done.
      destruct (decide (new ∈ PyDict.keys (segments q))) as [Hin'|Hn'];
        rewrite (bind_ok _ _ _ _ _ (get_segment_some _ _ _ Hg));
        rewrite (bind_ok _ _ _ _ _ Hput).
      * by rewrite (bind_raise _ _ _ _ _
                      (add_collision _ _ _ _ _ Hq1 Hg1 Hin')).
      * by rewrite (bind_ok _ _ _ _ _ (add_fresh _ _ _ _ _ Hq1 Hg1 Hn')).
    + by rewrite (bind_ok _ _ _ _ _ (add_fresh _ _ _ _ _ Hq Hg Hn)).
  - unfold bind, add, bind, get_segment. by rewrite Hg.
  - unfold bind, add, bind, get_segment, get_sequence. by rewrite Hg, Hq.
  - unfold bind, add, bind, get_segment. by rewrite Hg.
Qed.
End MergeSegment.

(** ** The loops of [merge] and what they write *)

(** Run the read at the head of the computation in hypothesis [H]; [a] names
    the value read and [E] what is known of it. *)
Ltac run_read H a E :=
  let σ1 := fresh "σ" in
  bind_cases H a σ1 E;
  first
    [ apply get_sequence_inv in E as [-> E]
    | apply get_segment_inv in E as [-> E]
    | apply get_list_inv in E as [-> E]
    | apply n_segments_inv in E as [-> E]
    | apply last_item_inv in E as [-> E] ].

Section MergeLoops.
Import Sequence Spec.

Lemma grows_refl acc refs σ : grows acc refs σ σ.
Proof.
  repeat split; try done.
  destruct (sequences σ !! acc) as [q|] eqn:Hq; [|done].
  exists q, []. rewrite app_nil_r. repeat split; try done.
  intros x Hx. simpl in Hx. by apply elem_of_nil in Hx.
Qed.

Lemma grows_trans acc refs refs' σ σ1 σ2 :
  grows acc refs σ σ1 -> grows acc refs' σ1 σ2 ->
  grows acc (refs ++ refs') σ σ2.
Proof.
  intros (Hl & Hs & Hg & Ha) (Hl' & Hs' & Hg' & Ha').
  split; [congruence|]. split.
  { intros l Hne. rewrite Hs', Hs; done. }
  split.
  { intros l Hn. rewrite not_elem_of_app in Hn. destruct Hn.
    rewrite Hg', Hg; done. }
  destruct (sequences σ !! acc) as [q|].
  - destruct Ha as (q1 & ext & Hq1 & Hseg & Hsub).
    rewrite Hq1 in Ha'. destruct Ha' as (q2 & ext' & Hq2 & Hseg' & Hsub').
    exists q2, (ext ++ ext'). split; [done|]. split.
    + rewrite Hseg', Hseg. by rewrite <- app_assoc.
    + rewrite fmap_app. intros x Hx.
      apply elem_of_app in Hx as [Hx|Hx]; apply elem_of_app; auto.
  - by rewrite Ha in Ha'.
Qed.

Lemma grows_mono acc refs refs' σ σ' :
  refs ⊆ refs' -> grows acc refs σ σ' -> grows acc refs' σ σ'.
Proof.
  intros Hsub (Hl & Hs & Hg & Ha). repeat split; try done.
  - intros l Hn. apply Hg. intros Hin. apply Hn. by apply Hsub.
  - destruct (sequences σ !! acc); [|done].
    destruct Ha as (q' & ext & ? & ? & Hext). exists q', ext.
    repeat split; try done. intros x Hx. by apply Hsub, Hext.
Qed.

Lemma merge_segment_grows acc k s occ σ r σ' :
  merge_segment acc (k, s) occ σ = (r, σ') ->
  grows acc [s] σ σ' /\
  (forall occ', r = Ok occ' -> count σ' acc = S (count σ acc)).
Proof.
  pose proof (merge_segment_cases acc k s occ σ) as Hc.
  unfold count.
  destruct (sequences σ !! acc) as [q|] eqn:Hq;
    destruct (segs σ !! s) as [g|] eqn:Hg.
  2-4: rewrite Hc; intros [= <- <-]; split;
       [apply grows_refl | intros ? [=]].
  assert (Hsub : forall (n : string), [(n, s)].*2 ⊆ [s]) by done.
  destruct (decide (Segment.name g ∈ PyDict.keys (segments q))).
  - destruct (occ !! k) as [c|].
    + cbv zeta in Hc.
      destruct (decide (_ ∈ PyDict.keys (segments q)));
        rewrite Hc; intros [= <- <-].
      * split; [|intros ? [=]]. repeat split; simpl; try done.
        -- intros l Hl. rewrite lookup_insert_ne; [done|].
           intros ->. apply Hl. left.
        -- rewrite Hq. exists q, []. rewrite app_nil_r. repeat split; try done.
           intros x Hx. simpl in Hx. by apply elem_of_nil in Hx.
      * split.
        -- repeat split; simpl; try done.
           ++ intros l Hl. by rewrite lookup_insert_ne.
           ++ intros l Hl. rewrite lookup_insert_ne; [done|].
              intros ->. apply Hl. left.
           ++ rewrite Hq. eexists _, _. rewrite lookup_insert_eq.
              split; [done|]. split; [done|]. apply Hsub.
        -- intros _ _. simpl. rewrite lookup_insert_eq. simpl.
           rewrite length_app. simpl. lia.
    + rewrite Hc; intros [= <- <-]. split; [apply grows_refl|intros ? [=]].
  - rewrite Hc; intros [= <- <-]. split.
    + repeat split; simpl; try done.
      * intros l Hl. by rewrite lookup_insert_ne.
      * rewrite Hq. eexists _, _. rewrite lookup_insert_eq.
        split; [done|]. split; [done|]. apply Hsub.
    + intros _ _. simpl. rewrite lookup_insert_eq. simpl.
      rewrite length_app. simpl. lia.
Qed.

Lemma merge_segments_grows acc items occ σ r σ' :
  for_each items (merge_segment acc) occ σ = (r, σ') ->
  grows acc items.*2 σ σ' /\
  (forall occ', r = Ok occ' -> count σ' acc = count σ acc + length items).
Proof.
  revert occ σ. induction items as [|[k s] items IH]; intros occ σ; simpl.
  - intros [= <- <-]. split; [apply grows_refl|]. intros; lia.
  - intros H. bind_cases H occ1 σ1 E.
    + apply merge_segment_grows in E as [Hg Hc].
      apply IH in H as [Hg' Hc']. split.
      * apply (grows_trans _ [s] _ _ _ _ Hg Hg').
      * intros occ' ->. rewrite (Hc' _ eq_refl), (Hc _ eq_refl). lia.
    + apply merge_segment_grows in E as [Hg _]. split; [|intros ? [=]].
      apply (grows_mono _ [s]); [|done].
      intros x Hx. apply list_elem_of_singleton in Hx as ->. left.
Qed.
End MergeLoops.

Section MergeStep.
Import Sequence Spec.

Lemma grows_put acc a a' σ :
  sequences σ !! acc = Some a ->
  segments a' = segments a ->
  grows acc [] σ (with_sequences σ (<[acc := a']> (sequences σ))).
Proof.
  intros Ha Hseg. repeat split; simpl; try done.
  - intros l Hl. by rewrite lookup_insert_ne.
  - rewrite Ha. exists a', []. rewrite lookup_insert_eq, app_nil_r.
    by repeat split.
Qed.

Lemma grows_nil_count acc σ σ' :
  grows acc [] σ σ' -> count σ' acc = count σ acc.
Proof.
  intros (_ & _ & _ & Ha). unfold count.
  destruct (sequences σ !! acc) as [q|].
  - destruct Ha as (q' & ext & -> & Hseg & Hsub).
    destruct ext as [|x ext]; [by rewrite Hseg, app_nil_r|].
    exfalso. eapply not_elem_of_nil, Hsub. left.
  - by rewrite Ha.
Qed.

Lemma grows_count_other acc refs σ σ' l :
  grows acc refs σ σ' -> l <> acc -> count σ' l = count σ l.
Proof. intros (_ & Hs & _) Hl. unfold count. by rewrite Hs. Qed.

(** What [merge_pattern] returns, case by case. *)
Lemma merge_pattern_cases acc ch p σ :
  match sequences σ !! acc with
  | None => merge_pattern acc (ch, p) tt σ = (Raise DanglingReference, σ)
  | Some a =>
      match PyDict.get ch (repeat_patterns a) with
      | Some prev =>
          if decide (snd prev = snd p) then
            merge_pattern acc (ch, p) tt σ =
            (Ok tt,
             with_sequences σ
               (<[acc := set_repeat_patterns a
                           (PyDict.set ch (fst prev + fst p, snd prev)
                              (repeat_patterns a))]> (sequences σ)))
          else
            merge_pattern acc (ch, p) tt σ = (Raise NotImplementedError, σ)
      | None =>
          merge_pattern acc (ch, p) tt σ =
          (Ok tt,
           with_sequences σ
             (<[acc := set_repeat_patterns a
                         (PyDict.set ch p (repeat_patterns a))]>
                (sequences σ)))
      end
  end.
Proof.
  unfold merge_pattern, bind, get_sequence. simpl.
  destruct (sequences σ !! acc) as [a|]; [|done].
  destruct (PyDict.get ch (repeat_patterns a)) as [prev|]; [|done].
  destruct (decide (snd prev = snd p)) as [Heq|Hne].
  - apply Nat.eqb_eq in Heq. by rewrite Heq.
  - apply Nat.eqb_neq in Hne. by rewrite Hne.
Qed.

Lemma merge_pattern_grows acc item u σ r σ' :
  merge_pattern acc item u σ = (r, σ') -> grows acc [] σ σ'.
Proof.
  destruct item as [ch p], u.
  pose proof (merge_pattern_cases acc ch p σ) as Hc.
  destruct (sequences σ !! acc) as [a|] eqn:Ha.
  - destruct (PyDict.get ch (repeat_patterns a)) as [prev|].
    + case_decide; rewrite Hc; intros [= <- <-].
      * by eapply grows_put.
      * apply grows_refl.
    + rewrite Hc; intros [= <- <-]. by eapply grows_put.
  - rewrite Hc; intros [= <- <-]. apply grows_refl.
Qed.

Lemma merge_patterns_grows acc items u σ r σ' :
  for_each items (merge_pattern acc) u σ = (r, σ') -> grows acc [] σ σ'.
Proof.
  revert u σ. induction items as [|it items IH]; intros u σ; simpl.
  - intros [= <- <-]. apply grows_refl.
  - intros H. bind_cases H u1 σ1 E.
    + apply merge_pattern_grows in E. apply IH in H.
      apply (grows_trans _ [] [] _ _ _ E H).
    + by apply merge_pattern_grows in E.
Qed.

(** One iteration of the loop over [sequences[1:]]. *)
Lemma merge_step_spec lim mrp seq merged occs c σ r σ' :
  merge_step lim mrp seq (merged, occs, c) σ = (r, σ') ->
  (σ' = σ \/
   exists acc, last merged = Some acc /\ grows acc (seq_refs σ seq) σ σ') /\
  (forall st', r = Ok st' ->
     exists acc,
       last merged = Some acc /\
       is_Some (sequences σ !! seq) /\
       le_limit (count σ seq) lim = true /\
       ((le_limit (count σ acc + count σ seq) lim = false /\
         fst (fst st') = merged ++ [seq] /\ σ' = σ) \/
        (le_limit (count σ acc + count σ seq) lim = true /\
         fst (fst st') = merged /\
         grows acc (seq_refs σ seq) σ σ' /\
         count σ' acc = count σ acc + count σ seq))).
Proof.
  unfold merge_step. simpl. intros H.
  run_read H n En; [|split; [by left | intros ? [=]]].
  destruct En as (q & Hq & ->).
  assert (Hcq : count σ seq = length (segments q))
    by (unfold count; by rewrite Hq).
  assert (Hrq : seq_refs σ seq = (segments q).*2)
    by (unfold seq_refs; by rewrite Hq).
  destruct (le_limit (length (segments q)) lim) eqn:Hlim; simpl in H;
    [|inversion H; subst; split; [by left | intros ? [=]]].
  run_read H acc Hlast; [|split; [by left | intros ? [=]]].
  run_read H na Ena; [|split; [by left | intros ? [=]]].
  destruct Ena as (qa & Hqa & ->).
  assert (Hca : count σ acc = length (segments qa))
    by (unfold count; by rewrite Hqa).
  destruct (le_limit (length (segments qa) + length (segments q)) lim)
    eqn:Hsum; simpl in H.
  - (* fold [seq] into the accumulator *)
    run_read H q' Hq'; [|split; [by left | intros ? [=]]].
    rewrite Hq in Hq'. injection Hq' as <-.
    run_read H occ Hocc; [|split; [by left | intros ? [=]]].
    bind_cases H occ' σ1 Eloop.
    2:{ apply merge_segments_grows in Eloop as [Hg _].
        split; [|intros ? [=]]. right. exists acc. by rewrite Hrq. }
    apply merge_segments_grows in Eloop as [Hg Hc].
    specialize (Hc _ eq_refl).
    assert (Hstage : forall σ2 (r2 : outcome merge_state),
               grows acc [] σ1 σ2 ->
               (forall st', r2 = Ok st' -> fst (fst st') = merged) ->
               (σ2 = σ \/
                exists acc0, last merged = Some acc0 /\
                             grows acc0 (seq_refs σ seq) σ σ2) /\
               (forall st', r2 = Ok st' ->
                  exists acc0,
                    last merged = Some acc0 /\
                    is_Some (sequences σ !! seq) /\
                    le_limit (count σ seq) lim = true /\
                    ((le_limit (count σ acc0 + count σ seq) lim = false /\
                      fst (fst st') = merged ++ [seq] /\ σ2 = σ) \/
                     (le_limit (count σ acc0 + count σ seq) lim = true /\
                      fst (fst st') = merged /\
                      grows acc0 (seq_refs σ seq) σ σ2 /\
                      count σ2 acc0 = count σ acc0 + count σ seq)))).
    { intros σ2 r2 Hg2 Hst.
      assert (Hg02 : grows acc (seq_refs σ seq) σ σ2).
      { rewrite Hrq. apply grows_mono with ((segments q).*2 ++ []).
        - by rewrite app_nil_r.
        - by apply grows_trans with σ1. }
      split; [right; eauto|].
      intros st' ->. exists acc. split; [done|]. split; [by eexists|].
      split; [by rewrite Hcq|]. right.
      split; [by rewrite Hca, Hcq|]. split; [by apply Hst|].
      split; [done|].
      rewrite (grows_nil_count _ _ _ Hg2), Hc, Hcq. lia. }
    run_read H n' En'; [|apply Hstage; [apply grows_refl | intros ? [=]]].
    run_read H qa1 Hqa1; [|apply Hstage; [apply grows_refl | intros ? [=]]].
    run_read H qs Hqs; [|apply Hstage; [apply grows_refl | intros ? [=]]].
    bind_cases H u σ2 Eput.
    2:{ inversion Eput. }
    unfold put_sequence in Eput. injection Eput as _ <-.
    assert (Hg12 : grows acc [] σ1
                     (with_sequences σ1
                        (<[acc := set_name qa1
                                    (name qa1 +:+ "+" +:+ name qs)]>
                           (sequences σ1))))
      by (by eapply grows_put).
    bind_cases H u' σ3 Epat.
    + injection H as <- <-.
      apply Hstage; [|by intros ? [= <-]].
      destruct mrp.
      * run_read Epat qs' Hqs'; [|done].
        apply merge_patterns_grows in Epat.
        apply (grows_trans _ [] [] _ _ _ Hg12 Epat).
      * unfold ret in Epat. by injection Epat as _ <-.
    + apply Hstage; [|intros ? [=]].
      destruct mrp; [|inversion Epat].
      run_read Epat qs' Hqs'; [|done].
      apply merge_patterns_grows in Epat.
      apply (grows_trans _ [] [] _ _ _ Hg12 Epat).
  - (* start a new accumulator *)
    run_read H q' Hq'; [|split; [by left | intros ? [=]]].
    rewrite Hq in Hq'. injection Hq' as <-.
    injection H as <- <-. split; [by left|].
    intros st' [= <-]. exists acc. split; [done|]. split; [by eexists|].
    split; [by rewrite Hcq|]. left. by rewrite Hca, Hcq.
Qed.
End MergeStep.

(** ** The loop over [sequences[1:]] *)

Section MergeLoop.
Import Sequence Spec.

Lemma preserves_refl σ : preserves σ σ.
Proof. by repeat split. Qed.

Lemma copies_apart_refl σ : copies_apart σ σ.
Proof.
  split; [apply preserves_refl|]. intros l q s Hn Hs. congruence.
Qed.

Lemma grows_copies_apart σ0 acc refs σ σ' :
  copies_apart σ0 σ ->
  sequences σ0 !! acc = None ->
  (forall s, s ∈ refs -> segs σ0 !! s = None) ->
  grows acc refs σ σ' ->
  copies_apart σ0 σ'.
Proof.
  intros [(Hps & Hpg & Hpl) Hnew] Hacc Hrefs (Hl & Hs & Hg & Ha).
  split; [split; [|split]|].
  - apply map_subseteq_spec. intros l x Hx.
    rewrite Hs; [by eapply lookup_weaken|]. intros ->. congruence.
  - apply map_subseteq_spec. intros l x Hx.
    rewrite Hg; [by eapply lookup_weaken|].
    intros Hin. apply Hrefs in Hin. congruence.
  - by rewrite Hl.
  - intros l q s Hn Hq Hin.
    destruct (decide (l = acc)) as [->|Hne].
    + destruct (sequences σ !! acc) as [q0|] eqn:Hq0; [|congruence].
      destruct Ha as (q' & ext & Hq' & Hseg & Hsub).
      rewrite Hq in Hq'. injection Hq' as <-.
      rewrite Hseg, fmap_app in Hin.
      apply elem_of_app in Hin as [Hin|Hin].
      * by eapply Hnew.
      * by apply Hrefs, Hsub.
    + rewrite Hs in Hq by done. by eapply Hnew.
Qed.

Lemma last_snoc_app {A} (l : list A) x : last (l ++ [x]) = Some x.
Proof. apply last_snoc. Qed.

(** Whatever the outcome, the loop writes only objects made since [σ0]. *)
Lemma merge_loop_copies_apart σ0 lim mrp rest :
  forall st σ r σ',
    copies_apart σ0 σ ->
    Forall (fun l => sequences σ0 !! l = None) (fst (fst st) ++ rest) ->
    for_each rest (merge_step lim mrp) st σ = (r, σ') ->
    copies_apart σ0 σ' /\
    (forall st', r = Ok st' ->
       Forall (fun l => sequences σ0 !! l = None) (fst (fst st'))).
Proof.
  induction rest as [|seq rest IH]; intros [[merged occs] c] σ r σ';
    simpl; intros Hinv Hfresh H.
  - injection H as <- <-. split; [done|]. intros ? [= <-]. simpl.
    by rewrite app_nil_r in Hfresh.
  - apply Forall_app in Hfresh as [Hfm Hfr].
    apply Forall_cons in Hfr as [Hfs Hfr].
    assert (Hstep : forall r1 σ1,
               merge_step lim mrp seq (merged, occs, c) σ = (r1, σ1) ->
               copies_apart σ0 σ1).
    { intros r1 σ1 E. apply merge_step_spec in E as [[->|Hg] _]; [done|].
      destruct Hg as (acc & Hlast & Hg).
      eapply grows_copies_apart; [done| | |done].
      - apply last_Some_elem_of in Hlast.
        by apply (proj1 (Forall_forall _ _) Hfm).
      - intros s Hin. unfold seq_refs in Hin.
        destruct (sequences σ !! seq) as [q|] eqn:Hq;
          [|by apply elem_of_nil in Hin].
        destruct Hinv as [_ Hnew]. by eapply Hnew. }
    bind_cases H st1 σ1 E.
    + pose proof (Hstep _ _ E) as Hinv1.
      apply merge_step_spec in E as [_ Hok].
      destruct (Hok _ eq_refl)
        as (acc & Hlast & _ & _ & [(_ & Hm & _)|(_ & Hm & _)]).
      * eapply IH; [done| |done]. rewrite Hm.
        apply Forall_app. split; [|done].
        apply Forall_app. split; [done|]. by apply Forall_singleton.
      * eapply IH; [done| |done]. rewrite Hm.
        apply Forall_app. by split.
    + split; [by eapply Hstep|intros ? [=]].
Qed.

(** The segment counts of the merged sequences follow the greedy
    grouping of the counts of the incoming ones. *)
Lemma merge_loop_counts lim mrp rest :
  forall init acc occs c σ st' σ',
    NoDup (init ++ acc :: rest) ->
    for_each rest (merge_step lim mrp) (init ++ [acc], occs, c) σ
    = (Ok st', σ') ->
    count σ' <$> fst (fst st') =
    (count σ <$> init) ++ greedy lim (count σ acc) (count σ <$> rest) /\
    Forall (fun s => le_limit (count σ s) lim = true) rest /\
    lists σ' = lists σ.
Proof.
  induction rest as [|seq rest IH]; intros init acc occs c σ st' σ';
    simpl; intros Hnd H.
  - injection H as <- <-. simpl. by rewrite fmap_app.
  - bind_cases H st1 σ1 E; [|done].
    apply merge_step_spec in E as [_ Hok].
    destruct (Hok _ eq_refl) as (acc' & Hlast & _ & Hlim & Hcase).
    rewrite last_snoc in Hlast. injection Hlast as <-.
    destruct st1 as [[m1 o1] c1]. simpl in Hcase.
    destruct Hcase as [(Hsum & -> & ->)|(Hsum & -> & Hg & Hc)].
    + rewrite Hsum.
      assert (Hnd' : NoDup ((init ++ [acc]) ++ seq :: rest))
        by (by rewrite <- app_assoc).
      destruct (IH _ _ _ _ _ _ _ Hnd' H) as (Heq & Hall & Hl).
      rewrite Heq, fmap_app, <- app_assoc. simpl.
      split; [done|]. split; [|done]. by apply Forall_cons.
    + rewrite Hsum.
      assert (Hnd' : NoDup (init ++ acc :: rest)).
      { apply NoDup_app in Hnd as (Hi & Hd & Hr).
        apply NoDup_cons in Hr as [Ha Hr].
        apply NoDup_cons in Hr as [Hs Hr].
        apply NoDup_app. split; [done|]. split.
        - intros x Hx Hin. apply (Hd x Hx).
          apply elem_of_cons in Hin as [->|Hin]; [left|].
          right. by right.
        - apply NoDup_cons. split; [|done].
          intros Hin. apply Ha. by right. }
      destruct (IH _ _ _ _ _ _ _ Hnd' H) as (Heq & Hall & Hl).
      assert (Hother : forall x, x ∈ init ++ rest ->
                                 count σ1 x = count σ x).
      { intros x Hx. eapply grows_count_other; [done|].
        intros ->. apply NoDup_app in Hnd' as (_ & Hd & Hr).
        apply elem_of_app in Hx as [Hx|Hx].
        - apply (Hd _ Hx). left.
        - apply NoDup_cons in Hr as [Ha _]. done. }
      assert (Hmap : forall l, l ⊆ init ++ rest ->
                               count σ1 <$> l = count σ <$> l).
      { intros l Hl'. apply list_fmap_ext.
        intros i x Hix. apply Hother, Hl'.
        by eapply list_elem_of_lookup_2. }
      rewrite Heq, Hc.
      rewrite (Hmap init), (Hmap rest).
      2:{ intros x Hx. apply elem_of_app. by right. }
      2:{ intros x Hx. apply elem_of_app. by left. }
      split; [done|]. split.
      * apply Forall_cons. split; [done|].
        apply Forall_forall. intros x Hx.
        rewrite <- Hother by (apply elem_of_app; by right).
        by apply (proj1 (Forall_forall _ _) Hall).
      * destruct Hg as (Hl1 & _). congruence.
Qed.
End MergeLoop.

(** ** Deep copies *)

Section DeepCopy.
Import Sequence Spec.

Lemma dict_get_values {K V} `{EqDecision K} (d : list (K * V)) k v :
  PyDict.get k d = Some v -> v ∈ d.*2.
Proof.
  induction d as [|[k' v'] d IH]; simpl; [done|].
  destruct (decide (k = k')).
  - intros [= ->]. left.
  - intros Hg. right. by apply IH.
Qed.

Lemma dict_values_set {K V} `{EqDecision K} (P : V -> Prop)
    (d : list (K * V)) k v :
  Forall P d.*2 -> P v -> Forall P (PyDict.set k v d).*2.
Proof.
  intros Hd Hv. induction d as [|[k' v'] d IH]; simpl.
  - by apply Forall_singleton.
  - apply Forall_cons in Hd as [Hv' Hd].
    destruct (decide (k = k')); simpl; apply Forall_cons; auto.
Qed.

Lemma fresh_lookup_None {V} (m : gmap loc V) : m !! fresh (dom m) = None.
Proof. apply not_elem_of_dom, is_fresh. Qed.

Lemma subseteq_lookup_None {V} (m0 m : gmap loc V) l :
  m0 ⊆ m -> m !! l = None -> m0 !! l = None.
Proof.
  intros Hsub Hn. destruct (m0 !! l) eqn:E; [|done].
  eapply lookup_weaken in E; [|done]. congruence.
Qed.

Lemma deepcopy_segment_spec σ0 s memo σ r σ1 :
  segs σ0 ⊆ segs σ ->
  Forall (fun v => segs σ0 !! v = None) memo.*2 ->
  deepcopy_segment s memo σ = (r, σ1) ->
  sequences σ1 = sequences σ /\ lists σ1 = lists σ /\
  segs σ ⊆ segs σ1 /\
  (forall cm, r = Ok cm ->
     segs σ0 !! fst cm = None /\
     Forall (fun v => segs σ0 !! v = None) (snd cm).*2).
Proof.
  intros Hsub Hmemo. unfold deepcopy_segment.
  destruct (PyDict.get s memo) as [c|] eqn:Hget.
  - intros [= <- <-]. split_and!; try done.
    intros cm [= <-]. simpl. split; [|done].
    apply dict_get_values in Hget.
    by apply (proj1 (Forall_forall _ _) Hmemo).
  - intros H. run_read H g Hg; [|split_and!; try done; intros ? [=]].
    unfold bind, new_segment, ret in H. injection H as <- <-. simpl.
    pose proof (fresh_lookup_None (segs σ)) as Hfresh.
    split_and!; try done.
    + by apply insert_subseteq.
    + intros cm [= <-]. simpl.
      assert (segs σ0 !! fresh (dom (segs σ)) = None)
        by (by eapply subseteq_lookup_None).
      split; [done|]. by apply dict_values_set.
Qed.

Lemma deepcopy_loop_spec σ0 items :
  forall (st : list (string * loc) * list (loc * loc)) σ r σ1,
    segs σ0 ⊆ segs σ ->
    Forall (fun v => segs σ0 !! v = None) (fst st).*2 ->
    Forall (fun v => segs σ0 !! v = None) (snd st).*2 ->
    for_each items
      (fun item st =>
         cm <- deepcopy_segment (snd item) (snd st) ;;
         ret (fst st ++ [(fst item, fst cm)], snd cm))
      st σ = (r, σ1) ->
    sequences σ1 = sequences σ /\ lists σ1 = lists σ /\
    segs σ ⊆ segs σ1 /\
    (forall st', r = Ok st' ->
       Forall (fun v => segs σ0 !! v = None) (fst st').*2 /\
       length (fst st') = length (fst st) + length items).
Proof.
  induction items as [|[k s] items IH]; intros st σ r σ1 Hsub Hacc Hmemo;
    simpl.
  - intros [= <- <-]. split_and!; try done.
    intros ? [= <-]. split; [done|lia].
  - intros H. bind_cases H st1 σa E.
    + bind_cases E cm σb Ecm; [|done].
      unfold ret in E. injection E as <- <-.
      destruct (deepcopy_segment_spec _ _ _ _ _ _ Hsub Hmemo Ecm)
        as (Hs & Hl & Hg & Hok).
      destruct (Hok _ eq_refl) as [Hc Hm].
      apply IH in H as (Hs' & Hl' & Hg' & Hok'); simpl.
      * split; [congruence|]. split; [congruence|].
        split; [by etrans|].
        intros st' Hst'. destruct (Hok' _ Hst') as [HF Hlen].
        split; [done|]. rewrite Hlen. simpl. rewrite length_app. simpl. lia.
      * by etrans.
      * rewrite fmap_app. apply Forall_app. split; [done|].
        by apply Forall_singleton.
      * done.
    + bind_cases E cm σb Ecm; [done|].
      destruct (deepcopy_segment_spec _ _ _ _ _ _ Hsub Hmemo Ecm)
        as (Hs & Hl & Hg & _).
      split_and!; try done; try (intros ? [=]).
Qed.

Lemma deepcopy_spec σ0 s σ r σ1 :
  copies_apart σ0 σ ->
  deepcopy s σ = (r, σ1) ->
  copies_apart σ0 σ1 /\
  sequences σ ⊆ sequences σ1 /\ lists σ1 = lists σ /\
  (forall c, r = Ok c ->
     sequences σ !! c = None /\
     exists q q',
       sequences σ !! s = Some q /\ sequences σ1 !! c = Some q' /\
       length (segments q') = length (segments q)).
Proof.
  intros [(Hps & Hpg & Hpl) Hnew] H. unfold deepcopy in H.
  run_read H q Hq.
  2:{ split; [by split|]. split_and!; try done; try (intros ? [=]). }
  bind_cases H st σa Eloop.
  - apply (deepcopy_loop_spec σ0) in Eloop
      as (Hs & Hl & Hg & Hok); simpl; try done.
    destruct (Hok _ eq_refl) as [HF Hlen]. simpl in Hlen.
    unfold new_sequence in H. injection H as <- <-. simpl.
    pose proof (fresh_lookup_None (sequences σa)) as Hfresh.
    set (c := fresh (dom (sequences σa))) in *.
    assert (Hcσ : sequences σ !! c = None) by (by rewrite <- Hs).
    split; [split; [split; [|split]|]|]; simpl.
    + etrans; [done|]. rewrite <- Hs. by apply insert_subseteq.
    + by etrans.
    + by rewrite Hl.
    + intros l q0 s0 Hn Hq0 Hin.
      destruct (decide (l = c)) as [->|Hne].
      * rewrite lookup_insert_eq in Hq0. injection Hq0 as <-.
        simpl in Hin. by apply (proj1 (Forall_forall _ _) HF).
      * rewrite lookup_insert_ne in Hq0 by done.
        rewrite Hs in Hq0. by eapply Hnew.
    + split; [rewrite <- Hs; by apply insert_subseteq|].
      split; [done|].
      intros c' [= <-]. split; [done|].
      eexists q, _. rewrite lookup_insert_eq.
      split; [done|]. split; [done|]. simpl. lia.
  - apply (deepcopy_loop_spec σ0) in Eloop
      as (Hs & Hl & Hg & _); simpl; try done.
    split; [split; [split; [|split]|]|]; simpl.
    + by rewrite Hs.
    + by etrans.
    + by rewrite Hl.
    + intros l q0 s0 Hn Hq0 Hin. rewrite Hs in Hq0. by eapply Hnew.
    + rewrite Hs. split_and!; try done; try (intros ? [=]).
Qed.

Lemma count_weaken σ σ1 l :
  sequences σ ⊆ sequences σ1 -> is_Some (sequences σ !! l) ->
  count σ1 l = count σ l.
Proof.
  intros Hsub [q Hq]. unfold count.
  by rewrite (lookup_weaken _ _ _ _ Hq Hsub), Hq.
Qed.

(** [[deepcopy(s) for s in sequences]] *)
Lemma deepcopies_spec σ0 seqs :
  forall σ r σ1,
    copies_apart σ0 σ ->
    map_m deepcopy seqs σ = (r, σ1) ->
    copies_apart σ0 σ1 /\
    sequences σ ⊆ sequences σ1 /\ lists σ1 = lists σ /\
    (forall copies, r = Ok copies ->
       NoDup copies /\
       Forall (fun c => sequences σ !! c = None) copies /\
       Forall (fun c => is_Some (sequences σ1 !! c)) copies /\
       (Forall (fun s => is_Some (sequences σ !! s)) seqs ->
        count σ1 <$> copies = count σ <$> seqs)).
Proof.
  induction seqs as [|s seqs IH]; intros σ r σ1 Hinv; simpl.
  - intros [= <- <-]. split_and!; try done.
    intros ? [= <-]. split_and!; try done. constructor.
  - intros H. bind_cases H c σa Ec.
    + destruct (deepcopy_spec _ _ _ _ _ Hinv Ec) as (Hinva & Hsa & Hla & Hc).
      destruct (Hc _ eq_refl) as (Hcn & q & q' & Hq & Hq' & Hlen).
      bind_cases H cs σb Ecs.
      * destruct (IH _ _ _ Hinva Ecs) as (Hinvb & Hsb & Hlb & Hcs).
        destruct (Hcs _ eq_refl) as (Hnd & Hfresh & Hlive & Hcount).
        unfold ret in H. injection H as <- <-.
        split; [done|]. split; [by etrans|]. split; [congruence|].
        intros copies [= <-].
        split.
        { apply NoDup_cons. split; [|done]. intros Hin.
          apply (proj1 (Forall_forall _ _) Hfresh) in Hin. congruence. }
        split.
        { apply Forall_cons. split; [done|].
          eapply Forall_impl; [exact Hfresh|]. simpl. intros x Hx.
          by apply (subseteq_lookup_None _ _ _ Hsa). }
        split.
        { apply Forall_cons. split; [|done].
          exists q'. by eapply lookup_weaken. }
        intros Hvalid. apply Forall_cons in Hvalid as [Hvs Hvalid].
        rewrite !fmap_cons. f_equal.
        -- unfold count at 1.
           rewrite (lookup_weaken _ _ _ _ Hq' Hsb).
           unfold count. by rewrite Hq.
        -- rewrite Hcount.
           ++ apply list_fmap_ext. intros i x Hix.
              apply count_weaken; [done|].
              apply (proj1 (Forall_forall _ _) Hvalid).
              by eapply list_elem_of_lookup_2.
           ++ eapply Forall_impl; [exact Hvalid|]. simpl.
              intros x [qx Hqx]. exists qx. by eapply lookup_weaken.
      * destruct (IH _ _ _ Hinva Ecs) as (Hinvb & Hsb & Hlb & _).
        split; [done|]. split; [by etrans|]. split; [congruence|].
        intros ? [=].
    + destruct (deepcopy_spec _ _ _ _ _ Hinv Ec) as (Hinva & Hsa & Hla & _).
      split_and!; try done; try (intros ? [=]).
Qed.
End DeepCopy.

(** ** [Sequence.merge] as a whole *)

Section Merge.
Import Sequence Spec.

Lemma copies_apart_new_list σ0 σ ls :
  copies_apart σ0 σ ->
  copies_apart σ0
    (with_lists σ (<[fresh (dom (lists σ)) := ls]> (lists σ))).
Proof.
  intros [(Hps & Hpg & Hpl) Hnew]. split; [split_and!|]; simpl; try done.
  etrans; [done|]. apply insert_subseteq, fresh_lookup_None.
Qed.

(** Whatever [merge] returns or raises, it leaves every object of the
    initial store as it was. *)
Lemma merge_copies_apart sequences lim mrp σ r σ' :
  merge sequences lim mrp σ = (r, σ') -> copies_apart σ σ'.
Proof.
  unfold merge. intros H.
  run_read H seqs Hseqs; [|apply copies_apart_refl].
  destruct seqs as [|s0 [|s1 rest]].
  - injection H as <- <-. apply copies_apart_refl.
  - injection H as <- <-. apply copies_apart_refl.
  - bind_cases H copies σ1 Ecopies.
    2:{ by apply (deepcopies_spec σ) in Ecopies
          as [? _]; [|apply copies_apart_refl]. }
    apply (deepcopies_spec σ) in Ecopies
      as (Hinv1 & _ & _ & Hok); [|apply copies_apart_refl].
    destruct (Hok _ eq_refl) as (_ & Hfresh & _).
    destruct copies as [|first others].
    { by injection H as <- <-. }
    run_read H n0 Hn0; [|done].
    run_read H q0 Hq0; [|done].
    bind_cases H st σ2 Eloop.
    + eapply merge_loop_copies_apart in Eloop as [Hinv2 _]; [|done|done].
      unfold new_list in H. injection H as <- <-.
      by apply copies_apart_new_list.
    + by eapply merge_loop_copies_apart in Eloop as [Hinv2 _].
Qed.

Lemma greedy_within lim cs :
  forall cur,
    le_limit cur lim = true ->
    Forall (fun c => le_limit c lim = true) cs ->
    Forall (fun n => le_limit n lim = true) (greedy lim cur cs).
Proof.
  induction cs as [|c cs IH]; intros cur Hcur Hcs; simpl.
  - by apply Forall_singleton.
  - apply Forall_cons in Hcs as [Hc Hcs].
    destruct (le_limit (cur + c) lim) eqn:Hsum.
    + by apply IH.
    + apply Forall_cons. split; [done|]. by apply IH.
Qed.

Lemma greedy_sum lim cs :
  forall cur, sum_list (greedy lim cur cs) = cur + sum_list cs.
Proof.
  induction cs as [|c cs IH]; intros cur; simpl; [lia|].
  destruct (le_limit (cur + c) lim); simpl; rewrite IH; lia.
Qed.

(** The list returned for two or more sequences: a new list of new
    Sequence objects, whose segment counts are the greedy grouping of the
    counts of the inputs. *)
Lemma merge_result sequences s0 s1 rest lim mrp σ r σ' :
  lists σ !! sequences = Some (s0 :: s1 :: rest) ->
  Forall (fun s => is_Some (Sequence.sequences σ !! s)) (s0 :: s1 :: rest) ->
  merge sequences lim mrp σ = (Ok r, σ') ->
  lists σ !! r = None /\
  exists ms,
    lists σ' !! r = Some ms /\
    Forall (fun m => Sequence.sequences σ !! m = None) ms /\
    count σ' <$> ms =
    greedy lim (count σ s0) (count σ <$> (s1 :: rest)) /\
    Forall (fun s => le_limit (count σ s) lim = true) (s1 :: rest).
Proof.
  intros Hseqs Hvalid H. unfold merge in H.
  rewrite (bind_ok _ _ _ _ _ (get_list_some _ _ _ Hseqs)) in H.
  bind_cases H copies σ1 Ecopies; [|done].
  apply (deepcopies_spec σ) in Ecopies
    as (Hinv1 & Hs1 & Hl1 & Hok); [|apply copies_apart_refl].
  destruct (Hok _ eq_refl) as (Hnd & Hfresh & _ & Hcount).
  specialize (Hcount Hvalid).
  destruct copies as [|first others]; [done|].
  rewrite !fmap_cons in Hcount. injection Hcount as Hc0 Hc1.
  run_read H n0 Hn0; [|done].
  run_read H q0 Hq0; [|done].
  bind_cases H st σ2 Eloop; [|done].
  pose proof Eloop as Eloop'.
  apply (merge_loop_counts _ _ _ []) in Eloop as (Hcounts & Hall & Hl2);
    [|done].
  eapply merge_loop_copies_apart in Eloop' as [_ Hnew]; [|done|done].
  specialize (Hnew _ eq_refl).
  unfold new_list in H. injection H as <- <-.
  pose proof (fresh_lookup_None (lists σ2)) as Hr.
  split; [by rewrite <- Hl1, <- Hl2|].
  exists (fst (fst st)).
  split; [apply lookup_insert_eq|]. split; [done|].
  assert (Hrest : count σ1 <$> others = count σ <$> (s1 :: rest))
    by (by rewrite fmap_cons, Hc1).
  split.
  - rewrite <- Hc0, <- Hrest. exact Hcounts.
  - apply Forall_forall. intros s Hs.
    apply list_elem_of_lookup in Hs as [i Hi].
    assert (Hlen : length others = length (s1 :: rest)).
    { rewrite <- (length_fmap (count σ1)), Hrest. by rewrite length_fmap. }
    destruct (others !! i) as [c|] eqn:Hci.
    2:{ apply lookup_ge_None in Hci. apply lookup_lt_Some in Hi. lia. }
    assert (Heq : count σ1 c = count σ s).
    { assert (Hx : (count σ1 <$> others) !! i
                  = (count σ <$> (s1 :: rest)) !! i) by (by rewrite Hrest).
      rewrite !list_lookup_fmap, Hci, Hi in Hx. by injection Hx. }
    rewrite <- Heq.
    apply (proj1 (Forall_forall _ _) Hall).
    by eapply list_elem_of_lookup_2.
Qed.
End Merge.

(** ** Claims on [Sequence.add] and [Sequence.merge] *)

(** Decide, by evaluation, that every listed reference is in the store. *)
Ltac all_in_store :=
  repeat (apply Forall_cons; split;
          [eexists; vm_compute; reflexivity|]);
  apply Forall_nil; exact I.

(** Decide, by evaluation, that every listed Sequence is in the store with
    the given number of segments. *)
Ltac all_uniform :=
  repeat (apply Forall_cons; split;
          [eexists; split; vm_compute; reflexivity|]);
  apply Forall_nil; exact I.

Section MergeClaims.
Import Sequence Spec.

Lemma add_atomic_or_appends_witness :
  add 0 1 (Examples.uniform 2 1) = (Raise NameError, Examples.uniform 2 1).
Proof.
  apply (proj1 (add_atomic_or_appends (Examples.uniform 2 1) 0 1
                  (mk "seq0" 0 [("seg0", 0)] [] [])
                  (Examples.segment "seg0") eq_refl eq_refl)).
  vm_compute. left.
Defined.

(** C3, as amended: when the first Sequence of a non-empty list has at
    most [segment_limit] segments and [merge] returns, every returned
    Sequence has at most [segment_limit] segments; the segment counts of
    the returned Sequences are the greedy grouping of the input counts
    taken in input order (a sequence joins the current accumulator while
    the combined count stays within the limit, else starts a new one). *)
Theorem merge_within_limit_greedy σ sequences s0 rest lim mrp r σ' :
  lists σ !! sequences = Some (s0 :: rest) ->
  Forall (fun s => is_Some (Sequence.sequences σ !! s)) (s0 :: rest) ->
  le_limit (count σ s0) lim = true ->
  merge sequences lim mrp σ = (Ok r, σ') ->
  exists ms,
    lists σ' !! r = Some ms /\
    Forall (fun m => le_limit (count σ' m) lim = true) ms /\
    count σ' <$> ms = greedy lim (count σ s0) (count σ <$> rest).
Proof.
  intros Hseqs Hvalid Hfirst H.
  destruct rest as [|s1 rest].
  - unfold merge in H.
    rewrite (bind_ok _ _ _ _ _ (get_list_some _ _ _ Hseqs)) in H.
    injection H as <- <-. exists [s0]. split; [done|].
    split; [by apply Forall_singleton|done].
  - destruct (merge_result _ _ _ _ _ _ _ _ _ Hseqs Hvalid H)
      as (_ & ms & Hms & _ & Hcounts & Hall).
    exists ms. split; [done|]. split; [|done].
    assert (Hg : Forall (fun n => le_limit n lim = true)
                        (count σ' <$> ms)).
    { rewrite Hcounts. apply greedy_within; [done|].
      by apply Forall_fmap. }
    by apply Forall_fmap in Hg.
Qed.

Lemma merge_within_limit_greedy_witness :
  exists r σ' ms,
    merge 0 (Some 2) true (Examples.uniform 3 1) = (Ok r, σ') /\
    lists σ' !! r = Some ms /\
    Forall (fun m => le_limit (count σ' m) (Some 2) = true) ms /\
    count σ' <$> ms = [2; 1].
Proof.
  destruct (merge 0 (Some 2) true (Examples.uniform 3 1)) as [r σ'] eqn:E.
  assert (Hr : r = Ok 1) by (by vm_compute in E; injection E as <- _).
  subst r. exists 1, σ'.
  destruct (merge_within_limit_greedy (Examples.uniform 3 1) 0 0 [1; 2]
              (Some 2) true 1 σ' eq_refl)
    as (ms & Hms & Hall & Hcounts).
  - all_in_store.
  - reflexivity.
  - exact E.
  - exists ms. split; [reflexivity|]. split; [exact Hms|].
    split; [exact Hall|]. rewrite Hcounts. vm_compute. reflexivity.
Defined.

(** A single Sequence with two segments comes back from a merge with
    limit one: the as-stated limit property fails. *)
Lemma merge_single_over_limit : ~ merge_respects_limit_as_stated.
Proof.
  intros Hclaim.
  specialize (Hclaim (Examples.uniform 1 2) 0 [0] (Some 1) true 0
                (Examples.uniform 1 2) [0] eq_refl).
  assert (Hf : Forall (fun m => le_limit (count (Examples.uniform 1 2) m)
                                  (Some 1) = true) [0])
    by (apply Hclaim; [done | vm_compute; reflexivity
                       | vm_compute; reflexivity]).
  rewrite Forall_singleton in Hf. by vm_compute in Hf.
Qed.
End MergeClaims.

Section RenameClaims.
Import Sequence Spec.

Lemma occurrences_lookup (ss : list (string * loc)) k :
  k ∈ PyDict.keys ss -> occurrences ss !! k = Some 1.
Proof.
  unfold occurrences. induction ss as [|[k' v] ss IH]; simpl.
  - intros Hin. by apply elem_of_nil in Hin.
  - intros Hin. destruct (decide (k' = k)) as [->|Hne].
    + by rewrite lookup_insert_eq.
    + rewrite lookup_insert_ne by done. apply IH.
      apply elem_of_cons in Hin as [->|Hin]; done.
Qed.

(** C4, as amended: when the name of an incoming Segment collides with a
    name in the accumulator, the occurrence table holds the count [c] for
    its key, and the new name is itself unused, the Segment is renamed
    [<name>_copy_from_merge_<c>] and appended without an exception, and
    the count becomes [c + 1]; the table starts at 1 for every name of the
    first sequence, so the first collision gives the suffix
    [_copy_from_merge_1]: merging two Sequences that each hold a Segment
    [seg0] yields one Sequence with the segments [seg0] and
    [seg0_copy_from_merge_1]. *)
Theorem merge_collision_renames :
  (forall σ acc seg_name segment occ q g c,
      sequences σ !! acc = Some q ->
      segs σ !! segment = Some g ->
      Segment.name g ∈ PyDict.keys (segments q) ->
      occ !! seg_name = Some c ->
      seg_name +:+ "_copy_from_merge_" +:+ pretty c
        ∉ PyDict.keys (segments q) ->
      let new_name := seg_name +:+ "_copy_from_merge_" +:+ pretty c in
      merge_segment acc (seg_name, segment) occ σ =
      (Ok (<[seg_name := c + 1]> occ),
       Heap
         (<[acc := set_segments q (segments q ++ [(new_name, segment)])]>
            (sequences σ))
         (<[segment := Segment.set_name g new_name]> (segs σ))
         (lists σ))) /\
  (forall (ss : list (string * loc)) k,
      k ∈ PyDict.keys ss -> occurrences ss !! k = Some 1) /\
  (exists r σ' m q s0 s1 g1,
      merge 0 None true (Examples.uniform 2 1) = (Ok r, σ') /\
      lists σ' !! r = Some [m] /\
      sequences σ' !! m = Some q /\
      segments q = [("seg0", s0); ("seg0_copy_from_merge_1", s1)] /\
      segs σ' !! s1 = Some g1 /\
      Segment.name g1 = "seg0_copy_from_merge_1").
Proof.
  split; [|split].
  - intros σ acc seg_name segment occ q g c Hq Hg Hin Hocc Hnew new_name.
    pose proof (merge_segment_cases acc seg_name segment occ σ) as Hc.
    rewrite Hq, Hg, Hocc in Hc. cbv zeta in Hc.
    destruct (decide (Segment.name g ∈ PyDict.keys (segments q)));
      [|done].
    destruct (decide (seg_name +:+ "_copy_from_merge_" +:+ pretty c
                        ∈ PyDict.keys (segments q))); [done|].
    exact Hc.
  - apply occurrences_lookup.
  - destruct (merge 0 None true (Examples.uniform 2 1)) as [r σ'] eqn:E.
    vm_compute in E. injection E as <- <-.
    eexists _, _, 2, _, _, _, _.
    split; [reflexivity|]. split; [vm_compute; reflexivity|].
    split; [vm_compute; reflexivity|]. split; [reflexivity|].
    split; [vm_compute; reflexivity|]. reflexivity.
Qed.

Lemma merge_collision_renames_witness :
  merge_segment 0 ("seg0", 1) (occurrences [("seg0", 0)])
    (Examples.uniform 2 1)
  = (Ok (<[ "seg0" := 2 ]> (occurrences [("seg0", 0)])),
     Heap
       (<[0 := set_segments (mk "seq0" 0 [("seg0", 0)] [] [])
                 ([("seg0", 0)] ++ [("seg0_copy_from_merge_1", 1)])]>
          (sequences (Examples.uniform 2 1)))
       (<[1 := Segment.set_name (Examples.segment "seg0")
                 "seg0_copy_from_merge_1"]>
          (segs (Examples.uniform 2 1)))
       (lists (Examples.uniform 2 1))).
Proof.
  apply (proj1 merge_collision_renames (Examples.uniform 2 1) 0 "seg0" 1
           (occurrences [("seg0", 0)])
           (mk "seq0" 0 [("seg0", 0)] [] [])
           (Examples.segment "seg0") 1).
  - reflexivity.
  - reflexivity.
  - vm_compute. left.
  - reflexivity.
  - vm_compute. intros Hin.
    apply list_elem_of_singleton in Hin. discriminate Hin.
Defined.

(** The first collision yields the suffix [_copy_from_merge_1], not
    [_copy_from_merge_0]. *)
Lemma merge_first_copy_is_not_0 : ~ rename_example_as_stated.
Proof.
  intros (r & σ' & m & q & E & Hl & Hq & Hk).
  vm_compute in E. injection E as <- <-.
  vm_compute in Hl. injection Hl as <-.
  vm_compute in Hq. injection Hq as <-.
  vm_compute in Hk. discriminate Hk.
Qed.

(** A name brought in by a later sequence is not in the occurrence table:
    a second collision on it raises [KeyError]. *)
Lemma merge_untracked_name_raises :
  fst (merge 0 None true Examples.abb) = Raise KeyError.
Proof. vm_compute. reflexivity. Qed.
End RenameClaims.

Section FrameClaims.
Import Sequence Spec.

(** C6: whatever [merge] returns or raises, every Sequence object,
    Segment object and list of the store it started from is still there
    with the same contents (segments mapping, names, repeat patterns):
    [merge] writes only to the copies it made. *)
Theorem merge_leaves_originals_unchanged σ sequences lim mrp :
  preserves σ (snd (merge sequences lim mrp σ)).
Proof.
  destruct (merge sequences lim mrp σ) as [r σ'] eqn:E. simpl.
  by apply merge_copies_apart in E as [Hp _].
Qed.

(** C10: for a list holding exactly one Sequence, [merge] returns the
    very list it was given and leaves the store as it is (no copy, no
    renaming, no repeat-pattern merging); for a list of two or more it
    returns a new list, all of whose Sequence objects are new. *)
Theorem merge_single_returns_argument σ sequences lim mrp :
  (forall s,
      lists σ !! sequences = Some [s] ->
      merge sequences lim mrp σ = (Ok sequences, σ)) /\
  (forall s0 s1 rest r σ',
      lists σ !! sequences = Some (s0 :: s1 :: rest) ->
      Forall (fun s => is_Some (Sequence.sequences σ !! s))
        (s0 :: s1 :: rest) ->
      merge sequences lim mrp σ = (Ok r, σ') ->
      r <> sequences /\
      exists ms,
        lists σ' !! r = Some ms /\
        Forall (fun m => Sequence.sequences σ !! m = None /\
                         m ∉ s0 :: s1 :: rest) ms).
Proof.
  split.
  - intros s Hs. unfold merge.
    by rewrite (bind_ok _ _ _ _ _ (get_list_some _ _ _ Hs)).
  - intros s0 s1 rest r σ' Hseqs Hvalid H.
    destruct (merge_result _ _ _ _ _ _ _ _ _ Hseqs Hvalid H)
      as (Hr & ms & Hms & Hnew & _).
    split; [intros ->; congruence|].
    exists ms. split; [done|].
    eapply Forall_impl; [exact Hnew|]. simpl. intros m Hm.
    split; [done|]. intros Hin.
    apply (proj1 (Forall_forall _ _) Hvalid) in Hin as [q Hq]. congruence.
Qed.

Lemma merge_single_returns_argument_witness :
  merge 0 (Some 1) true (Examples.uniform 1 2)
  = (Ok 0, Examples.uniform 1 2) /\
  exists ms σ',
    merge 0 None true (Examples.uniform 2 1) = (Ok 1, σ') /\
    lists σ' !! 1 = Some ms /\
    Forall (fun m => sequences (Examples.uniform 2 1) !! m = None /\
                     m ∉ [0; 1]) ms.
Proof.
  split.
  - apply (proj1 (merge_single_returns_argument (Examples.uniform 1 2) 0
                    (Some 1) true) 0).
    reflexivity.
  - destruct (merge 0 None true (Examples.uniform 2 1)) as [r σ'] eqn:E.
    assert (Hr : r = Ok 1) by (by vm_compute in E; injection E as <- _).
    subst r.
    destruct (proj2 (merge_single_returns_argument (Examples.uniform 2 1) 0
                       None true) 0 1 [] 1 σ' eq_refl)
      as (_ & ms & Hms & Hall).
    + all_in_store.
    + exact E.
    + exists ms, σ'. split; [reflexivity|]. split; [exact Hms|exact Hall].
Defined.

End FrameClaims.

(** ** The compression factor of [compress_2D_sweep] *)

Section Compression.
Import Sequence Spec.

Lemma factors_spec n d : d ∈ factors n <-> (1 <= d <= n /\ Nat.divide d n).
Proof.
  unfold factors. rewrite list_elem_of_filter, elem_of_seq.
  rewrite Nat.Lcm0.mod_divide. split; intros [? ?]; split; try done; lia.
Qed.

Lemma divide_factors n d : 1 <= n -> Nat.divide d n -> d ∈ factors n.
Proof.
  intros Hn Hd. apply factors_spec. split; [|done].
  destruct (decide (d = 0)) as [->|Hd0].
  - apply Nat.divide_0_l in Hd. lia.
  - split; [lia|]. apply Nat.divide_pos_le; [lia|done].
Qed.

Lemma compression_fact_elem n d :
  d ∈ reverse (np_sort (factors n)) <-> d ∈ factors n.
Proof.
  unfold np_sort. by rewrite reverse_Permutation, merge_sort_Permutation.
Qed.

Lemma compression_fact_sorted n :
  StronglySorted (flip Nat.le) (reverse (np_sort (factors n))).
Proof.
  apply Sorted_StronglySorted; [apply _|].
  apply Sorted_reverse. unfold np_sort. apply Sorted_merge_sort. apply _.
Qed.

(** The loop stops at the first factor within the limit, which is the
    largest such factor of a descending list. *)
Lemma compression_loop_first all n_seg lim fs :
  forall prev,
    StronglySorted (flip Nat.le) fs ->
    (exists d, d ∈ fs /\ le_limit (d * n_seg) lim = true) ->
    exists f,
      f ∈ fs /\ le_limit (f * n_seg) lim = true /\
      (forall d, d ∈ fs -> le_limit (d * n_seg) lim = true -> d <= f) /\
      compression_loop fs all n_seg lim prev =
      (if decide (f = 1)
       then match compression_warning all n_seg with
            | Ok _ => Ok (Some f)
            | Raise e => Raise e
            end
       else Ok (Some f)).
Proof.
  induction fs as [|f0 fs IH]; intros prev Hsorted [d [Hd Hfeas]].
  - by apply elem_of_nil in Hd.
  - apply StronglySorted_inv in Hsorted as [Hsorted Hle].
    simpl. destruct (le_limit (f0 * n_seg) lim) eqn:Hf0; simpl.
    + exists f0. split; [left|]. split; [done|]. split; [|done].
      intros d' Hd' _. apply elem_of_cons in Hd' as [->|Hd']; [done|].
      by apply (proj1 (Forall_forall _ _) Hle).
    + apply elem_of_cons in Hd as [->|Hd]; [congruence|].
      destruct (IH (Some f0) Hsorted (ex_intro _ d (conj Hd Hfeas)))
        as (f & Hf & Hff & Hmax & Heq).
      exists f. split; [by right|]. split; [done|]. split; [|done].
      intros d' Hd' Hfd'. apply elem_of_cons in Hd' as [->|Hd'].
      * congruence.
      * by apply Hmax.
Qed.

Lemma map_m_n_segments σ seqs n :
  Forall (fun s => exists q, sequences σ !! s = Some q /\
                             length (segments q) = n) seqs ->
  map_m n_segments seqs σ = (Ok (repeat n (length seqs)), σ).
Proof.
  induction seqs as [|s seqs IH]; intros Hall; simpl; [done|].
  apply Forall_cons in Hall as [(q & Hq & Hn) Hall].
  rewrite (bind_ok _ _ _ _ _ (n_segments_some _ _ _ Hq)).
  rewrite (bind_ok _ _ _ _ _ (IH Hall)). unfold ret. by rewrite Hn.
Qed.

Lemma fmap_count_uniform σ seqs n :
  Forall (fun s => exists q, sequences σ !! s = Some q /\
                             length (segments q) = n) seqs ->
  count σ <$> seqs = repeat n (length seqs).
Proof.
  induction seqs as [|s seqs IH]; intros Hall; [done|].
  apply Forall_cons in Hall as [(q & Hq & Hn) Hall].
  rewrite fmap_cons, IH by done. unfold count. by rewrite Hq, Hn.
Qed.

Lemma uniform_valid σ seqs n :
  Forall (fun s => exists q, sequences σ !! s = Some q /\
                             length (segments q) = n) seqs ->
  Forall (fun s => is_Some (sequences σ !! s)) seqs.
Proof.
  intros Hall. eapply Forall_impl; [exact Hall|]. simpl.
  intros s (q & Hq & _). by exists q.
Qed.

Lemma bind_ret_l {A B} (a : A) (f : A -> M B) σ :
  bind (ret a) f σ = f a σ.
Proof. reflexivity. Qed.

Lemma bind_lift_ok {A B} (a : A) (f : A -> M B) σ :
  bind (lift (Ok a)) f σ = f a σ.
Proof. reflexivity. Qed.

Lemma item_head {A} (x : A) xs : item (x :: xs) 0 = ret x.
Proof. reflexivity. Qed.

Lemma np_unique_uniform n k : 1 <= k -> np_unique (repeat n k) = [n].
Proof.
  intros Hk. destruct k as [|k]; [lia|]. clear Hk.
  unfold np_unique.
  assert (Hr : remove_dups (repeat n (S k)) = [n]).
  { induction k as [|k IH]; [done|].
    change (remove_dups (repeat n (S (S k))))
      with (if decide_rel (∈) n (repeat n (S k))
            then remove_dups (repeat n (S k))
            else n :: remove_dups (repeat n (S k))).
    destruct (decide_rel (∈) n (repeat n (S k))) as [|Hn]; [exact IH|].
    exfalso. apply Hn. left. }
  by rewrite Hr.
Qed.

Lemma map_m_read {A B} (f : A -> M B) xs :
  (forall x σ r σ', f x σ = (r, σ') -> σ' = σ) ->
  forall σ r σ', map_m f xs σ = (r, σ') -> σ' = σ.
Proof.
  intros Hf. induction xs as [|x xs IH]; intros σ r σ'; simpl.
  - by intros [= <- <-].
  - intros H. bind_cases H y σ1 E.
    + apply Hf in E as ->. bind_cases H ys σ2 E'.
      * apply IH in E' as ->. by injection H as <- <-.
      * by apply IH in E'.
    + by apply Hf in E.
Qed.

Lemma n_acq_elements_read l σ r σ' :
  n_acq_elements l σ = (r, σ') -> σ' = σ.
Proof.
  unfold n_acq_elements. intros H. run_read H q Hq; [|done].
  bind_cases H ns σ1 E.
  - apply map_m_read in E as ->; [by injection H as <- <-|].
    intros x σ0 r0 σ0' Hx. run_read Hx g Hg; [|done].
    by injection Hx as <- <-.
  - apply map_m_read in E; [done|].
    intros x σ0 r0 σ0' Hx. run_read Hx g Hg; [|done].
    by injection Hx as <- <-.
Qed.
End Compression.

Section CompressionClaims.
Import Sequence Spec.

(** C2, as amended: for a list of two or more Sequences that all have
    [n_seg] segments and a limit with [n_seg <= segment_limit],
    [compress_2D_sweep] takes as factor the largest divisor [f] of the
    number of sequences with [f * n_seg <= segment_limit] and then merges
    with the limit [f * n_seg]; for 12 sequences of 5 segments and limit
    20 the factor is 4, and whenever the merge raises no exception the
    result holds 3 sequences. *)
Theorem compress_picks_largest_feasible_divisor
    σ sequences seqs n_seg lim mrp :
  lists σ !! sequences = Some seqs ->
  2 <= length seqs ->
  Forall (fun s => exists q, Sequence.sequences σ !! s = Some q /\
                             length (segments q) = n_seg) seqs ->
  le_limit n_seg lim = true ->
  exists f,
    Nat.divide f (length seqs) /\
    le_limit (f * n_seg) lim = true /\
    (forall d, Nat.divide d (length seqs) ->
               le_limit (d * n_seg) lim = true -> d <= f) /\
    compress_2D_sweep sequences lim mrp σ =
    bind (merge sequences (Some (f * n_seg)) mrp) (sweep_indices f) σ /\
    (length seqs = 12 -> n_seg = 5 -> lim = Some 20 ->
     f = 4 /\
     forall r hard soft f' σ',
       compress_2D_sweep sequences lim mrp σ
       = (Ok (r, hard, soft, f'), σ') ->
       f' = 4 /\ soft = [0; 1; 2] /\
       exists ms, lists σ' !! r = Some ms /\ length ms = 3).
Proof.
  intros Hseqs Hlen Hall Hfirst.
  set (n := length seqs) in *.
  set (fs := reverse (np_sort (factors n))).
  assert (H1 : 1 ∈ fs).
  { apply compression_fact_elem, factors_spec.
    split; [lia|]. apply Nat.divide_1_l. }
  assert (Hn : n ∈ fs).
  { apply compression_fact_elem, factors_spec. split; [lia|done]. }
  destruct (compression_loop_first fs n_seg lim fs None
              (compression_fact_sorted n))
    as (f & Hf & Hfeas & Hmax & Hloop).
  { exists 1. split; [done|]. by rewrite Nat.mul_1_l. }
  assert (Hwarn : f = 1 -> compression_warning fs n_seg = Ok tt).
  { intros ->. unfold compression_warning.
    assert (Hlen2 : ~ length fs < 2).
    { destruct fs as [|a [|b l]]; simpl; try lia.
      - by apply elem_of_nil in H1.
      - apply list_elem_of_singleton in H1, Hn. lia. }
    rewrite (decide_False _ _ Hlen2).
    destruct (decide (n_seg = 0)) as [->|?]; [|done].
    exfalso. assert (n <= 1); [|lia].
    apply Hmax; [done|]. rewrite Nat.mul_0_r. by destruct lim. }
  assert (Hloop' : compression_loop fs fs n_seg lim None = Ok (Some f)).
  { rewrite Hloop. destruct (decide (f = 1)) as [E|]; [|done].
    by rewrite (Hwarn E). }
  exists f.
  assert (Hdiv : Nat.divide f n).
  { by apply compression_fact_elem, factors_spec in Hf as [_ ?]. }
  assert (Hbest : forall d, Nat.divide d n ->
                            le_limit (d * n_seg) lim = true -> d <= f).
  { intros d Hd Hdf. apply Hmax; [|done].
    apply compression_fact_elem, divide_factors; [lia|done]. }
  assert (Heq : compress_2D_sweep sequences lim mrp σ =
                bind (merge sequences (Some (f * n_seg)) mrp)
                  (sweep_indices f) σ).
  { unfold compress_2D_sweep.
    rewrite (bind_ok _ _ _ _ _ (get_list_some _ _ _ Hseqs)).
    rewrite (bind_ok _ _ _ _ _ (map_m_n_segments _ _ _ Hall)).
    fold n. rewrite np_unique_uniform by lia.
    change (negb (length [n_seg] =? 1)) with false. cbv iota.
    destruct seqs as [|s0 seqs']; [done|].
    apply Forall_cons in Hall as [(q0 & Hq0 & Hn0) _].
    rewrite item_head, bind_ret_l.
    rewrite (bind_ok _ _ _ _ _ (n_segments_some _ _ _ Hq0)), Hn0.
    fold fs. rewrite Hloop', bind_lift_ok. reflexivity. }
  split; [done|]. split; [done|]. split; [done|]. split; [done|].
  intros H12 -> ->.
  assert (Hf4 : f = 4).
  { assert (4 <= f).
    { apply Hbest; [|done]. rewrite H12. by exists 3. }
    simpl in Hfeas. apply Nat.leb_le in Hfeas. lia. }
  split; [done|]. subst f.
  intros r hard soft f' σ' Hrun. rewrite Heq in Hrun.
  bind_cases Hrun r0 σ1 Emerge; [|done].
  unfold sweep_indices in Hrun.
  run_read Hrun cs Hcs; [|done].
  bind_cases Hrun c0 σ2 Eitem; [|done].
  bind_cases Hrun n_acq σ3 Eacq; [|done].
  unfold ret in Hrun. injection Hrun as <- <- <- <- <-.
  assert (σ2 = σ1) as ->.
  { unfold item in Eitem. destruct (cs !! 0); by injection Eitem. }
  apply n_acq_elements_read in Eacq as ->.
  pose proof (fmap_count_uniform _ _ _ Hall) as Hcount.
  pose proof (uniform_valid _ _ _ Hall) as Hvalid.
  fold n in Hcount. rewrite H12 in Hcount.
  destruct seqs as [|s0 [|s1 rest]]; [done|done|].
  rewrite !fmap_cons in Hcount. simpl repeat in Hcount.
  injection Hcount as Hc0 Hc1 Hrest.
  destruct (merge_result _ _ _ _ _ _ _ _ _ Hseqs Hvalid Emerge)
    as (_ & ms & Hms & _ & Hcounts & _).
  rewrite Hms in Hcs. injection Hcs as <-.
  rewrite fmap_cons, Hc0, Hc1, Hrest in Hcounts.
  assert (Hl3 : length ms = 3).
  { rewrite <- (length_fmap (count σ1)), Hcounts. reflexivity. }
  split; [done|]. split; [by rewrite Hl3|]. by exists ms.
Qed.

Lemma compress_picks_largest_feasible_divisor_witness :
  exists r hard σ' ms,
    compress_2D_sweep 0 (Some 20) true (Examples.uniform 12 5)
    = (Ok (r, hard, [0; 1; 2], 4), σ') /\
    lists σ' !! r = Some ms /\ length ms = 3.
Proof.
  destruct (compress_picks_largest_feasible_divisor
              (Examples.uniform 12 5) 0 (seq 0 12) 5 (Some 20) true)
    as (f & _ & _ & _ & _ & Hex).
  - vm_compute. reflexivity.
  - vm_compute. lia.
  - all_uniform.
  - reflexivity.
  - destruct (Hex eq_refl eq_refl eq_refl) as [_ Hrun].
    destruct (compress_2D_sweep 0 (Some 20) true (Examples.uniform 12 5))
      as [[[[[r hard] soft] f']|e] σ'] eqn:E.
    + destruct (Hrun _ _ _ _ _ eq_refl) as (-> & -> & ms & Hms & Hlen).
      exists r, hard, σ', ms.
      split; [reflexivity|]. split; [exact Hms|exact Hlen].
    + vm_compute in E. discriminate E.
Defined.

(** Two sequences of five segments under a limit of three: the factor
    returned is 1 although 1 * 5 exceeds the limit. *)
Lemma compress_over_limit_factor : ~ compression_factor_as_stated.
Proof.
  intros Hclaim.
  destruct (compress_2D_sweep 0 (Some 3) true (Examples.uniform 2 5))
    as [[res|e] σ'] eqn:E; [|vm_compute in E; discriminate E].
  assert (Hres : snd res = 1) by (by vm_compute in E; injection E as <- _).
  destruct (Hclaim (Examples.uniform 2 5) 0 [0; 1] 5 (Some 3) true res σ')
    as (_ & Hfeas & _).
  - vm_compute. reflexivity.
  - discriminate.
  - all_uniform.
  - exact E.
  - rewrite Hres in Hfeas. vm_compute in Hfeas. discriminate Hfeas.
Qed.

(** A single sequence within the limit: building the warning message
    reads [compression_fact[-2]] and raises [IndexError]. *)
Lemma compress_single_sequence_raises :
  fst (compress_2D_sweep 0 (Some 20) true (Examples.uniform 1 5))
  = Raise IndexError.
Proof. vm_compute. reflexivity. Qed.
End CompressionClaims.

(** ** The waveform table of [generate_waveforms_sequences] *)

Section GenerateFacts.
Import Sequence Spec.
Context {cw wf : Type} `{EqDecision cw}.
Variables
  (resolve_segment gen_elements_on_awg : Segment.t -> Segment.t)
  (elements_on_awg : Segment.t -> list (string * list string))
  (get_element_codewords : Segment.t -> string -> string -> list cw)
  (get_element_channels : Segment.t -> string -> string -> list string)
  (calculate_hash : Segment.t -> string -> cw -> string -> Z)
  (seg_waveforms : Segment.t -> string -> string -> string -> cw -> wf)
  (pulsar_get : string -> string).

Lemma deduplicated_see (ws : @wf_state wf) seen h v :
  deduplicated ws seen ->
  deduplicated
    (if PyDict.mem h (fst ws) then ws
     else (PyDict.set h v (fst ws), snd ws ++ [h]))
    (seen ++ [h]).
Proof.
  destruct ws as [table calls]. intros (Hk & Hnd & Hseen). simpl in *.
  destruct (PyDict.mem h table) eqn:Hm.
  - apply dict_mem_true in Hm. rewrite Hk in Hm.
    split; [done|]. split; [done|]. simpl. intros x.
    rewrite elem_of_app, list_elem_of_singleton, <- Hseen.
    split; [tauto|]. intros [?| ->]; done.
  - apply dict_mem_false in Hm.
    split; [|split]; simpl.
    + rewrite dict_keys_set. rewrite decide_False by done. by rewrite Hk.
    + apply NoDup_app. split; [done|]. split.
      * intros x Hx Hx'. apply list_elem_of_singleton in Hx' as ->.
        apply Hm. by rewrite Hk.
      * apply NoDup_singleton.
    + intros x. rewrite !elem_of_app, Hseen. tauto.
Qed.

(** A loop whose body extends the hashes seen extends them by the
    hashes of all its iterations. *)
Lemma fold_deduplicated {A B}
    (step : B * @wf_state wf -> A -> B * @wf_state wf)
    (refs : A -> list Z) :
  (forall st x seen,
      deduplicated (snd st) seen ->
      deduplicated (snd (step st x)) (seen ++ refs x)) ->
  forall xs st seen,
    deduplicated (snd st) seen ->
    deduplicated (snd (fold_left step xs st)) (seen ++ (xs ≫= refs)).
Proof.
  intros Hstep xs. induction xs as [|x xs IH]; intros st seen Hd.
  - simpl. by rewrite app_nil_r.
  - rewrite bind_cons, app_assoc. simpl fold_left.
    apply IH. by apply Hstep.
Qed.

Lemma channel_step_deduplicated g awg elname c st ch seen :
  deduplicated (snd st) seen ->
  deduplicated
    (snd (channel_step calculate_hash seg_waveforms pulsar_get
            g awg elname c st ch))
    (seen ++ [calculate_hash g elname c ch]).
Proof.
  intros Hd. unfold channel_step. cbv zeta.
  pose proof (deduplicated_see (snd st) seen
                (calculate_hash g elname c ch)
                (seg_waveforms g awg elname ch c) Hd) as Hsee.
  destruct st as [d [table calls]]. simpl in *.
  destruct (PyDict.mem (calculate_hash g elname c ch) table);
    exact Hsee.
Qed.

Lemma generate_tables_deduplicated segments awgs :
  deduplicated
    (snd (generate_tables elements_on_awg get_element_codewords
            get_element_channels calculate_hash seg_waveforms pulsar_get
            segments awgs))
    (hash_references elements_on_awg get_element_codewords
       get_element_channels calculate_hash segments
       (match awgs with
        | None => default_awgs elements_on_awg segments
        | Some a => a
        end)).
Proof.
  unfold generate_tables, hash_references.
  apply (fold_deduplicated _ _) with (seen := []).
  2:{ split; [done|]. split; [constructor|done]. }
  intros st awg seen Hd. unfold awg_step. cbv zeta. simpl snd.
  apply (fold_deduplicated _ _); [|done].
  clear st seen Hd. intros st item seen Hd. unfold segment_step.
  apply (fold_deduplicated _ _); [|done].
  clear st seen Hd. intros st elname seen Hd. unfold element_step.
  cbv zeta. simpl snd.
  apply (fold_deduplicated _ _); [|done].
  clear st seen Hd. intros st c seen Hd. unfold codeword_step.
  cbv zeta. simpl snd.
  apply (fold_deduplicated _
           (fun ch => [calculate_hash (snd item) elname c ch])); [|done].
  clear st seen Hd. intros st ch seen Hd.
  by apply channel_step_deduplicated.
Qed.

Lemma deduplicated_size (ws : @wf_state wf) refs :
  deduplicated ws refs ->
  NoDup (PyDict.keys (fst ws)) /\
  length (fst ws) = length (remove_dups refs) /\
  (forall h, h ∈ PyDict.keys (fst ws) <-> h ∈ refs) /\
  snd ws = PyDict.keys (fst ws).
Proof.
  intros (Hk & Hnd & Hseen). rewrite Hk. split; [done|].
  split; [|by split].
  assert (Hp : snd ws ≡ₚ remove_dups refs).
  { apply NoDup_Permutation; [done|apply NoDup_remove_dups|].
    intros h. by rewrite elem_of_remove_dups. }
  rewrite <- (Permutation_length Hp), <- Hk.
  unfold PyDict.keys. by rewrite length_map.
Qed.

Lemma map_m_get_segment ls :
  forall σ gs σ',
    map_m get_segment ls σ = (Ok gs, σ') ->
    σ' = σ /\ Forall2 (fun l g => segs σ !! l = Some g) ls gs.
Proof.
  induction ls as [|l ls IH]; intros σ gs σ'; simpl.
  - intros [= <- <-]. split; [done|constructor].
  - intros H. run_read H g Hg; [|done].
    bind_cases H gs' σ1 E; [|done].
    apply IH in E as [-> Hall]. unfold ret in H. injection H as <- <-.
    split; [done|]. by constructor.
Qed.

(** C1: the waveform table returned by [generate_waveforms_sequences]
    holds each hash at most once, its size is the number of distinct
    hashes over all the references of the loops (one per awg, segment,
    element, codeword and channel), and [seg.waveforms] is called once
    per key of the table, for a hash that was not in the table yet,
    however many references share it. *)
Theorem waveform_table_deduplicated self awgs σ res σ' :
  generate_waveforms_sequences resolve_segment gen_elements_on_awg
    elements_on_awg get_element_codewords get_element_channels
    calculate_hash seg_waveforms pulsar_get self awgs σ = (Ok res, σ') ->
  exists q gs,
    sequences σ' !! self = Some q /\
    Forall2 (fun l g => segs σ' !! l = Some g)
      (PyDict.values (segments q)) gs /\
    let resolved := zip (PyDict.keys (segments q)) gs in
    let refs :=
      hash_references elements_on_awg get_element_codewords
        get_element_channels calculate_hash resolved
        (match awgs with
         | None => default_awgs elements_on_awg resolved
         | Some a => a
         end) in
    let calls :=
      snd (snd (generate_tables elements_on_awg get_element_codewords
                  get_element_channels calculate_hash seg_waveforms
                  pulsar_get resolved awgs)) in
    NoDup (PyDict.keys (fst res)) /\
    length (fst res) = length (remove_dups refs) /\
    (forall h, h ∈ PyDict.keys (fst res) <-> h ∈ refs) /\
    calls = PyDict.keys (fst res).
Proof.
  unfold generate_waveforms_sequences. intros H.
  run_read H q Hq; [|done].
  bind_cases H u σ1 Eresolve; [|done].
  bind_cases H gs σ2 Eget; [|done].
  apply map_m_get_segment in Eget as [-> Hgs].
  unfold ret in H. injection H as <- <-.
  assert (Hq1 : sequences σ1 !! self = Some q).
  { clear Hgs. revert u σ Hq Eresolve.
    generalize (PyDict.values (segments q)).
    intros ls. induction ls as [|l ls IH]; intros u σ Hq; simpl.
    - by intros [= <- <-].
    - intros E. bind_cases E u' σa Estep; [|done].
      run_read Estep g Hg; [|done].
      unfold put_segment in Estep. injection Estep as _ <-.
      destruct u'. by eapply IH in E. }
  exists q, gs. split; [done|]. split; [done|]. cbv zeta.
  apply (deduplicated_size _ _ (generate_tables_deduplicated _ awgs)).
Qed.
End GenerateFacts.

Section GenerateWitness.
Import Sequence Spec Examples.

Lemma waveform_table_deduplicated_witness :
  exists table programs σ',
    generate_waveforms_sequences (fun g => g) (fun g => g)
      one_awg one_codeword two_channels hash_of samples_of channel_id
      0 None (uniform 1 2) = (Ok (table, programs), σ') /\
    NoDup (PyDict.keys table) /\ length table = 2.
Proof.
  destruct (generate_waveforms_sequences (fun g => g) (fun g => g)
              one_awg one_codeword two_channels hash_of samples_of
              channel_id 0 None (uniform 1 2))
    as [[[table programs]|e] σ'] eqn:E.
  - destruct (waveform_table_deduplicated _ _ _ _ _ _ _ _ _ _ _ _ _ E)
      as (q & gs & _ & _ & Hnd & _).
    exists table, programs, σ'. split; [reflexivity|].
    split; [exact Hnd|].
    vm_compute in E. injection E as <- _ _. reflexivity.
  - vm_compute in E. discriminate E.
Defined.
End GenerateWitness.

(** ** numpy arrays *)

Section NumpyFacts.
Import Numpy.
Local Open Scope R_scope.

Lemma np_where_from_app i (l1 l2 : list bool) :
  np_where_from i (l1 ++ l2) =
  np_where_from i l1 ++ np_where_from (i + List.length l1)%nat l2.
Proof.
  revert i. induction l1 as [|c l1 IH]; intros i; simpl.
  - by rewrite Nat.add_0_r.
  - rewrite IH. replace (S i + List.length l1)%nat
      with (i + S (List.length l1))%nat by lia.
    by destruct c.
Qed.

Lemma np_where_from_true i (l : list bool) :
  Forall (fun c => c = true) l ->
  np_where_from i l = seq i (List.length l).
Proof.
  revert i. induction l as [|c l IH]; intros i Hall; simpl; [done|].
  apply Forall_cons in Hall as [-> Hall]. by rewrite IH.
Qed.

Lemma np_where_from_false i (l : list bool) :
  Forall (fun c => c = false) l -> np_where_from i l = [].
Proof.
  revert i. induction l as [|c l IH]; intros i Hall; simpl; [done|].
  apply Forall_cons in Hall as [-> Hall]. by rewrite IH.
Qed.

(** On a time axis split into the samples up to a bound and the samples
    beyond it, [np.where(tvals <= bound)[0]] lists the first ones. *)
Lemma np_where_le_split (b : R) (l1 l2 : list R) :
  Forall (fun x => x <= b) l1 ->
  Forall (fun x => b < x) l2 ->
  np_where (map (fun x => bool_decide (x <= b)) (l1 ++ l2))
  = seq 0 (List.length l1).
Proof.
  intros H1 H2. unfold np_where. rewrite map_app, np_where_from_app.
  rewrite np_where_from_true, np_where_from_false.
  - by rewrite app_nil_r, length_map.
  - apply Forall_forall. intros c Hc.
    apply list_elem_of_In, in_map_iff in Hc as (x & <- & Hx).
    apply list_elem_of_In in Hx.
    apply bool_decide_eq_false.
    apply (proj1 (Forall_forall _ _) H2) in Hx. lra.
  - apply Forall_forall. intros c Hc.
    apply list_elem_of_In, in_map_iff in Hc as (x & <- & Hx).
    apply list_elem_of_In in Hx.
    apply bool_decide_eq_true.
    by apply (proj1 (Forall_forall _ _) H1) in Hx.
Qed.

(** An ascending time axis splits at any bound. *)
Lemma sorted_split (b : R) (l : list R) :
  StronglySorted Rle l ->
  exists l1 l2,
    l = l1 ++ l2 /\
    Forall (fun x => x <= b) l1 /\ Forall (fun x => b < x) l2.
Proof.
  induction l as [|x l IH]; intros Hs.
  - exists [], []. by repeat split.
  - apply StronglySorted_inv in Hs as [Hs Hx].
    destruct (Rle_lt_dec x b) as [Hle|Hlt].
    + destruct (IH Hs) as (l1 & l2 & -> & H1 & H2).
      exists (x :: l1), l2. split; [done|]. split; [|done].
      by apply Forall_cons.
    + exists [], (x :: l). split; [done|]. split; [constructor|].
      apply Forall_cons. split; [done|].
      eapply Forall_impl; [exact Hx|]. simpl. intros y Hy. lra.
Qed.

Lemma last_seq_0 k : last (seq 0 (S k)) = Some k.
Proof. rewrite seq_S. simpl. apply last_snoc. Qed.

Lemma take_zeros k m : take k (zeros (k + m)) = zeros k.
Proof. unfold zeros. induction k as [|k IH]; simpl; [done|]. by rewrite IH. Qed.

Lemma drop_zeros k m : drop k (zeros (k + m)) = zeros m.
Proof. unfold zeros. induction k as [|k IH]; simpl; [by destruct m|done]. Qed.

Lemma length_zeros k : List.length (zeros k) = k.
Proof. apply repeat_length. Qed.

Lemma zip_zeros (v : list R) : zip_with Rplus (zeros (List.length v)) v = v.
Proof.
  unfold zeros. induction v as [|x v IH]; simpl; [done|].
  rewrite IH. f_equal. lra.
Qed.

(** [wf[0:k] += v] on a fresh [np.zeros(k + m)] array. *)
Lemma iadd_slice_zeros (v : list R) m :
  iadd_slice (zeros (List.length v + m)) 0 (List.length v) v
  = Some (v ++ zeros m).
Proof.
  unfold iadd_slice, slice. rewrite Nat.sub_0_r, !drop_0.
  rewrite take_zeros, length_zeros. cbv zeta.
  rewrite decide_True by done. simpl.
  by rewrite zip_zeros, drop_zeros.
Qed.
End NumpyFacts.

(** ** The IQ-modulated block pulse *)

Section IQFacts.
Import Numpy MW_IQmod_pulse PulseSpec.
Local Open Scope R_scope.

Lemma window_map (f : R -> R) (b : R) (l1 l2 : list R) :
  Forall (fun x => x <= b) l1 ->
  Forall (fun x => b < x) l2 ->
  map f l1 ++ zeros (List.length l2)
  = map (fun t => if decide (t <= b) then f t else 0) (l1 ++ l2).
Proof.
  intros H1 H2. rewrite map_app. f_equal.
  - apply map_ext_in. intros x Hx. apply list_elem_of_In in Hx.
    rewrite decide_True; [done|].
    by apply (proj1 (Forall_forall _ _) H1).
  - clear H1. unfold zeros. induction l2 as [|x l2 IH]; simpl; [done|].
    apply Forall_cons in H2 as [Hx H2].
    rewrite decide_False by lra. f_equal. by apply IH.
Qed.

Lemma chan_wf_sorted (self : t) (chan : string) (t0 : R) (rest : list R) :
  StronglySorted Rle (t0 :: rest) ->
  0 <= length self ->
  I_channel self <> Q_channel self ->
  (chan = I_channel self ->
   chan_wf self chan (t0 :: rest) = Some (block self cos t0 (t0 :: rest)))
  /\
  (chan = Q_channel self ->
   chan_wf self chan (t0 :: rest) = Some (block self sin t0 (t0 :: rest))).
Proof.
  intros Hs Hlen Hne.
  destruct (sorted_split (t0 + length self) (t0 :: rest) Hs)
    as (l1 & l2 & Heq & H1 & H2).
  destruct l1 as [|t0' l1'].
  { simpl in Heq. subst l2. apply Forall_cons in H2 as [Ht _]. lra. }
  injection Heq as <- Hrest.
  assert (Hidx0 : head (np_where
                          (map (fun x => bool_decide (x >= t0))
                             (t0 :: rest))) = Some 0%nat).
  { unfold np_where. simpl.
    rewrite bool_decide_eq_true_2 by lra. done. }
  assert (Hidx1 : last (np_where
                          (map (fun x => bool_decide
                                           (x <= t0 + length self))
                             (t0 :: rest)))
                  = Some (List.length l1')).
  { rewrite Hrest.
    change (t0 :: l1' ++ l2) with ((t0 :: l1') ++ l2).
    rewrite np_where_le_split by done. apply last_seq_0. }
  set (origin := if phaselock self then 0 else t0).
  assert (Hshift : (if negb (phaselock self)
                    then ts ← (t0 :: rest) !! 0%nat;
                         Some (map (fun x => x - ts) (t0 :: rest))
                    else Some (t0 :: rest))
                   = Some (map (fun x => x - origin) (t0 :: rest))).
  { unfold origin. destruct (phaselock self); cbn [negb]; [|done].
    f_equal. rewrite <- (map_id (t0 :: rest)) at 1.
    apply map_ext. intros; lra. }
  assert (Hwf : forall osc,
             iadd_slice (zeros (List.length (t0 :: rest))) 0
               (List.length l1' + 1)
               (map (fun x => amplitude self *
                              osc (2 * PI * (mod_frequency self * x
                                             + phase self / 360)))
                    (slice (map (fun x => x - origin) (t0 :: rest)) 0
                       (List.length l1' + 1)))
             = Some (block self osc t0 (t0 :: rest))).
  { intros osc. unfold slice. rewrite Nat.sub_0_r, drop_0.
    rewrite Hrest.
    change (t0 :: l1' ++ l2) with ((t0 :: l1') ++ l2).
    rewrite map_app, take_app_length'.
    2:{ rewrite length_map. simpl. lia. }
    rewrite length_app.
    replace (List.length l1' + 1)%nat
      with (List.length
              (map (fun x => amplitude self *
                             osc (2 * PI * (mod_frequency self * x
                                            + phase self / 360)))
                   (map (fun x => x - origin) (t0 :: l1'))))
      by (rewrite !length_map; simpl; lia).
    replace (List.length (t0 :: l1'))
      with (List.length
              (map (fun x => amplitude self *
                             osc (2 * PI * (mod_frequency self * x
                                            + phase self / 360)))
                   (map (fun x => x - origin) (t0 :: l1'))))
      by (by rewrite !length_map).
    rewrite iadd_slice_zeros. f_equal.
    rewrite map_map. unfold block. fold origin.
    by rewrite (window_map _ _ _ _ H1 H2). }
  split; intros ->; unfold chan_wf.
  - change ((t0 :: rest) !! 0%nat) with (Some t0) at 1.
    cbn [mbind option_bind].
    rewrite Hidx0. cbn [mbind option_bind].
    rewrite Hidx1. cbn [mbind option_bind].
    rewrite Hshift. cbn [mbind option_bind].
    rewrite decide_True by done. rewrite Hwf. cbn [mbind option_bind].
    by rewrite decide_False by done.
  - change ((t0 :: rest) !! 0%nat) with (Some t0) at 1.
    cbn [mbind option_bind].
    rewrite Hidx0. cbn [mbind option_bind].
    rewrite Hidx1. cbn [mbind option_bind].
    rewrite Hshift. cbn [mbind option_bind].
    rewrite decide_False by (intros E; by apply Hne).
    cbn [mbind option_bind].
    rewrite decide_True by done. rewrite Hwf. done.
Qed.

(** C7, as amended: over an ascending time axis that starts at [t0], for
    a pulse of non-negative length on two distinct channels, the I
    waveform is A*cos(2*pi*(f*(t - origin) + phase/360)) and the Q
    waveform A*sin(2*pi*(f*(t - origin) + phase/360)) for the samples with
    t <= t0 + length and zero after them, where origin is 0 with
    [phaselock] and t0 without; with amplitude 0.1, length 1e-6,
    frequency 1e6 and phase 0 the sample at t = 0 is 0.1 on I and 0 on
    Q. *)
Theorem iq_block_waveform (self : t) (t0 : R) (rest : list R) :
  StronglySorted Rle (t0 :: rest) ->
  0 <= length self ->
  I_channel self <> Q_channel self ->
  chan_wf self (I_channel self) (t0 :: rest)
  = Some (block self cos t0 (t0 :: rest)) /\
  chan_wf self (Q_channel self) (t0 :: rest)
  = Some (block self sin t0 (t0 :: rest)) /\
  (amplitude self = 1 / 10 -> length self = 1 / 1000000 ->
   mod_frequency self = 1000000 -> phase self = 0 -> t0 = 0 ->
   exists wi wq,
     chan_wf self (I_channel self) (t0 :: rest) = Some (1 / 10 :: wi) /\
     chan_wf self (Q_channel self) (t0 :: rest) = Some (0 :: wq)).
Proof.
  intros Hs Hlen Hne.
  destruct (chan_wf_sorted self (I_channel self) t0 rest Hs Hlen Hne)
    as [HI _].
  destruct (chan_wf_sorted self (Q_channel self) t0 rest Hs Hlen Hne)
    as [_ HQ].
  specialize (HI eq_refl). specialize (HQ eq_refl).
  split; [done|]. split; [done|].
  intros Ha Hl Hf Hp ->. rewrite HI, HQ. unfold block.
  eexists _, _. simpl map.
  rewrite !decide_True by lra.
  replace (2 * PI * (mod_frequency self
                     * (0 - (if phaselock self then 0 else 0))
                     + phase self / 360)) with 0
    by (rewrite Hp; destruct (phaselock self); lra).
  rewrite cos_0, sin_0, Ha.
  split; (apply f_equal; apply f_equal2; [lra | reflexivity]).
Qed.

Lemma iq_block_waveform_witness :
  exists wi wq,
    chan_wf default_pulse "I" [0; 1 / 2000000] = Some (1 / 10 :: wi) /\
    chan_wf default_pulse "Q" [0; 1 / 2000000] = Some (0 :: wq).
Proof.
  apply (proj2 (proj2 (iq_block_waveform default_pulse 0 [1 / 2000000]
                         ltac:(repeat constructor; simpl; lra)
                         ltac:(simpl; lra)
                         ltac:(discriminate)))).
  all: simpl; lra.
Defined.

(** Without phase lock the phase is counted from the first time value:
    at t = 1 the I sample is cos 0 = 1, not cos (pi / 2) = 0. *)
Lemma iq_unlocked_phase_is_local : ~ iq_formula_as_stated.
Proof.
  intros Hclaim.
  assert (Hs : StronglySorted Rle [1; 2])
    by (repeat constructor; simpl; lra).
  assert (Hl : 0 <= length unlocked_pulse) by (simpl; lra).
  assert (Hne : I_channel unlocked_pulse <> Q_channel unlocked_pulse)
    by discriminate.
  specialize (Hclaim unlocked_pulse 1 [2] Hs Hl Hne).
  destruct (chan_wf_sorted unlocked_pulse (I_channel unlocked_pulse)
              1 [2] Hs Hl Hne) as [HI _].
  rewrite (HI eq_refl) in Hclaim. unfold block in Hclaim.
  simpl in Hclaim. injection Hclaim as Hfirst _.
  rewrite !decide_True in Hfirst by lra.
  replace (2 * PI * (1 / 4 * (1 - 1) + 0 / 360)) with 0 in Hfirst by lra.
  replace (2 * PI * (1 / 4 * 1 + 0 / 360)) with (PI / 2) in Hfirst by lra.
  rewrite cos_0, cos_PI2 in Hfirst. lra.
Qed.
End IQFacts.

(** ** The SSB DRAG pulse *)

Section DragFacts.
Import Numpy SSB_DRAG_pulse PulseSpec.
Local Open Scope R_scope.

Lemma sub_offset_cons (x : R) (l : list R) :
  exists an,
    last (x :: l) = Some an /\
    sub_offset (x :: l)
    = Some (map (fun y => y - (x + an) / 2) (x :: l)).
Proof.
  destruct (last (x :: l)) as [an|] eqn:E.
  - exists an. split; [done|]. unfold sub_offset.
    change (head (x :: l)) with (Some x). cbn [mbind option_bind].
    by rewrite E.
  - by apply last_None in E.
Qed.

Lemma last_zeros n : last (zeros (S n)) = Some 0.
Proof.
  unfold zeros. induction n as [|n IH]; [done|].
  change (repeat 0 (S (S n))) with (0 :: repeat 0 (S n)).
  by rewrite last_cons, IH.
Qed.

Lemma sub_offset_zeros n : sub_offset (zeros (S n)) = Some (zeros (S n)).
Proof.
  unfold sub_offset. rewrite last_zeros.
  change (head (zeros (S n))) with (Some 0). cbn [mbind option_bind].
  f_equal. unfold zeros. rewrite <- (map_id (repeat 0 (S n))) at 2.
  apply map_ext_in. intros y Hy. apply repeat_spec in Hy. lra.
Qed.

(** With [motzoi = 0] the derivative envelope is zero at every sample,
    before and after its offset is subtracted. *)
Lemma deriv_gauss_env_zero (self : t) (tx : R) (ts : list R) :
  motzoi self = 0 ->
  deriv_gauss_env self (tx :: ts)
  = Some (zeros (List.length (tx :: ts))).
Proof.
  intros Hm. unfold deriv_gauss_env.
  assert (Hraw : deriv_gauss_env_raw self (tx :: ts)
                 = zeros (List.length (tx :: ts))).
  { unfold deriv_gauss_env_raw, zeros.
    assert (Hlen : List.length (gauss_env_raw self (tx :: ts))
                   = List.length (tx :: ts))
      by (unfold gauss_env_raw; by rewrite length_map).
    revert Hlen. generalize (gauss_env_raw self (tx :: ts)).
    generalize (tx :: ts). intros l.
    induction l as [|y l IH]; intros [|g gs] Hlen; simpl in *; try done.
    rewrite IH by lia. rewrite Hm. f_equal. unfold Rdiv. ring. }
  rewrite Hraw. apply sub_offset_zeros.
Qed.

Lemma broadcast2_same (f : R -> R -> R) (a b : list R) :
  List.length a = List.length b ->
  broadcast2 f a b = Some (zip_with f a b).
Proof. intros Hl. unfold broadcast2. by rewrite decide_True. Qed.

Lemma zip_with_const (f : R -> R -> R) (a : list R) (g : R -> R) c
    (b : list R) :
  List.length a = List.length b ->
  (forall x, g x = c) ->
  zip_with f a (map g b) = map (fun x => f x c) a.
Proof.
  revert b. induction a as [|x a IH]; intros [|y b] Hl Hg; simpl in *;
    try done.
  rewrite Hg. f_equal. apply IH; [lia|done].
Qed.

Lemma zip_with_zeros_l (b : list R) n :
  List.length b = n -> zip_with Rmult (zeros n) b = zeros n.
Proof.
  intros <-. unfold zeros. induction b as [|y b IH]; simpl; [done|].
  rewrite IH. f_equal. lra.
Qed.

Lemma zip_with_zeros_r (a : list R) n :
  List.length a = n -> zip_with Rplus a (zeros n) = a.
Proof.
  intros <-. unfold zeros. induction a as [|x a IH]; simpl; [done|].
  rewrite IH. f_equal. lra.
Qed.

(** With a zero Q envelope and no modulation frequency the I output of
    [apply_modulation] is the I envelope times a constant. *)
Lemma apply_modulation_unmodulated (self : t) (I_env tvals : list R) :
  mod_frequency self = 0 ->
  List.length I_env = List.length tvals ->
  exists Q_mod,
    apply_modulation self I_env (zeros (List.length tvals)) tvals
    = Some (map (fun e =>
                   e * (cos (2 * PI * (phase self / 360))
                        - tan (2 * PI * phi_skew self / 360)
                          * sin (2 * PI * (phase self / 360))))
                I_env,
            Q_mod).
Proof.
  intros Hf Hl. unfold apply_modulation. cbv zeta.
  assert (Hx : forall tv,
             2 * PI * (mod_frequency self * tv + phase self / 360)
             = 2 * PI * (phase self / 360))
    by (intros tv; rewrite Hf; lra).
  rewrite (broadcast2_same Rmult I_env) by (by rewrite length_map).
  cbn [mbind option_bind].
  rewrite (broadcast2_same Rmult (zeros _))
    by (by rewrite length_map, length_zeros).
  cbn [mbind option_bind].
  rewrite (zip_with_const Rmult I_env _
             (cos (2 * PI * (phase self / 360))
              - tan (2 * PI * phi_skew self / 360)
                * sin (2 * PI * (phase self / 360))) tvals Hl)
    by (intros tv; by rewrite Hx).
  rewrite zip_with_zeros_l by (by rewrite length_map).
  rewrite (broadcast2_same Rplus (map _ I_env) (zeros _))
    by (rewrite length_map, length_zeros; exact Hl).
  cbn [mbind option_bind].
  rewrite zip_with_zeros_r by (rewrite length_map; exact Hl).
  rewrite (broadcast2_same Rmult (map _ I_env) (map _ tvals))
    by (rewrite !length_map; exact Hl).
  cbn [mbind option_bind].
  rewrite (broadcast2_same Rmult (map _ (zeros _)) (map _ tvals))
    by (rewrite !length_map, length_zeros; reflexivity).
  cbn [mbind option_bind].
  rewrite broadcast2_same
    by (rewrite !length_zip_with, !length_map, length_zeros; lia).
  cbn [mbind option_bind]. eauto.
Qed.

Lemma np_where_ge_first (t0 : R) (rest : list R) :
  head (np_where (map (fun x => bool_decide (x >= t0)) (t0 :: rest)))
  = Some 0%nat.
Proof.
  unfold np_where. simpl. by rewrite bool_decide_eq_true_2 by lra.
Qed.

Lemma np_where_le_all (b x : R) (l : list R) :
  Forall (fun y => y <= b) (x :: l) ->
  last (np_where (map (fun y => bool_decide (y <= b)) (x :: l)))
  = Some (List.length l).
Proof.
  intros Hall. rewrite <- (app_nil_r (x :: l)).
  rewrite np_where_le_split by (done || constructor).
  apply last_seq_0.
Qed.

Lemma slice_all {A} (l : list A) n :
  List.length l = n -> slice l 0 n = l.
Proof.
  intros <-. unfold slice. rewrite Nat.sub_0_r, drop_0.
  by apply take_ge.
Qed.

Lemma iadd_slice_zeros_all (v : list R) n :
  List.length v = n -> iadd_slice (zeros n) 0 n v = Some v.
Proof.
  intros <-. pose proof (iadd_slice_zeros v 0) as H.
  rewrite Nat.add_0_r in H. rewrite H. unfold zeros. simpl.
  by rewrite app_nil_r.
Qed.

(** The I waveform of a DRAG pulse without [motzoi] and without
    modulation frequency, when every sample lies in the pulse window. *)
Lemma chan_wf_unmodulated (self : t) (t0 : R) (rest : list R) :
  motzoi self = 0 ->
  mod_frequency self = 0 ->
  I_channel self <> Q_channel self ->
  Forall (fun x => x <= t0 + length self) (t0 :: rest) ->
  exists gauss,
    gauss_env self (map (fun x => x - t0) (t0 :: rest)) = Some gauss /\
    chan_wf self (I_channel self) (t0 :: rest)
    = Some (map (fun e =>
                   e * (cos (2 * PI * (phase self / 360))
                        - tan (2 * PI * phi_skew self / 360)
                          * sin (2 * PI * (phase self / 360))))
                gauss).
Proof.
  intros Hm Hf Hne Hall.
  set (n := S (List.length rest)).
  set (origin := if phaselock self then 0 else t0).
  assert (Hshift : (if negb (phaselock self)
                    then ts ← (t0 :: rest) !! 0%nat;
                         Some (map (fun x => x - ts) (t0 :: rest))
                    else Some (t0 :: rest))
                   = Some (map (fun x => x - origin) (t0 :: rest))).
  { unfold origin. destruct (phaselock self); cbn [negb]; [|done].
    f_equal. rewrite <- (map_id (t0 :: rest)) at 1.
    apply map_ext. intros; lra. }
  change (map (fun x => x - t0) (t0 :: rest))
    with (t0 - t0 :: map (fun x => x - t0) rest).
  assert (Hgauss : exists gauss,
             gauss_env self (t0 - t0 :: map (fun x => x - t0) rest)
             = Some gauss /\ List.length gauss = n).
  { unfold gauss_env, gauss_env_raw.
    change (map ?f (t0 - t0 :: ?l)) with (f (t0 - t0) :: map f l).
    destruct (sub_offset_cons
                (amplitude self *
                 exp (- (0.5 * (t0 - t0 - length self / 2.0) ^ 2
                         / sigma self ^ 2)))
                (map (fun ti => amplitude self *
                                exp (- (0.5 * (ti - length self / 2.0) ^ 2
                                        / sigma self ^ 2)))
                     (map (fun x => x - t0) rest)))
      as (an & _ & ->).
    eexists. split; [done|]. unfold n. simpl.
    by rewrite !length_map. }
  destruct Hgauss as (gauss & Hg & Hlg).
  exists gauss. split; [done|].
  destruct (apply_modulation_unmodulated self gauss
              (map (fun x => x - origin) (t0 :: rest)) Hf)
    as (Q_mod & Hmod).
  { rewrite length_map. exact Hlg. }
  rewrite length_map in Hmod.
  change (List.length (t0 :: rest)) with n in Hmod.
  unfold chan_wf.
  change ((t0 :: rest) !! 0%nat) with (Some t0) at 1.
  cbn [mbind option_bind].
  rewrite np_where_ge_first. cbn [mbind option_bind].
  rewrite np_where_le_all by done. cbn [mbind option_bind].
  rewrite Hshift. cbn [mbind option_bind].
  change (map (fun x => x - t0) (t0 :: rest))
    with (t0 - t0 :: map (fun x => x - t0) rest).
  rewrite Hg. cbn [mbind option_bind].
  rewrite deriv_gauss_env_zero by done. cbn [mbind option_bind].
  replace (List.length (t0 - t0 :: map (fun x => x - t0) rest))
    with n by (unfold n; simpl; by rewrite length_map).
  replace (List.length rest + 1)%nat with n by (unfold n; lia).
  change (List.length (t0 :: rest)) with n.
  rewrite slice_all by (rewrite length_map; reflexivity).
  rewrite decide_True by done. rewrite Hmod. cbn [mbind option_bind fst].
  rewrite iadd_slice_zeros_all by (by rewrite length_map).
  cbn [mbind option_bind].
  by rewrite decide_False by done.
Qed.

End DragFacts.

(** * Further properties of [Sequence] *)

(** ** [Sequence.extend] *)

Section Extend.
Import Sequence.

Lemma extend_cons self x xs σ :
  extend self (x :: xs) σ = bind (add self x) (fun _ => extend self xs) σ.
Proof.
  unfold extend. simpl. unfold bind.
  by destruct (add self x σ) as [[[]|e] σ1].
Qed.

Lemma extend_app self xs ys σ :
  extend self (xs ++ ys) σ = bind (extend self xs) (fun _ => extend self ys) σ.
Proof.
  revert σ. induction xs as [|x xs IH]; intros σ.
  - reflexivity.
  - rewrite <- app_comm_cons, extend_cons. unfold bind.
    rewrite extend_cons. unfold bind.
    destruct (add self x σ) as [[[]|e] σ1]; [apply IH|reflexivity].
Qed.

(** The run of [extend] over segments with new, pairwise distinct names. *)
Lemma extend_fresh ss :
  forall gs σ self q,
    sequences σ !! self = Some q ->
    Forall2 (fun s g => segs σ !! s = Some g) ss gs ->
    NoDup (Segment.name <$> gs) ->
    Forall (fun g => Segment.name g ∉ PyDict.keys (segments q)) gs ->
    extend self ss σ =
    (Ok tt,
     with_sequences σ
       (<[self := set_segments q
                    (segments q ++ zip (Segment.name <$> gs) ss)]>
          (sequences σ))).
Proof.
  induction ss as [|s ss IH]; intros gs σ self q Hq Hss Hnd Hnew.
  - apply Forall2_nil_inv_l in Hss as ->. simpl.
    rewrite app_nil_r. unfold extend, with_sequences. simpl. unfold ret.
    f_equal. destruct σ as [sq sg ls]. simpl in *. f_equal.
    rewrite insert_id; [done|]. rewrite Hq. by destruct q.
  - apply Forall2_cons_inv_l in Hss as (g & gs' & Hg & Hss & ->).
    rewrite fmap_cons in Hnd. apply NoDup_cons in Hnd as [Hg_new Hnd].
    apply Forall_cons in Hnew as [Hgq Hnew].
    rewrite extend_cons.
    rewrite (bind_ok _ _ _ _ _ (add_fresh _ _ _ _ _ Hq Hg Hgq)).
    set (q1 := set_segments q (segments q ++ [(Segment.name g, s)])).
    rewrite (IH gs' _ self q1).
    + unfold with_sequences. simpl. rewrite insert_insert_eq.
      rewrite <- app_assoc. reflexivity.
    + simpl. apply lookup_insert_eq.
    + exact Hss.
    + exact Hnd.
    + apply Forall_forall. intros g' Hg'. simpl.
      unfold PyDict.keys. rewrite map_app. simpl.
      rewrite elem_of_app, list_elem_of_singleton.
      intros [Hin|Heq].
      * by apply (proj1 (Forall_forall _ _) Hnew g' Hg').
      * apply Hg_new. rewrite <- Heq. by apply list_elem_of_fmap_2.
Qed.

(** X1: [Sequence.extend] adds segments whose names are new and pairwise
    distinct one after the other: they end up behind the segments already
    there, in the order of the argument, and nothing else in the store
    changes. *)
Theorem extend_appends_in_order σ self q ss gs :
  sequences σ !! self = Some q ->
  Forall2 (fun s g => segs σ !! s = Some g) ss gs ->
  NoDup (Segment.name <$> gs) ->
  Forall (fun g => Segment.name g ∉ PyDict.keys (segments q)) gs ->
  exists σ',
    extend self ss σ = (Ok tt, σ') /\
    segs σ' = segs σ /\ lists σ' = lists σ /\
    (forall l, l <> self -> sequences σ' !! l = sequences σ !! l) /\
    sequences σ' !! self =
    Some (set_segments q (segments q ++ zip (Segment.name <$> gs) ss)).
Proof.
  intros Hq Hss Hnd Hnew. eexists.
  split; [by apply (extend_fresh ss gs)|]. simpl.
  split_and!; try done.
  - intros l Hl. by rewrite lookup_insert_ne.
  - by rewrite lookup_insert_eq.
Qed.

Lemma extend_appends_in_order_witness :
  exists σ',
    extend 0 [1] Examples.abb = (Ok tt, σ') /\
    sequences σ' !! 0 = Some (mk "A" 0 [("a", 0); ("b", 1)] [] []).
Proof.
  destruct (extend_appends_in_order Examples.abb 0
              (mk "A" 0 [("a", 0)] [] []) [1] [Examples.segment "b"])
    as (σ' & Hrun & _ & _ & _ & Hself).
  - reflexivity.
  - repeat constructor.
  - apply NoDup_singleton.
  - apply Forall_singleton. simpl. by intros ?%list_elem_of_singleton.
  - exists σ'. split; [exact Hrun|exact Hself].
Defined.

(** X2: [Sequence.extend] is not atomic: when a segment of the argument
    carries a name that is already taken, by the sequence or by a segment
    added earlier in the same call, [NameError] is raised and the segments
    that came before it in the argument stay added. *)
Theorem extend_keeps_prefix_on_duplicate σ self q ss gs s g rest :
  sequences σ !! self = Some q ->
  Forall2 (fun s g => segs σ !! s = Some g) ss gs ->
  NoDup (Segment.name <$> gs) ->
  Forall (fun g => Segment.name g ∉ PyDict.keys (segments q)) gs ->
  segs σ !! s = Some g ->
  Segment.name g ∈ PyDict.keys (segments q) ++ (Segment.name <$> gs) ->
  exists σ',
    extend self (ss ++ s :: rest) σ = (Raise NameError, σ') /\
    segs σ' = segs σ /\ lists σ' = lists σ /\
    (forall l, l <> self -> sequences σ' !! l = sequences σ !! l) /\
    sequences σ' !! self =
    Some (set_segments q (segments q ++ zip (Segment.name <$> gs) ss)).
Proof.
  intros Hq Hss Hnd Hnew Hg Hdup. eexists. split.
  - rewrite extend_app.
    rewrite (bind_ok _ _ _ _ _ (extend_fresh ss gs _ _ _ Hq Hss Hnd Hnew)).
    rewrite extend_cons. apply bind_raise. eapply add_collision.
    + simpl. apply lookup_insert_eq.
    + exact Hg.
    + simpl. unfold PyDict.keys. rewrite map_app.
      change (map fst ?l) with (l.*1). rewrite fst_zip; [exact Hdup|].
      rewrite length_fmap. apply Forall2_length in Hss. lia.
  - simpl. split_and!; try done.
    + intros l Hl. by rewrite lookup_insert_ne.
    + by rewrite lookup_insert_eq.
Qed.

Lemma extend_keeps_prefix_on_duplicate_witness :
  exists σ',
    extend 0 [1; 2] Examples.abb = (Raise NameError, σ') /\
    sequences σ' !! 0 = Some (mk "A" 0 [("a", 0); ("b", 1)] [] []).
Proof.
  destruct (extend_keeps_prefix_on_duplicate Examples.abb 0
              (mk "A" 0 [("a", 0)] [] []) [1] [Examples.segment "b"]
              2 (Examples.segment "b") [])
    as (σ' & Hrun & _ & _ & _ & Hself).
  - reflexivity.
  - repeat constructor.
  - apply NoDup_singleton.
  - apply Forall_singleton. simpl. by intros ?%list_elem_of_singleton.
  - reflexivity.
  - simpl. apply elem_of_cons. right. apply list_elem_of_singleton.
    reflexivity.
  - exists σ'. split; [exact Hrun|exact Hself].
Defined.
End Extend.

(** ** Segment counts through [Sequence.merge] *)

Section MergeCounts.
Import Sequence Spec.

Lemma greedy_unlimited cs :
  forall cur, greedy None cur cs = [cur + sum_list cs].
Proof.
  induction cs as [|c cs IH]; intros cur; simpl.
  - f_equal. lia.
  - rewrite IH. f_equal. lia.
Qed.

(** X3: Without a segment limit, [merge] of two or more Sequences returns a
    list with one new Sequence, which holds as many segments as all the
    inputs together. *)
Theorem merge_unlimited_gives_one_sequence
    σ sequences s0 s1 rest mrp r σ' :
  lists σ !! sequences = Some (s0 :: s1 :: rest) ->
  Forall (fun s => is_Some (Sequence.sequences σ !! s)) (s0 :: s1 :: rest) ->
  merge sequences None mrp σ = (Ok r, σ') ->
  exists m,
    lists σ' !! r = Some [m] /\
    Sequence.sequences σ !! m = None /\
    count σ' m = sum_list (count σ <$> (s0 :: s1 :: rest)).
Proof.
  intros Hseqs Hvalid H.
  destruct (merge_result _ _ _ _ _ _ _ _ _ Hseqs Hvalid H)
    as (_ & ms & Hms & Hnew & Hcounts & _).
  rewrite greedy_unlimited in Hcounts.
  destruct ms as [|m [|m' ms]]; try discriminate Hcounts.
  exists m. split; [exact Hms|].
  rewrite Forall_singleton in Hnew. split; [exact Hnew|].
  rewrite fmap_cons. simpl sum_list. by injection Hcounts.
Qed.

Lemma merge_unlimited_gives_one_sequence_witness :
  exists r σ' m,
    merge 0 None true (Examples.uniform 2 1) = (Ok r, σ') /\
    lists σ' !! r = Some [m] /\
    count σ' m = 2.
Proof.
  destruct (merge 0 None true (Examples.uniform 2 1)) as [r σ'] eqn:E.
  assert (Hr : r = Ok 1) by (by vm_compute in E; injection E as <- _).
  subst r.
  destruct (merge_unlimited_gives_one_sequence (Examples.uniform 2 1)
              0 0 1 [] true 1 σ' eq_refl)
    as (m & Hm & _ & Hcount).
  - all_in_store.
  - exact E.
  - exists 1, σ', m. split; [reflexivity|]. split; [exact Hm|].
    rewrite Hcount. vm_compute. reflexivity.
Defined.

(** X4: [merge] neither drops nor duplicates segments: whatever the limit,
    the Sequences it returns hold together as many segments as the
    Sequences it was given. *)
Theorem merge_conserves_segment_count σ sequences seqs lim mrp r σ' :
  lists σ !! sequences = Some seqs ->
  Forall (fun s => is_Some (Sequence.sequences σ !! s)) seqs ->
  merge sequences lim mrp σ = (Ok r, σ') ->
  exists ms,
    lists σ' !! r = Some ms /\
    sum_list (count σ' <$> ms) = sum_list (count σ <$> seqs).
Proof.
  intros Hseqs Hvalid H.
  destruct seqs as [|s0 [|s1 rest]].
  - unfold merge in H.
    rewrite (bind_ok _ _ _ _ _ (get_list_some _ _ _ Hseqs)) in H.
    discriminate H.
  - unfold merge in H.
    rewrite (bind_ok _ _ _ _ _ (get_list_some _ _ _ Hseqs)) in H.
    injection H as <- <-. by exists [s0].
  - destruct (merge_result _ _ _ _ _ _ _ _ _ Hseqs Hvalid H)
      as (_ & ms & Hms & _ & Hcounts & _).
    exists ms. split; [exact Hms|].
    rewrite Hcounts, greedy_sum, (fmap_cons _ s0). reflexivity.
Qed.

Lemma merge_conserves_segment_count_witness :
  exists r σ' ms,
    merge 0 (Some 2) true (Examples.uniform 3 1) = (Ok r, σ') /\
    lists σ' !! r = Some ms /\
    sum_list (count σ' <$> ms) = 3.
Proof.
  destruct (merge 0 (Some 2) true (Examples.uniform 3 1)) as [r σ'] eqn:E.
  assert (Hr : r = Ok 1) by (by vm_compute in E; injection E as <- _).
  subst r.
  destruct (merge_conserves_segment_count (Examples.uniform 3 1)
              0 [0; 1; 2] (Some 2) true 1 σ' eq_refl)
    as (ms & Hms & Hsum).
  - all_in_store.
  - exact E.
  - exists 1, σ', ms. split; [reflexivity|]. split; [exact Hms|].
    rewrite Hsum. vm_compute. reflexivity.
Defined.

(** X5: The assertion of [merge] on the sequences after the first: when one
    of them has more segments than the limit, [merge] returns nothing but
    raises, and every object of the initial store is left as it was. *)
Theorem merge_raises_on_oversized_sequence
    σ sequences s0 s1 rest lim mrp s :
  lists σ !! sequences = Some (s0 :: s1 :: rest) ->
  Forall (fun s => is_Some (Sequence.sequences σ !! s)) (s0 :: s1 :: rest) ->
  s ∈ s1 :: rest ->
  le_limit (count σ s) lim = false ->
  exists e σ',
    merge sequences lim mrp σ = (Raise e, σ') /\ preserves σ σ'.
Proof.
  intros Hseqs Hvalid Hs Hover.
  destruct (merge sequences lim mrp σ) as [[r|e] σ'] eqn:H.
  - destruct (merge_result _ _ _ _ _ _ _ _ _ Hseqs Hvalid H)
      as (_ & ms & _ & _ & _ & Hall).
    apply (proj1 (Forall_forall _ _) Hall) in Hs. congruence.
  - exists e, σ'. split; [reflexivity|].
    by apply merge_copies_apart in H as [? _].
Qed.

Lemma merge_raises_on_oversized_sequence_witness :
  exists e σ',
    merge 0 (Some 1) true (Examples.uniform 2 2) = (Raise e, σ') /\
    preserves (Examples.uniform 2 2) σ'.
Proof.
  apply (merge_raises_on_oversized_sequence (Examples.uniform 2 2)
           0 0 1 [] (Some 1) true 1 eq_refl).
  - all_in_store.
  - left.
  - vm_compute. reflexivity.
Defined.
End MergeCounts.

(** ** What [compress_2D_sweep] accepts and returns *)

Section CompressionShape.
Import Sequence Spec.

Lemma greedy_uniform f c :
  1 <= f -> 1 <= c ->
  forall m j k,
    1 <= j <= f -> m = k * f + (f - j) ->
    greedy (Some (f * c)) (j * c) (repeat c m) = repeat (f * c) (S k).
Proof.
  intros Hf Hc. induction m as [|m IH]; intros j k Hj Hm.
  - assert (k = 0) by nia. assert (j = f) by nia. by subst.
  - cbn [repeat greedy le_limit].
    destruct (decide (j = f)) as [->|Hne].
    + assert (Hk : 1 <= k) by nia.
      rewrite (proj2 (Nat.leb_gt _ _)) by nia.
      specialize (IH 1 (k - 1)). rewrite Nat.mul_1_l in IH.
      rewrite IH; [|lia|nia].
      replace (S (k - 1)) with k by lia.
      destruct k as [|k]; [lia|]. reflexivity.
    + rewrite (proj2 (Nat.leb_le _ _)) by nia.
      replace (j * c + c) with (S j * c) by lia.
      apply IH; [lia|nia].
Qed.

Lemma greedy_empty_segments m : greedy (Some 0) 0 (repeat 0 m) = [0].
Proof. induction m as [|m IH]; [done|]. exact IH. Qed.

Lemma Forall_repeat_eq {A} (x : A) n : Forall (fun y => y = x) (repeat x n).
Proof. induction n; simpl; by constructor. Qed.

(** The factor [compress_2D_sweep] settles on and the merge it then runs,
    for two or more Sequences of [n_seg] segments each within the limit. *)
Lemma compress_2D_sweep_factor σ sequences seqs n_seg lim mrp :
  lists σ !! sequences = Some seqs ->
  2 <= length seqs ->
  Forall (fun s => exists q, Sequence.sequences σ !! s = Some q /\
                             length (segments q) = n_seg) seqs ->
  le_limit n_seg lim = true ->
  exists f,
    Nat.divide f (length seqs) /\
    le_limit (f * n_seg) lim = true /\
    (forall d, Nat.divide d (length seqs) ->
               le_limit (d * n_seg) lim = true -> d <= f) /\
    compress_2D_sweep sequences lim mrp σ =
    bind (merge sequences (Some (f * n_seg)) mrp) (sweep_indices f) σ.
Proof.
  intros Hseqs Hlen Hall Hfirst.
  pose (fs := reverse (np_sort (factors (length seqs)))).
  assert (Hone : 1 ∈ fs).
  { apply compression_fact_elem, divide_factors; [lia|].
    apply Nat.divide_1_l. }
  assert (Hwhole : length seqs ∈ fs).
  { apply compression_fact_elem, divide_factors; [lia|done]. }
  destruct (compression_loop_first fs n_seg lim fs None
              (compression_fact_sorted (length seqs)))
    as (f & Hf & Hfeas & Hmax & Hloop).
  { exists 1. by rewrite Nat.mul_1_l. }
  exists f.
  split; [by apply compression_fact_elem, factors_spec in Hf as [_ ?]|].
  split; [exact Hfeas|].
  split.
  { intros d Hd Hdf. apply Hmax; [|exact Hdf].
    apply compression_fact_elem, divide_factors; [lia|exact Hd]. }
  assert (Hbound : compression_loop fs fs n_seg lim None = Ok (Some f)).
  { rewrite Hloop. destruct (decide (f = 1)) as [->|]; [|done].
    unfold compression_warning.
    rewrite decide_False.
    - rewrite decide_False; [done|]. intros ->.
      assert (length seqs <= 1); [|lia].
      apply Hmax; [exact Hwhole|]. rewrite Nat.mul_0_r. by destruct lim.
    - destruct fs as [|a [|b l]]; simpl; try lia.
      + by apply elem_of_nil in Hone.
      + apply list_elem_of_singleton in Hone, Hwhole. lia. }
  unfold compress_2D_sweep.
  rewrite (bind_ok _ _ _ _ _ (get_list_some _ _ _ Hseqs)).
  rewrite (bind_ok _ _ _ _ _ (map_m_n_segments _ _ _ Hall)).
  rewrite np_unique_uniform by lia.
  change (negb (length [n_seg] =? 1)) with false. cbv iota.
  destruct seqs as [|s0 seqs']; [simpl in Hlen; lia|].
  pose proof Hall as Hall'.
  apply Forall_cons in Hall' as [(q0 & Hq0 & Hn0) _].
  rewrite item_head, bind_ret_l.
  rewrite (bind_ok _ _ _ _ _ (n_segments_some _ _ _ Hq0)), Hn0.
  fold fs. rewrite Hbound, bind_lift_ok. reflexivity.
Qed.

(** X6: For two or more Sequences of [n_seg] segments each, within the limit:
    when [compress_2D_sweep] returns with factor [f], the returned list
    holds [len(sequences) / f] Sequences of [f * n_seg] segments each, and
    the soft sweep indices count these Sequences. *)
Theorem compress_groups_evenly
    σ sequences seqs n_seg lim mrp r hard soft f σ' :
  lists σ !! sequences = Some seqs ->
  2 <= length seqs ->
  Forall (fun s => exists q, Sequence.sequences σ !! s = Some q /\
                             length (segments q) = n_seg) seqs ->
  le_limit n_seg lim = true ->
  compress_2D_sweep sequences lim mrp σ = (Ok (r, hard, soft, f), σ') ->
  Nat.divide f (length seqs) /\
  soft = seq 0 (length seqs / f) /\
  exists ms,
    lists σ' !! r = Some ms /\
    length ms = length seqs / f /\
    Forall (fun m => count σ' m = f * n_seg) ms.
Proof.
  intros Hseqs Hlen Hall Hfirst Hrun.
  destruct (compress_2D_sweep_factor _ _ _ _ _ mrp Hseqs Hlen Hall Hfirst)
    as (f0 & Hdiv & Hfeas & Hbest & Heq).
  rewrite Heq in Hrun.
  bind_cases Hrun r0 σ1 Emerge; [|done].
  unfold sweep_indices in Hrun.
  run_read Hrun cs Hcs; [|done].
  bind_cases Hrun c0 σ2 Eitem; [|done].
  bind_cases Hrun n_acq σ3 Eacq; [|done].
  unfold ret in Hrun. injection Hrun as <- <- <- <- <-.
  assert (σ2 = σ1) as ->.
  { unfold item in Eitem. destruct (cs !! 0); by injection Eitem. }
  apply n_acq_elements_read in Eacq as ->.
  pose proof (fmap_count_uniform _ _ _ Hall) as Hcount.
  pose proof (uniform_valid _ _ _ Hall) as Hvalid.
  assert (Hf1 : 1 <= f0).
  { apply Hbest; [apply Nat.divide_1_l|]. by rewrite Nat.mul_1_l. }
  destruct seqs as [|s0 [|s1 rest]]; [simpl in Hlen; lia..|].
  destruct (merge_result _ _ _ _ _ _ _ _ _ Hseqs Hvalid Emerge)
    as (_ & ms & Hms & _ & Hcounts & _).
  rewrite Hms in Hcs. injection Hcs as <-.
  set (n := length (s0 :: s1 :: rest)) in *.
  rewrite (fmap_cons _ s0) in Hcount.
  change (repeat n_seg n) with (n_seg :: repeat n_seg (S (length rest)))
    in Hcount.
  assert (Hc0 : count σ s0 = n_seg) by (by injection Hcount).
  assert (Htail : count σ <$> (s1 :: rest) = repeat n_seg (S (length rest)))
    by exact (f_equal (drop 1) Hcount).
  rewrite Hc0, Htail in Hcounts.
  assert (Hshape : count σ1 <$> ms = repeat (f0 * n_seg) (n / f0)).
  { destruct (decide (n_seg = 0)) as [->|Hpos].
    - assert (f0 = n) as ->.
      { apply Nat.le_antisymm.
        - apply Nat.divide_pos_le; [unfold n; simpl; lia|exact Hdiv].
        - apply Hbest; [done|]. rewrite Nat.mul_0_r. by destruct lim. }
      rewrite Nat.mul_0_r, greedy_empty_segments in Hcounts.
      rewrite Nat.div_same by (unfold n; simpl; lia).
      rewrite Nat.mul_0_r. exact Hcounts.
    - destruct Hdiv as [k Hk].
      assert (Hk1 : 1 <= k) by (unfold n in Hk; simpl in Hk; nia).
      rewrite Hk, Nat.div_mul by lia.
      rewrite <- (Nat.mul_1_l n_seg) in Hcounts at 2.
      rewrite (greedy_uniform f0 n_seg Hf1 ltac:(lia)
                 (S (length rest)) 1 (k - 1)) in Hcounts.
      + by replace (S (k - 1)) with k in Hcounts by lia.
      + lia.
      + unfold n in Hk. simpl in Hk. nia. }
  assert (Hlen_ms : length ms = n / f0).
  { by rewrite <- (length_fmap (count σ1)), Hshape, repeat_length. }
  split; [exact Hdiv|]. split; [by rewrite Hlen_ms|].
  exists ms. split; [exact Hms|]. split; [exact Hlen_ms|].
  assert (HF : Forall (fun y => y = f0 * n_seg) (count σ1 <$> ms))
    by (rewrite Hshape; apply Forall_repeat_eq).
  by apply Forall_fmap in HF.
Qed.

Lemma compress_groups_evenly_witness :
  exists r hard σ' ms,
    compress_2D_sweep 0 (Some 2) true (Examples.uniform 4 1)
    = (Ok (r, hard, [0; 1], 2), σ') /\
    lists σ' !! r = Some ms /\
    length ms = 2 /\
    Forall (fun m => count σ' m = 2) ms.
Proof.
  destruct (compress_2D_sweep 0 (Some 2) true (Examples.uniform 4 1))
    as [[[[[r hard] soft] f]|e] σ'] eqn:E;
    [|vm_compute in E; discriminate E].
  assert (Hf : f = 2) by (by vm_compute in E; injection E as _ _ _ <- _).
  subst f.
  destruct (compress_groups_evenly (Examples.uniform 4 1) 0 (seq 0 4) 1
              (Some 2) true r hard soft 2 σ')
    as (_ & -> & ms & Hms & Hlen & Hall).
  - vm_compute. reflexivity.
  - vm_compute. lia.
  - all_uniform.
  - reflexivity.
  - exact E.
  - exists r, hard, σ', ms.
    split; [reflexivity|]. split; [exact Hms|]. split; [exact Hlen|].
    exact Hall.
Defined.

Lemma map_m_n_segments_valid σ seqs :
  Forall (fun s => is_Some (sequences σ !! s)) seqs ->
  map_m n_segments seqs σ = (Ok (count σ <$> seqs), σ).
Proof.
  induction seqs as [|s seqs IH]; intros Hall; simpl; [done|].
  apply Forall_cons in Hall as [[q Hq] Hall].
  rewrite (bind_ok _ _ _ _ _ (n_segments_some _ _ _ Hq)).
  rewrite (bind_ok _ _ _ _ _ (IH Hall)). unfold ret, count. by rewrite Hq.
Qed.

Lemma np_unique_two ns a b :
  a ∈ ns -> b ∈ ns -> a <> b -> length (np_unique ns) <> 1.
Proof.
  intros Ha Hb Hne Hlen. unfold np_unique, np_sort in Hlen.
  assert (Ha' : a ∈ merge_sort (≤) (remove_dups ns))
    by (by rewrite merge_sort_Permutation, elem_of_remove_dups).
  assert (Hb' : b ∈ merge_sort (≤) (remove_dups ns))
    by (by rewrite merge_sort_Permutation, elem_of_remove_dups).
  destruct (merge_sort (≤) (remove_dups ns)) as [|x [|y l]];
    simpl in Hlen; try lia.
  apply list_elem_of_singleton in Ha', Hb'. congruence.
Qed.

(** X7: The assertion at the head of [compress_2D_sweep]: an empty list, or a
    list with two Sequences of different segment counts, is rejected with
    [AssertionError] before anything is copied or merged. *)
Theorem compress_rejects_unequal_counts σ sequences seqs lim mrp :
  lists σ !! sequences = Some seqs ->
  Forall (fun s => is_Some (Sequence.sequences σ !! s)) seqs ->
  (seqs = [] \/
   exists a b, a ∈ seqs /\ b ∈ seqs /\ count σ a <> count σ b) ->
  compress_2D_sweep sequences lim mrp σ = (Raise AssertionError, σ).
Proof.
  intros Hseqs Hvalid Hbad. unfold compress_2D_sweep.
  rewrite (bind_ok _ _ _ _ _ (get_list_some _ _ _ Hseqs)).
  rewrite (bind_ok _ _ _ _ _ (map_m_n_segments_valid _ _ Hvalid)).
  assert (Hne : length (np_unique (count σ <$> seqs)) <> 1).
  { destruct Hbad as [->|(a & b & Ha & Hb & Hab)]; [done|].
    apply (np_unique_two _ (count σ a) (count σ b)); [| |done];
      by apply list_elem_of_fmap_2. }
  apply Nat.eqb_neq in Hne. by rewrite Hne.
Qed.

Lemma compress_rejects_unequal_counts_witness :
  compress_2D_sweep 0 None true Examples.uneven
  = (Raise AssertionError, Examples.uneven).
Proof.
  apply (compress_rejects_unequal_counts Examples.uneven 0 [0; 1]).
  - reflexivity.
  - all_in_store.
  - right. exists 0, 1. split; [left|]. split; [right; left|].
    vm_compute. lia.
Defined.
End CompressionShape.

(** ** [Sequence.__deepcopy__] *)

Section DeepCopyContent.
Import Sequence Spec.

Lemma dict_get_elem {K V} `{EqDecision K} (d : list (K * V)) k v :
  PyDict.get k d = Some v -> (k, v) ∈ d.
Proof.
  induction d as [|[k' v'] d IH]; simpl; [done|].
  destruct (decide (k = k')) as [->|Hne].
  - intros [= ->]. left.
  - intros Hg. right. by apply IH.
Qed.

Lemma deepcopy_segment_hit s memo c σ :
  PyDict.get s memo = Some c ->
  deepcopy_segment s memo σ = (Ok (c, memo), σ).
Proof. unfold deepcopy_segment. by intros ->. Qed.

Lemma deepcopy_segment_miss s memo g σ :
  PyDict.get s memo = None ->
  segs σ !! s = Some g ->
  deepcopy_segment s memo σ =
  (Ok (fresh (dom (segs σ)), memo ++ [(s, fresh (dom (segs σ)))]),
   with_segs σ (<[fresh (dom (segs σ)) := g]> (segs σ))).
Proof.
  intros Hget Hg. unfold deepcopy_segment. rewrite Hget.
  rewrite (bind_ok _ _ _ _ _ (get_segment_some _ _ _ Hg)).
  unfold bind, new_segment, ret. rewrite dict_set_new; [done|].
  by apply dict_get_None.
Qed.

(** The loop of [deepcopy] over [segments.items()]: every Segment
    reference is replaced by a reference to a new object with the same
    content, under the same name. The memo maps originals to copies. *)
Lemma deepcopy_loop_content σ0 items :
  forall (st : list (string * loc) * list (loc * loc)) σ,
    segs σ0 ⊆ segs σ ->
    Forall (fun it => is_Some (segs σ0 !! snd it)) items ->
    Forall (fun oc => is_Some (segs σ0 !! fst oc) /\
                      segs σ0 !! snd oc = None /\
                      segs σ !! snd oc = segs σ0 !! fst oc) (snd st) ->
    exists ext memo' σ1,
      for_each items
        (fun item st =>
           cm <- deepcopy_segment (snd item) (snd st) ;;
           ret (fst st ++ [(fst item, fst cm)], snd cm))
        st σ = (Ok (fst st ++ ext, memo'), σ1) /\
      sequences σ1 = sequences σ /\ lists σ1 = lists σ /\
      segs σ ⊆ segs σ1 /\
      Forall2 (fun it it' => fst it' = fst it /\
                             segs σ0 !! snd it' = None /\
                             segs σ1 !! snd it' = segs σ0 !! snd it)
              items ext.
Proof.
  induction items as [|[k s] items IH]; intros [acc memo] σ Hsub Hvalid Hmemo.
  - exists [], memo, σ. simpl. rewrite app_nil_r.
    split_and!; done.
  - apply Forall_cons in Hvalid as [[g Hg] Hvalid]. simpl in Hg, Hmemo.
    assert (exists c memo1 σa,
              deepcopy_segment s memo σ = (Ok (c, memo1), σa) /\
              sequences σa = sequences σ /\ lists σa = lists σ /\
              segs σ ⊆ segs σa /\
              segs σ0 !! c = None /\ segs σa !! c = Some g /\
              Forall (fun oc => is_Some (segs σ0 !! fst oc) /\
                                segs σ0 !! snd oc = None /\
                                segs σa !! snd oc = segs σ0 !! fst oc) memo1)
      as (c & memo1 & σa & Hcopy & Hsa & Hla & Hga & Hc0 & Hca & Hmemo1).
    { destruct (PyDict.get s memo) as [c|] eqn:Hget.
      - exists c, memo, σ.
        split; [by apply deepcopy_segment_hit|].
        apply dict_get_elem in Hget.
        apply (proj1 (Forall_forall _ _) Hmemo) in Hget
          as (_ & Hfresh & Hsame). simpl in Hfresh, Hsame.
        split_and!; try done. by rewrite Hsame.
      - pose proof (lookup_weaken _ _ _ _ Hg Hsub) as Hgσ.
        pose proof (fresh_lookup_None (segs σ)) as Hfresh.
        eexists _, _, _.
        split; [by apply (deepcopy_segment_miss _ _ g)|]. simpl.
        split_and!; try done.
        + by apply insert_subseteq.
        + by eapply subseteq_lookup_None.
        + apply lookup_insert_eq.
        + apply Forall_app. split.
          * eapply Forall_impl; [exact Hmemo|]. simpl.
            intros [o c'] (Ho & Hc' & Hsame). simpl in *.
            split_and!; try done.
            destruct Ho as [go Hgo]. rewrite Hgo in Hsame |- *.
            eapply lookup_weaken; [exact Hsame|].
            by apply insert_subseteq.
          * apply Forall_singleton. simpl.
            split_and!; [by exists g| by eapply subseteq_lookup_None|].
            by rewrite lookup_insert_eq. }
    destruct (IH (acc ++ [(k, c)], memo1) σa) as
      (ext & memo' & σ1 & Hrun & Hs1 & Hl1 & Hg1 & Hcontent);
      [by etrans|done|done|].
    exists ((k, c) :: ext), memo', σ1. simpl in Hrun |- *.
    split.
    { rewrite (bind_ok _ _ _ (acc ++ [(k, c)], memo1) σa).
      - rewrite Hrun. by rewrite <- app_assoc.
      - by rewrite (bind_ok _ _ _ _ _ Hcopy). }
    split; [congruence|]. split; [congruence|]. split; [by etrans|].
    constructor; [|done]. simpl. split_and!; try done.
    rewrite Hg. by eapply lookup_weaken.
Qed.

(** X8: [__deepcopy__] of a Sequence whose Segment references are all in the
    store returns a new Sequence object with the same name, the same
    [pulsar] reference, the same [awg_sequence] and repeat patterns, and
    the same segment names in the same order; each Segment object of the
    copy is a new object with the content of the original. Every object
    of the initial store is left as it was. *)
Theorem deepcopy_equal_content_new_objects σ self q :
  sequences σ !! self = Some q ->
  Forall (fun it => is_Some (segs σ !! snd it)) (segments q) ->
  exists c q' σ',
    deepcopy self σ = (Ok c, σ') /\
    sequences σ !! c = None /\
    sequences σ' !! c = Some q' /\
    preserves σ σ' /\
    name q' = name q /\ pulsar q' = pulsar q /\
    awg_sequence q' = awg_sequence q /\
    repeat_patterns q' = repeat_patterns q /\
    Forall2 (fun it it' => fst it' = fst it /\
                           segs σ !! snd it' = None /\
                           segs σ' !! snd it' = segs σ !! snd it)
            (segments q) (segments q').
Proof.
  intros Hq Hvalid.
  destruct (deepcopy_loop_content σ (segments q) ([], []) σ)
    as (ext & memo' & σ1 & Hrun & Hs1 & Hl1 & Hg1 & Hcontent);
    [done|done|constructor|].
  simpl in Hrun.
  pose proof (fresh_lookup_None (sequences σ1)) as Hfresh.
  eexists _, _, _. split.
  { unfold deepcopy.
    rewrite (bind_ok _ _ _ _ _ (get_sequence_some _ _ _ Hq)).
    rewrite (bind_ok _ _ _ _ _ Hrun). reflexivity. }
  simpl. rewrite lookup_insert_eq. rewrite Hs1 in Hfresh |- *.
  split_and!; try done.
  split_and!; simpl; [by apply insert_subseteq|done|by rewrite Hl1].
Qed.

Lemma deepcopy_equal_content_new_objects_witness :
  exists c q' σ',
    deepcopy 1 Examples.abb = (Ok c, σ') /\
    sequences σ' !! c = Some q' /\
    name q' = "B" /\ pulsar q' = 0 /\
    Forall2 (fun it it' => fst it' = fst it /\
                           segs Examples.abb !! snd it' = None /\
                           segs σ' !! snd it'
                           = segs Examples.abb !! snd it)
            [("b", 1)] (segments q').
Proof.
  destruct (deepcopy_equal_content_new_objects Examples.abb 1
              (mk "B" 0 [("b", 1)] [] []))
    as (c & q' & σ' & Hrun & _ & Hq' & _ & Hname & Hpulsar & _ & _ & Hsegs).
  - reflexivity.
  - apply Forall_singleton. eexists. vm_compute. reflexivity.
  - exists c, q', σ'.
    split; [exact Hrun|]. split; [exact Hq'|]. split; [exact Hname|].
    split; [exact Hpulsar|exact Hsegs].
Defined.
End DeepCopyContent.

(** * Further properties of the pulse shapes *)

(** ** Arrays *)

Section ArrayFacts.
Import Numpy.
Local Open Scope R_scope.

Lemma lookup_map {A B} (f : A -> B) (l : list A) (i : nat) :
  map f l !! i = f <$> (l !! i).
Proof. revert i. induction l as [|x l IH]; intros [|i]; simpl; auto. Qed.

Lemma last_map {A B} (f : A -> B) (l : list A) :
  last (map f l) = f <$> last l.
Proof.
  induction l as [|x l IH]; [done|].
  change (map f (x :: l)) with (f x :: map f l).
  rewrite !last_cons, IH. by destruct (last l).
Qed.

(** [wf[i:j] += v] keeps the shape of [wf]. *)
Lemma iadd_slice_length (wf : list R) (i j : nat) (v w : list R) :
  iadd_slice wf i j v = Some w -> List.length w = List.length wf.
Proof.
  unfold iadd_slice. cbv zeta. intros H.
  destruct (if decide (List.length v = List.length (slice wf i j))
            then Some v
            else match v with
                 | [x] => Some (repeat x (List.length (slice wf i j)))
                 | _ => None
                 end) as [v'|] eqn:Hv; [|done].
  cbn [mbind option_bind] in H. injection H as <-.
  assert (Hlen : List.length v' = List.length (slice wf i j)).
  { destruct (decide (List.length v = List.length (slice wf i j))).
    - by injection Hv as <-.
    - destruct v as [|x [|y v]]; try done.
      injection Hv as <-. by rewrite repeat_length. }
  rewrite !length_app, length_zip_with, length_take, length_drop, Hlen.
  unfold slice. rewrite length_take, length_drop. lia.
Qed.

(** [wf[i:j] += v] raises when [v] is longer than one sample and has not
    the length of the slice. *)
Lemma iadd_slice_mismatch (wf : list R) (i j : nat) (v : list R) :
  List.length v <> List.length (slice wf i j) ->
  (2 <= List.length v)%nat ->
  iadd_slice wf i j v = None.
Proof.
  intros Hne H2. unfold iadd_slice. cbv zeta.
  rewrite decide_False by done.
  destruct v as [|x [|y v]]; simpl in H2; [lia|lia|done].
Qed.

Lemma broadcast2_length (f : R -> R -> R) (a b c : list R) :
  (1 <= List.length a)%nat -> (1 <= List.length b)%nat ->
  broadcast2 f a b = Some c ->
  List.length c = Nat.max (List.length a) (List.length b).
Proof.
  intros Ha Hb. unfold broadcast2.
  destruct (decide (List.length a = List.length b)) as [Heq|Hne].
  - intros [= <-]. rewrite length_zip_with. lia.
  - destruct a as [|x [|x' a]]; [simpl in Ha; lia| |].
    + intros [= <-]. simpl. rewrite ?length_map. lia.
    + destruct b as [|y [|y' b]]; [simpl in Hb; lia| |done].
      intros [= <-]. simpl. rewrite ?length_map. lia.
Qed.

Lemma np_where_le_first (b t0 : R) (rest : list R) :
  t0 <= b ->
  is_Some (last (np_where (map (fun y => bool_decide (y <= b))
                             (t0 :: rest)))).
Proof.
  intros Hle. unfold np_where. simpl.
  rewrite bool_decide_eq_true_2 by done.
  rewrite last_cons. destruct (last _); eauto.
Qed.

Lemma np_where_le_none (b : R) (l : list R) :
  Forall (fun y => b < y) l ->
  last (np_where (map (fun y => bool_decide (y <= b)) l)) = None.
Proof.
  intros Hall. unfold np_where. rewrite np_where_from_false; [done|].
  apply Forall_forall. intros c Hc.
  apply list_elem_of_In, in_map_iff in Hc as (x & <- & Hx).
  apply list_elem_of_In in Hx. apply bool_decide_eq_false.
  apply (proj1 (Forall_forall _ _) Hall) in Hx. lra.
Qed.

Lemma sub_offset_length (a b : list R) :
  sub_offset a = Some b -> List.length b = List.length a.
Proof.
  unfold sub_offset. destruct (head a); [|done]. destruct (last a); [|done].
  cbn [mbind option_bind]. intros [= <-]. apply length_map.
Qed.

Lemma sub_offset_some (x : R) (l : list R) :
  exists b, sub_offset (x :: l) = Some b /\
            List.length b = S (List.length l).
Proof.
  destruct (sub_offset_cons x l) as (an & _ & Hb).
  eexists. split; [exact Hb|]. by rewrite length_map.
Qed.

End ArrayFacts.

(** Run the next [wf[i:j] += v] of the computation in hypothesis [H]: it
    either raises or keeps the length of [wf]. *)
Ltac slice_step H :=
  match type of H with
  | context [Numpy.iadd_slice ?a ?b ?c ?d] =>
      let E := fresh "E" in
      destruct (Numpy.iadd_slice a b c d) as [?|] eqn:E;
      cbn [mbind option_bind] in H;
      [apply iadd_slice_length in E | discriminate H]
  end.

(** ** [MW_IQmod_pulse.chan_wf] at its edges *)

Section IQEdges.
Import Numpy MW_IQmod_pulse PulseSpec.
Local Open Scope R_scope.

(** X9: Whenever [MW_IQmod_pulse.chan_wf] returns, the waveform has one
    sample per sample of the time axis, whatever the channel and whether
    or not the axis is ascending. *)
Theorem iq_chan_wf_keeps_length (self : t) (chan : string)
    (tvals wf : list R) :
  chan_wf self chan tvals = Some wf ->
  List.length wf = List.length tvals.
Proof.
  unfold chan_wf. intros H.
  destruct (tvals !! 0%nat) as [t0|]; [|done].
  cbn [mbind option_bind] in H.
  destruct (head _) as [idx0|]; [|done]. cbn [mbind option_bind] in H.
  destruct (last _) as [i1|]; [|done]. cbn [mbind option_bind] in H.
  destruct (if negb (phaselock self) then _ else _) as [tv|]; [|done].
  cbn [mbind option_bind] in H.
  destruct (decide (chan = I_channel self));
    destruct (decide (chan = Q_channel self));
    cbn [mbind option_bind] in H;
    repeat slice_step H;
    injection H as <-; rewrite ?length_zeros in *; congruence.
Qed.

Lemma iq_chan_wf_keeps_length_witness :
  exists wf,
    chan_wf default_pulse "I" [0; 1] = Some wf /\ List.length wf = 2%nat.
Proof.
  destruct (chan_wf_sorted default_pulse "I" 0 [1]) as [HI _].
  - repeat constructor. lra.
  - simpl. lra.
  - discriminate.
  - specialize (HI eq_refl). eexists. split; [exact HI|].
    exact (iq_chan_wf_keeps_length default_pulse "I" [0; 1] _ HI).
Defined.

(** X10: On a channel that is neither the I nor the Q channel of the pulse,
    [MW_IQmod_pulse.chan_wf] returns zeros, one per sample, for every
    non-empty time axis and non-negative pulse length. *)
Theorem iq_unknown_channel_is_zero (self : t) (chan : string) (t0 : R)
    (rest : list R) :
  chan <> I_channel self ->
  chan <> Q_channel self ->
  0 <= length self ->
  chan_wf self chan (t0 :: rest) = Some (zeros (List.length (t0 :: rest))).
Proof.
  intros HI HQ Hlen. unfold chan_wf.
  change ((t0 :: rest) !! 0%nat) with (Some t0) at 1.
  cbn [mbind option_bind].
  rewrite np_where_ge_first. cbn [mbind option_bind].
  destruct (np_where_le_first (t0 + length self) t0 rest ltac:(lra))
    as [i1 ->].
  cbn [mbind option_bind].
  destruct (phaselock self); cbn [negb].
  - cbn [mbind option_bind]. rewrite decide_False by done.
    cbn [mbind option_bind]. rewrite decide_False by done. reflexivity.
  - change ((t0 :: rest) !! 0%nat) with (Some t0).
    cbn [mbind option_bind]. rewrite decide_False by done.
    cbn [mbind option_bind]. rewrite decide_False by done. reflexivity.
Qed.

Lemma iq_unknown_channel_is_zero_witness :
  chan_wf default_pulse "marker" [0; 1; 2] = Some [0; 0; 0].
Proof.
  apply (iq_unknown_channel_is_zero default_pulse "marker" 0 [1; 2]).
  - discriminate.
  - discriminate.
  - simpl. lra.
Defined.

(** X11: With a negative pulse length no sample of a time axis that starts at
    its smallest value lies in the pulse window: taking the last index of
    the empty [np.where] result raises, and [chan_wf] returns nothing. *)
Theorem iq_negative_length_raises (self : t) (chan : string) (t0 : R)
    (rest : list R) :
  length self < 0 ->
  Forall (fun x => t0 <= x) rest ->
  chan_wf self chan (t0 :: rest) = None.
Proof.
  intros Hneg Hmin. unfold chan_wf.
  change ((t0 :: rest) !! 0%nat) with (Some t0) at 1.
  cbn [mbind option_bind].
  rewrite np_where_ge_first. cbn [mbind option_bind].
  rewrite np_where_le_none; [done|].
  apply Forall_cons. split; [lra|].
  eapply Forall_impl; [exact Hmin|]. simpl. intros x Hx. lra.
Qed.

Lemma iq_negative_length_raises_witness :
  chan_wf (mk "pulse" "I" "Q" 1 1 (-1) 0 true) "I" [0; 1] = None.
Proof.
  apply (iq_negative_length_raises (mk "pulse" "I" "Q" 1 1 (-1) 0 true)
           "I" 0 [1]).
  - simpl. lra.
  - repeat constructor. lra.
Defined.
End IQEdges.

(** ** [SSB_DRAG_pulse]: envelopes, modulation and the pulse window *)

Section DragEdges.
Import Numpy SSB_DRAG_pulse PulseSpec.
Local Open Scope R_scope.

(** Over a non-empty time axis both envelopes of [chan_wf] are defined and
    have one sample per sample of the axis. *)
Lemma envelopes_defined (self : t) (tx : R) (ts : list R) :
  exists gauss deriv,
    gauss_env self (tx :: ts) = Some gauss /\
    deriv_gauss_env self (tx :: ts) = Some deriv /\
    List.length gauss = S (List.length ts) /\
    List.length deriv = S (List.length ts).
Proof.
  unfold gauss_env, deriv_gauss_env.
  assert (Hg : exists x l, gauss_env_raw self (tx :: ts) = x :: l /\
                           List.length l = List.length ts).
  { unfold gauss_env_raw. simpl. eexists _, _. split; [done|].
    by rewrite length_map. }
  destruct Hg as (x & l & Hg & Hl).
  assert (Hd : exists y k, deriv_gauss_env_raw self (tx :: ts) = y :: k /\
                           List.length k = List.length ts).
  { unfold deriv_gauss_env_raw. rewrite Hg. simpl. eexists _, _.
    split; [done|]. rewrite length_zip_with. lia. }
  destruct Hd as (y & k & Hd & Hk).
  rewrite Hg, Hd.
  destruct (sub_offset_some x l) as (gauss & -> & Hlg).
  destruct (sub_offset_some y k) as (deriv & -> & Hld).
  exists gauss, deriv. split_and!; try done; congruence.
Qed.

(** Element by element, [apply_modulation] on envelopes and a time axis of
    one common length. *)
Lemma apply_modulation_lookup (self : t) (I_env Q_env tvals : list R) :
  List.length I_env = List.length tvals ->
  List.length Q_env = List.length tvals ->
  exists I_mod Q_mod,
    apply_modulation self I_env Q_env tvals = Some (I_mod, Q_mod) /\
    List.length I_mod = List.length tvals /\
    List.length Q_mod = List.length tvals /\
    forall i e q tv,
      I_env !! i = Some e -> Q_env !! i = Some q -> tvals !! i = Some tv ->
      let x := 2 * PI * (mod_frequency self * tv + phase self / 360) in
      let tan_phi_skew := tan (2 * PI * phi_skew self / 360) in
      let sec_phi_alpha :=
        1 / (cos (2 * PI * phi_skew self / 360) * alpha self) in
      I_mod !! i = Some (e * (cos x - tan_phi_skew * sin x)
                         + q * (sin x + tan_phi_skew * cos x)) /\
      Q_mod !! i = Some (-1 * e * sec_phi_alpha * sin x
                         + q * sec_phi_alpha * cos x).
Proof.
  intros HI HQ. unfold apply_modulation. cbv zeta.
  rewrite (broadcast2_same Rmult I_env) by (by rewrite length_map).
  cbn [mbind option_bind].
  rewrite (broadcast2_same Rmult Q_env) by (by rewrite length_map).
  cbn [mbind option_bind].
  rewrite (broadcast2_same Rplus)
    by (rewrite !length_zip_with, !length_map; lia).
  cbn [mbind option_bind].
  rewrite (broadcast2_same Rmult (map _ I_env))
    by (rewrite !length_map; exact HI).
  cbn [mbind option_bind].
  rewrite (broadcast2_same Rmult (map _ Q_env))
    by (rewrite !length_map; exact HQ).
  cbn [mbind option_bind].
  rewrite (broadcast2_same Rplus)
    by (rewrite !length_zip_with, !length_map; lia).
  cbn [mbind option_bind].
  eexists _, _. split; [reflexivity|].
  split; [rewrite !length_zip_with, !length_map; lia|].
  split; [rewrite !length_zip_with, !length_map; lia|].
  intros i e q tv Hi Hq Ht. cbv zeta.
  rewrite !lookup_zip_with, !lookup_map, Hi, Hq, Ht. done.
Qed.

(** X13: Without predistortion ([alpha = 1], [phi_skew = 0]) and on envelopes
    and a time axis of one common length, [apply_modulation] rotates each
    sample pair [(I_env, Q_env)] by the angle
    [2*pi*(mod_frequency*t + phase/360)]; the rotation keeps
    [I**2 + Q**2] of every sample. *)
Theorem apply_modulation_rotates (self : t) (I_env Q_env tvals : list R) :
  alpha self = 1 ->
  phi_skew self = 0 ->
  List.length I_env = List.length tvals ->
  List.length Q_env = List.length tvals ->
  exists I_mod Q_mod,
    apply_modulation self I_env Q_env tvals = Some (I_mod, Q_mod) /\
    List.length I_mod = List.length tvals /\
    List.length Q_mod = List.length tvals /\
    forall i e q tv,
      I_env !! i = Some e -> Q_env !! i = Some q -> tvals !! i = Some tv ->
      exists a b,
        I_mod !! i = Some a /\ Q_mod !! i = Some b /\
        a = e * cos (2 * PI * (mod_frequency self * tv + phase self / 360))
            + q * sin (2 * PI * (mod_frequency self * tv
                                 + phase self / 360)) /\
        b = q * cos (2 * PI * (mod_frequency self * tv + phase self / 360))
            - e * sin (2 * PI * (mod_frequency self * tv
                                 + phase self / 360)) /\
        a * a + b * b = e * e + q * q.
Proof.
  intros Ha Hphi HI HQ.
  destruct (apply_modulation_lookup self I_env Q_env tvals HI HQ)
    as (I_mod & Q_mod & Hrun & HlI & HlQ & Hat).
  exists I_mod, Q_mod. split_and!; try done.
  intros i e q tv Hi Hq Ht.
  destruct (Hat i e q tv Hi Hq Ht) as [HIm HQm]. cbv zeta in HIm, HQm.
  assert (Hzero : 2 * PI * phi_skew self / 360 = 0) by (rewrite Hphi; lra).
  rewrite Hzero, tan_0 in HIm. rewrite Hzero, cos_0, Ha in HQm.
  set (x := 2 * PI * (mod_frequency self * tv + phase self / 360)) in *.
  eexists _, _. split; [exact HIm|]. split; [exact HQm|].
  split; [ring|]. split; [field|].
  pose proof (sin2_cos2 x) as Hsc. unfold Rsqr in Hsc.
  transitivity ((e * e + q * q) * (sin x * sin x + cos x * cos x));
    [field|rewrite Hsc; ring].
Qed.

Lemma apply_modulation_rotates_witness :
  exists I_mod Q_mod a b,
    apply_modulation plain_drag [3] [4] [0] = Some (I_mod, Q_mod) /\
    I_mod !! 0%nat = Some a /\ Q_mod !! 0%nat = Some b /\
    a * a + b * b = 3 * 3 + 4 * 4.
Proof.
  destruct (apply_modulation_rotates plain_drag [3] [4] [0]
              eq_refl eq_refl eq_refl eq_refl)
    as (I_mod & Q_mod & Hrun & _ & _ & Hat).
  destruct (Hat 0%nat 3 4 0 eq_refl eq_refl eq_refl)
    as (a & b & HIm & HQm & _ & _ & Hmag).
  exists I_mod, Q_mod, a, b. by split_and!.
Defined.

(** X14: "Reduces to an unmodulated pulse if mod_frequency == 0": without
    predistortion, modulation frequency and phase, [apply_modulation]
    returns the two envelopes as they are. *)
Theorem apply_modulation_identity (self : t) (I_env Q_env tvals : list R) :
  alpha self = 1 ->
  phi_skew self = 0 ->
  mod_frequency self = 0 ->
  phase self = 0 ->
  List.length I_env = List.length tvals ->
  List.length Q_env = List.length tvals ->
  apply_modulation self I_env Q_env tvals = Some (I_env, Q_env).
Proof.
  intros Ha Hphi Hf Hp HI HQ.
  destruct (apply_modulation_lookup self I_env Q_env tvals HI HQ)
    as (I_mod & Q_mod & Hrun & HlI & HlQ & Hat).
  rewrite Hrun. f_equal.
  assert (Hzero : 2 * PI * phi_skew self / 360 = 0) by (rewrite Hphi; lra).
  assert (Hx : forall tv,
             2 * PI * (mod_frequency self * tv + phase self / 360) = 0)
    by (intros tv; rewrite Hf, Hp; lra).
  assert (Hboth : forall i, I_mod !! i = I_env !! i /\
                            Q_mod !! i = Q_env !! i).
  { intros i. destruct (tvals !! i) as [tv|] eqn:Ht.
    - pose proof (lookup_lt_Some _ _ _ Ht) as Hlt.
      destruct (lookup_lt_is_Some_2 I_env i ltac:(lia)) as [e Hi].
      destruct (lookup_lt_is_Some_2 Q_env i ltac:(lia)) as [q Hq].
      destruct (Hat i e q tv Hi Hq Ht) as [HIm HQm].
      cbv zeta in HIm, HQm.
      rewrite Hx, Hzero, tan_0, cos_0, sin_0 in HIm.
      rewrite Hx, Hzero, cos_0, sin_0, Ha in HQm.
      rewrite HIm, HQm, Hi, Hq. split; f_equal; field.
    - apply lookup_ge_None in Ht.
      rewrite !lookup_ge_None_2 by lia. done. }
  f_equal; apply list_eq; intros i; by destruct (Hboth i).
Qed.

Lemma apply_modulation_identity_witness :
  apply_modulation plain_drag [3; 1] [4; 2] [0; 1] = Some ([3; 1], [4; 2]).
Proof.
  by apply (apply_modulation_identity plain_drag [3; 1] [4; 2] [0; 1]).
Defined.
End DragEdges.

(** ** [SSB_DRAG_pulse.chan_wf] and the pulse window *)

(** Run the next [apply_modulation] of the computation in hypothesis
    [H]. *)
Ltac modulation_step H :=
  match type of H with
  | context [SSB_DRAG_pulse.apply_modulation ?a ?b ?c ?d] =>
      destruct (SSB_DRAG_pulse.apply_modulation a b c d) as [?|];
      cbn [mbind option_bind] in H; [|discriminate H]
  end.

Section DragWindow.
Import Numpy SSB_DRAG_pulse PulseSpec.
Local Open Scope R_scope.

(** The shapes [apply_modulation] returns under numpy's broadcasting. *)
Lemma apply_modulation_length (self : t)
    (I_env Q_env tvals I_mod Q_mod : list R) :
  (1 <= List.length I_env)%nat ->
  List.length Q_env = List.length I_env ->
  (1 <= List.length tvals)%nat ->
  apply_modulation self I_env Q_env tvals = Some (I_mod, Q_mod) ->
  List.length I_mod = Nat.max (List.length I_env) (List.length tvals) /\
  List.length Q_mod = Nat.max (List.length I_env) (List.length tvals).
Proof.
  intros HI HQ Ht. unfold apply_modulation. cbv zeta. intros H.
  destruct (broadcast2 Rmult I_env _) as [i1|] eqn:E1; [|done].
  cbn [mbind option_bind] in H.
  apply broadcast2_length in E1; [|lia|rewrite length_map; lia].
  destruct (broadcast2 Rmult Q_env _) as [i2|] eqn:E2; [|done].
  cbn [mbind option_bind] in H.
  apply broadcast2_length in E2; [|lia|rewrite length_map; lia].
  rewrite length_map in E1, E2.
  destruct (broadcast2 Rplus i1 i2) as [Im|] eqn:E3; [|done].
  cbn [mbind option_bind] in H.
  apply broadcast2_length in E3; [|lia|lia].
  destruct (broadcast2 Rmult (map _ I_env) _) as [q1|] eqn:E4; [|done].
  cbn [mbind option_bind] in H.
  apply broadcast2_length in E4; [|rewrite length_map; lia..].
  destruct (broadcast2 Rmult (map _ Q_env) _) as [q2|] eqn:E5; [|done].
  cbn [mbind option_bind] in H.
  apply broadcast2_length in E5; [|rewrite length_map; lia..].
  rewrite !length_map in E4, E5.
  destruct (broadcast2 Rplus q1 q2) as [Qm|] eqn:E6; [|done].
  cbn [mbind option_bind] in H.
  apply broadcast2_length in E6; [|lia|lia].
  injection H as <- <-. lia.
Qed.

Lemma shift_origin (self : t) (t0 : R) (rest : list R) :
  (if negb (phaselock self)
   then ts ← (t0 :: rest) !! 0%nat;
        Some (map (fun x => x - ts) (t0 :: rest))
   else Some (t0 :: rest))
  = Some (map (fun x => x - (if phaselock self then 0 else t0))
            (t0 :: rest)).
Proof.
  destruct (phaselock self); cbn [negb]; [|done].
  f_equal. rewrite <- (map_id (t0 :: rest)) at 1.
  apply map_ext. intros; lra.
Qed.

(** X15: Whenever [SSB_DRAG_pulse.chan_wf] returns, the waveform has one sample
    per sample of the time axis. *)
Theorem drag_chan_wf_keeps_length (self : t) (chan : string)
    (tvals wf : list R) :
  chan_wf self chan tvals = Some wf ->
  List.length wf = List.length tvals.
Proof.
  unfold chan_wf. intros H.
  destruct (tvals !! 0%nat) as [t0|]; [|done].
  cbn [mbind option_bind] in H.
  destruct (head _) as [idx0|]; [|done]. cbn [mbind option_bind] in H.
  destruct (last _) as [i1|]; [|done]. cbn [mbind option_bind] in H.
  destruct (if negb (phaselock self) then _ else _) as [tv|]; [|done].
  cbn [mbind option_bind] in H.
  destruct (gauss_env self _) as [gauss|]; [|done].
  cbn [mbind option_bind] in H.
  destruct (deriv_gauss_env self _) as [deriv|]; [|done].
  cbn [mbind option_bind] in H.
  destruct (decide (chan = I_channel self));
    destruct (decide (chan = Q_channel self));
    cbn [mbind option_bind] in H;
    repeat first [slice_step H | modulation_step H];
    injection H as <-; rewrite ?length_zeros in *; congruence.
Qed.

Lemma drag_chan_wf_keeps_length_witness :
  exists wf,
    chan_wf plain_drag "I" [0; 1; 2] = Some wf /\ List.length wf = 3%nat.
Proof.
  destruct (chan_wf_unmodulated plain_drag 0 [1; 2]) as (gauss & _ & Hwf).
  - reflexivity.
  - reflexivity.
  - discriminate.
  - repeat constructor; simpl; lra.
  - eexists. split; [exact Hwf|].
    exact (drag_chan_wf_keeps_length plain_drag "I" [0; 1; 2] _ Hwf).
Defined.

(** X16: On a channel that is neither the I nor the Q channel of the pulse,
    [SSB_DRAG_pulse.chan_wf] returns zeros, one per sample, for every
    non-empty time axis and non-negative pulse length, also when the axis
    runs past the pulse window. *)
Theorem drag_unknown_channel_is_zero (self : t) (chan : string) (t0 : R)
    (rest : list R) :
  chan <> I_channel self ->
  chan <> Q_channel self ->
  0 <= length self ->
  chan_wf self chan (t0 :: rest) = Some (zeros (List.length (t0 :: rest))).
Proof.
  intros HI HQ Hlen. unfold chan_wf.
  change ((t0 :: rest) !! 0%nat) with (Some t0) at 1.
  cbn [mbind option_bind].
  rewrite np_where_ge_first. cbn [mbind option_bind].
  destruct (np_where_le_first (t0 + length self) t0 rest ltac:(lra))
    as [i1 ->].
  cbn [mbind option_bind].
  rewrite shift_origin. cbn [mbind option_bind].
  change (map (fun x => x - t0) (t0 :: rest))
    with (t0 - t0 :: map (fun x => x - t0) rest).
  destruct (envelopes_defined self (t0 - t0) (map (fun x => x - t0) rest))
    as (gauss & deriv & -> & -> & _ & _).
  cbn [mbind option_bind]. rewrite decide_False by done.
  cbn [mbind option_bind]. rewrite decide_False by done. reflexivity.
Qed.

Lemma drag_unknown_channel_is_zero_witness :
  chan_wf plain_drag "marker" [0; 5] = Some [0; 0].
Proof.
  apply (drag_unknown_channel_is_zero plain_drag "marker" 0 [5]).
  - discriminate.
  - discriminate.
  - simpl. lra.
Defined.

(** [chan_wf] over an ascending time axis that runs past the pulse
    window. *)
Lemma chan_wf_beyond_window (self : t) (chan : string) (t0 : R)
    (rest : list R) :
  StronglySorted Rle (t0 :: rest) ->
  0 <= length self ->
  Exists (fun x => t0 + length self < x) rest ->
  chan = I_channel self \/ chan = Q_channel self ->
  chan_wf self chan (t0 :: rest) = None.
Proof.
  intros Hs Hlen Hbeyond Hchan.
  destruct (sorted_split (t0 + length self) (t0 :: rest) Hs)
    as (l1 & l2 & Heq & H1 & H2).
  destruct l1 as [|t0' l1'].
  { simpl in Heq. subst l2. apply Forall_cons in H2 as [Ht _]. lra. }
  injection Heq as <- ->.
  assert (Hl2 : (1 <= List.length l2)%nat).
  { apply Exists_exists in Hbeyond as (x & Hx & Hgt).
    apply elem_of_app in Hx as [Hx|Hx].
    - apply Forall_cons in H1 as [_ H1].
      apply (proj1 (Forall_forall _ _) H1) in Hx. lra.
    - destruct l2; [by apply elem_of_nil in Hx|simpl; lia]. }
  set (n := List.length (t0 :: l1' ++ l2)).
  set (k := (List.length l1' + 1)%nat).
  assert (Hn : n = (k + List.length l2)%nat)
    by (unfold n, k; simpl; rewrite length_app; lia).
  pose (tv := map (fun x => x - (if phaselock self then 0 else t0))
                (t0 :: l1' ++ l2)).
  assert (Hslice : List.length (slice tv 0 k) = k).
  { unfold slice, tv. rewrite length_take, length_drop, length_map.
    fold n. lia. }
  destruct (envelopes_defined self (t0 - t0)
              (map (fun x => x - t0) (l1' ++ l2)))
    as (gauss & deriv & Hg & Hd & Hlg & Hld).
  rewrite length_map in Hlg, Hld.
  assert (Hfail : forall (wf : list R) (sel : list R * list R -> list R),
             List.length wf = n ->
             (forall m, sel m = fst m \/ sel m = snd m) ->
             (m ← apply_modulation self gauss deriv (slice tv 0 k);
              iadd_slice wf 0 k (sel m)) = None).
  { intros wf sel Hwf Hsel.
    destruct (apply_modulation self gauss deriv (slice tv 0 k))
      as [[Im Qm]|] eqn:E; [|done].
    cbn [mbind option_bind].
    apply apply_modulation_length in E as [HIm HQm];
      [|lia|lia|rewrite Hslice; unfold k; lia].
    rewrite Hslice, Hlg in HIm, HQm.
    assert (Hsl : List.length (slice wf 0 k) = k).
    { unfold slice. rewrite length_take, length_drop. lia. }
    rewrite length_app in HIm, HQm.
    apply iadd_slice_mismatch; rewrite ?Hsl;
      destruct (Hsel (Im, Qm)) as [-> | ->]; simpl; unfold k; lia. }
  assert (Hidx1 : last (np_where
                          (map (fun x => bool_decide
                                           (x <= t0 + length self))
                             (t0 :: l1' ++ l2)))
                  = Some (List.length l1')).
  { change (t0 :: l1' ++ l2) with ((t0 :: l1') ++ l2).
    rewrite np_where_le_split by done. apply last_seq_0. }
  unfold chan_wf.
  change ((t0 :: l1' ++ l2) !! 0%nat) with (Some t0) at 1.
  cbn [mbind option_bind].
  rewrite np_where_ge_first. cbn [mbind option_bind].
  rewrite Hidx1. cbn [mbind option_bind].
  rewrite shift_origin. fold tv. cbn [mbind option_bind].
  change (map (fun x => x - t0) (t0 :: l1' ++ l2))
    with (t0 - t0 :: map (fun x => x - t0) (l1' ++ l2)).
  rewrite Hg, Hd. cbn [mbind option_bind]. fold k n.
  destruct (decide (chan = I_channel self)) as [HI|HI].
  - rewrite (Hfail (zeros n) fst); [done|apply length_zeros|by left].
  - cbn [mbind option_bind].
    destruct Hchan as [?|HQ]; [done|].
    rewrite decide_True by done.
    rewrite (Hfail (zeros n) snd); [done|apply length_zeros|by right].
Qed.

(** X17: The envelopes are computed over the whole time axis but modulated
    with the samples of the pulse window only: on an ascending axis with
    a sample beyond [tvals[0] + length], the shapes do not match and
    [chan_wf] raises on the I and on the Q channel. *)
Theorem drag_beyond_window_raises (self : t) (chan : string) (t0 : R)
    (rest : list R) :
  StronglySorted Rle (t0 :: rest) ->
  0 <= length self ->
  Exists (fun x => t0 + length self < x) rest ->
  chan = I_channel self \/ chan = Q_channel self ->
  chan_wf self chan (t0 :: rest) = None.
Proof. apply chan_wf_beyond_window. Qed.

Lemma drag_beyond_window_raises_witness :
  chan_wf plain_drag "I" [0; 1; 5] = None.
Proof.
  apply (drag_beyond_window_raises plain_drag "I" 0 [1; 5]).
  - repeat constructor; lra.
  - simpl. lra.
  - apply Exists_cons_tl, Exists_cons_hd. simpl. lra.
  - by left.
Defined.

(** X18: When every sample of the time axis lies in the pulse window,
    [chan_wf] returns on the I channel the first and on the Q channel the
    second output of [apply_modulation], applied to the two envelopes
    and to the time axis (counted from its first sample unless
    [phaselock] is set). *)
Theorem drag_window_waveforms (self : t) (t0 : R) (rest : list R) :
  I_channel self <> Q_channel self ->
  Forall (fun x => x <= t0 + length self) (t0 :: rest) ->
  exists gauss deriv I_mod Q_mod,
    gauss_env self (map (fun x => x - t0) (t0 :: rest)) = Some gauss /\
    deriv_gauss_env self (map (fun x => x - t0) (t0 :: rest))
    = Some deriv /\
    apply_modulation self gauss deriv
      (map (fun x => x - (if phaselock self then 0 else t0)) (t0 :: rest))
    = Some (I_mod, Q_mod) /\
    chan_wf self (I_channel self) (t0 :: rest) = Some I_mod /\
    chan_wf self (Q_channel self) (t0 :: rest) = Some Q_mod.
Proof.
  intros Hne Hall.
  set (n := S (List.length rest)).
  pose (tv := map (fun x => x - (if phaselock self then 0 else t0))
                (t0 :: rest)).
  change (map (fun x => x - t0) (t0 :: rest))
    with (t0 - t0 :: map (fun x => x - t0) rest).
  destruct (envelopes_defined self (t0 - t0) (map (fun x => x - t0) rest))
    as (gauss & deriv & Hg & Hd & Hlg & Hld).
  rewrite length_map in Hlg, Hld.
  assert (Hltv : List.length tv = n)
    by (unfold tv; by rewrite length_map).
  destruct (apply_modulation_lookup self gauss deriv tv)
    as (I_mod & Q_mod & Hmod & HlI & HlQ & _);
    [rewrite Hltv; unfold n; congruence..|].
  exists gauss, deriv, I_mod, Q_mod.
  split; [exact Hg|]. split; [exact Hd|]. split; [exact Hmod|].
  assert (Hrun : forall chan,
             chan_wf self chan (t0 :: rest) =
             (wf ← (if decide (chan = I_channel self)
                    then Some I_mod else Some (zeros n));
              wf ← (if decide (chan = Q_channel self)
                    then iadd_slice wf 0 n Q_mod else Some wf);
              Some wf)).
  { intros chan. unfold chan_wf.
    change ((t0 :: rest) !! 0%nat) with (Some t0) at 1.
    cbn [mbind option_bind].
    rewrite np_where_ge_first. cbn [mbind option_bind].
    rewrite np_where_le_all by done. cbn [mbind option_bind].
    rewrite shift_origin. fold tv. cbn [mbind option_bind].
    change (map (fun x => x - t0) (t0 :: rest))
      with (t0 - t0 :: map (fun x => x - t0) rest).
    rewrite Hg, Hd. cbn [mbind option_bind].
    replace (List.length rest + 1)%nat with n by (unfold n; lia).
    change (List.length (t0 :: rest)) with n.
    rewrite slice_all by exact Hltv. rewrite Hmod.
    cbn [mbind option_bind fst snd].
    rewrite iadd_slice_zeros_all by congruence. reflexivity. }
  split.
  - rewrite Hrun, decide_True by done. cbn [mbind option_bind].
    by rewrite decide_False by done.
  - rewrite Hrun, decide_False by (intros E; by apply Hne).
    cbn [mbind option_bind]. rewrite decide_True by done.
    rewrite iadd_slice_zeros_all by congruence. reflexivity.
Qed.

Lemma drag_window_waveforms_witness :
  exists gauss deriv I_mod Q_mod,
    gauss_env plain_drag (map (fun x => x - 0) [0; 1; 2]) = Some gauss /\
    deriv_gauss_env plain_drag (map (fun x => x - 0) [0; 1; 2])
    = Some deriv /\
    apply_modulation plain_drag gauss deriv
      (map (fun x => x - 0) [0; 1; 2]) = Some (I_mod, Q_mod) /\
    chan_wf plain_drag "I" [0; 1; 2] = Some I_mod /\
    chan_wf plain_drag "Q" [0; 1; 2] = Some Q_mod.
Proof.
  apply (drag_window_waveforms plain_drag 0 [1; 2]).
  - discriminate.
  - repeat constructor; simpl; lra.
Defined.
End DragWindow.

(** * [Sequence.repeat] and [Sequence.repeat_ro] *)

Section RepeatFacts.
Import Sequence SequenceRepeat.

Lemma getitem_some {V} (k : string) (d : list (string * V)) v σ :
  PyDict.get k d = Some v -> getitem k d σ = (Ok v, σ).
Proof. unfold getitem. by intros ->. Qed.

Lemma getitem_none {V} (k : string) (d : list (string * V)) σ :
  PyDict.get k d = None -> getitem k d σ = (Raise KeyError, σ).
Proof. unfold getitem. by intros ->. Qed.

(** The loop over [pulse_channel_names] when the pulse has them all. *)
Lemma channels_loop (pulse : list (string * string)) (pattern : nat * nat)
    names chans :
  Forall2 (fun ch c => PyDict.get ch pulse = Some c) names chans ->
  forall rep σ,
    for_each names
      (fun ch rep => c <- getitem ch pulse ;; ret (PyDict.set c pattern rep))
      rep σ
    = (Ok (fold_left (fun d c => PyDict.set c pattern d) chans rep), σ).
Proof.
  induction 1 as [|ch c names chans Hc _ IH]; intros rep σ; [done|].
  cbn [for_each fold_left].
  rewrite (bind_ok _ _ _ (PyDict.set c pattern rep) σ); [apply IH|].
  by rewrite (bind_ok _ _ _ _ _ (getitem_some _ _ _ _ Hc)).
Qed.

(** The loop raises [KeyError] at a channel name the pulse lacks. *)
Lemma channels_loop_missing (pulse : list (string * string))
    (pattern : nat * nat) names ch :
  ch ∈ names -> PyDict.get ch pulse = None ->
  forall rep σ,
    for_each names
      (fun ch rep => c <- getitem ch pulse ;; ret (PyDict.set c pattern rep))
      rep σ
    = (Raise KeyError, σ).
Proof.
  intros Hin Hnone. induction names as [|x names IH]; intros rep σ.
  - by apply elem_of_nil in Hin.
  - cbn [for_each]. destruct (PyDict.get x pulse) as [c|] eqn:Hx.
    + rewrite (bind_ok _ _ _ (PyDict.set c pattern rep) σ).
      * apply IH. apply elem_of_cons in Hin as [->|Hin]; [congruence|done].
      * by rewrite (bind_ok _ _ _ _ _ (getitem_some _ _ _ _ Hx)).
    + apply bind_raise. apply bind_raise. by apply getitem_none.
Qed.

Lemma fold_set_keys {V} (p : V) chans :
  forall (rep : list (string * V)) a,
    a ∈ PyDict.keys (fold_left (fun d c => PyDict.set c p d) chans rep)
    <-> a ∈ chans \/ a ∈ PyDict.keys rep.
Proof.
  induction chans as [|c chans IH]; intros rep a; cbn [fold_left].
  - rewrite elem_of_nil. tauto.
  - rewrite IH, dict_keys_set, elem_of_cons.
    destruct (decide (c ∈ PyDict.keys rep)) as [Hin|Hn].
    + split; [tauto|]. intros [[->|?]|?]; tauto.
    + rewrite elem_of_app, list_elem_of_singleton. tauto.
Qed.

Lemma fold_set_values {V} (p : V) chans :
  forall (rep : list (string * V)),
    Forall (fun v => v = p) rep.*2 ->
    Forall (fun v => v = p)
      (fold_left (fun d c => PyDict.set c p d) chans rep).*2.
Proof.
  induction chans as [|c chans IH]; intros rep Hrep; cbn [fold_left].
  - exact Hrep.
  - apply IH. by apply dict_values_set.
Qed.

(** [d.update(other)] when every value of [other] is [p]. *)
Lemma get_update_const {V} (p : V) (other : list (string * V)) :
  forall d a,
    Forall (fun v => v = p) other.*2 ->
    PyDict.get a (update d other) =
    if decide (a ∈ PyDict.keys other) then Some p else PyDict.get a d.
Proof.
  induction other as [|[k v] other IH]; intros d a Hall.
  - rewrite decide_False by apply not_elem_of_nil. reflexivity.
  - rewrite fmap_cons in Hall. apply Forall_cons in Hall as [Hv Hall].
    simpl in Hv. subst v.
    change (update d ((k, p) :: other))
      with (update (PyDict.set k p d) other).
    rewrite IH by done.
    change (PyDict.keys ((k, p) :: other)) with (k :: PyDict.keys other).
    destruct (decide (a ∈ PyDict.keys other)) as [Hin|Hn].
    + rewrite decide_True; [done|by right].
    + destruct (decide (a = k)) as [->|Hne].
      * rewrite decide_True by left. apply dict_get_set_eq.
      * rewrite decide_False.
        -- by apply dict_get_set_ne.
        -- intros [?|?]%elem_of_cons; done.
Qed.

(** The run of [repeat] on a pulse that has every channel name. *)
Lemma repeat_run σ self q pulse_name pulse pattern names chans :
  sequences σ !! self = Some q ->
  match pulse_name with
  | Given p => p = pulse
  | Named n d => PyDict.get n d = Some pulse
  end ->
  Forall2 (fun ch c => PyDict.get ch pulse = Some c) names chans ->
  let r := update (repeat_patterns q)
             (fold_left (fun d c => PyDict.set c pattern d) chans []) in
  repeat self pulse_name pattern names σ =
  (Ok r, with_sequences σ (<[self := set_repeat_patterns q r]> (sequences σ)))
  /\
  (forall c, c ∈ chans -> PyDict.get c r = Some pattern) /\
  (forall c, c ∉ chans -> PyDict.get c r = PyDict.get c (repeat_patterns q)).
Proof.
  intros Hq Hpulse Hchans r.
  assert (Hget : forall c,
             PyDict.get c r =
             if decide (c ∈ chans) then Some pattern
             else PyDict.get c (repeat_patterns q)).
  { intros c. unfold r. rewrite (get_update_const pattern).
    - destruct (decide (c ∈ chans)) as [Hin|Hn].
      + rewrite decide_True; [done|]. apply fold_set_keys. by left.
      + rewrite decide_False; [done|]. rewrite fold_set_keys.
        intros [?|Hnil]; [done|]. by apply elem_of_nil in Hnil.
    - apply fold_set_values. constructor. }
  split; [|split].
  - unfold repeat.
    assert (Hres : match pulse_name with
                   | Given pulse => ret pulse
                   | Named pulse_name operation_dict =>
                       getitem pulse_name operation_dict
                   end σ = (Ok pulse, σ)).
    { destruct pulse_name as [n d|p]; [by apply getitem_some|by subst]. }
    rewrite (bind_ok _ _ _ _ _ Hres).
    rewrite (bind_ok _ _ _ _ _ (channels_loop pulse pattern _ _ Hchans [] σ)).
    rewrite (bind_ok _ _ _ _ _ (get_sequence_some _ _ _ Hq)).
    reflexivity.
  - intros c Hc. by rewrite Hget, decide_True.
  - intros c Hc. by rewrite Hget, decide_False.
Qed.

(** X19: [repeat] on a pulse that has all of [pulse_channel_names]: the pattern
    is set on each AWG channel the pulse names, every other channel keeps
    the pattern it had, and the updated mapping is both stored in the
    Sequence and returned. *)
Theorem repeat_sets_pulse_channels
    σ self q pulse_name pulse pattern names chans :
  sequences σ !! self = Some q ->
  match pulse_name with
  | Given p => p = pulse
  | Named n d => PyDict.get n d = Some pulse
  end ->
  Forall2 (fun ch c => PyDict.get ch pulse = Some c) names chans ->
  exists r σ',
    repeat self pulse_name pattern names σ = (Ok r, σ') /\
    sequences σ' !! self = Some (set_repeat_patterns q r) /\
    (forall l, l <> self -> sequences σ' !! l = sequences σ !! l) /\
    segs σ' = segs σ /\ lists σ' = lists σ /\
    (forall c, c ∈ chans -> PyDict.get c r = Some pattern) /\
    (forall c, c ∉ chans ->
               PyDict.get c r = PyDict.get c (repeat_patterns q)).
Proof.
  intros Hq Hpulse Hchans.
  destruct (repeat_run σ self q pulse_name pulse pattern names chans
              Hq Hpulse Hchans) as (Hrun & Hset & Hkeep).
  eexists _, _. split; [exact Hrun|]. simpl.
  split; [apply lookup_insert_eq|].
  split; [intros l Hl; by rewrite lookup_insert_ne|].
  split_and!; done.
Qed.

Lemma repeat_sets_pulse_channels_witness :
  exists r σ',
    repeat 0 (Named "RO qb1" Examples.operations) (5, 1) IQ_channel_names
      (Examples.repeated 1 1) = (Ok r, σ') /\
    PyDict.get "ch1" r = Some (5, 1) /\
    PyDict.get "ch2" r = Some (5, 1) /\
    PyDict.get "ch3" r = None.
Proof.
  destruct (repeat_sets_pulse_channels (Examples.repeated 1 1) 0
              (mk "A" 0 [("a", 0)] [] [("ch1", (2, 1))])
              (Named "RO qb1" Examples.operations) Examples.ro_pulse
              (5, 1) IQ_channel_names ["ch1"; "ch2"])
    as (r & σ' & Hrun & _ & _ & _ & _ & Hset & Hkeep).
  - reflexivity.
  - reflexivity.
  - repeat constructor.
  - exists r, σ'. split; [exact Hrun|].
    split; [apply Hset; left|].
    split; [apply Hset; right; left|].
    rewrite Hkeep; [reflexivity|].
    intros Hin. repeat (apply elem_of_cons in Hin as [Hin|Hin];
                        [discriminate Hin|]).
    by apply elem_of_nil in Hin.
Defined.

(** X20: [repeat] looks every key up before it writes: when the pulse name is
    not in the operation dict, or the pulse lacks one of the channel
    names, [KeyError] is raised and the store, hence the repeat patterns
    of the Sequence, is as it was. *)
Theorem repeat_missing_key_changes_nothing
    σ self pulse_name pattern names :
  match pulse_name with
  | Given p => exists ch, ch ∈ names /\ PyDict.get ch p = None
  | Named n d =>
      match PyDict.get n d with
      | None => True
      | Some p => exists ch, ch ∈ names /\ PyDict.get ch p = None
      end
  end ->
  repeat self pulse_name pattern names σ = (Raise KeyError, σ).
Proof.
  intros Hmiss. unfold repeat.
  destruct pulse_name as [n d|p].
  - destruct (PyDict.get n d) as [p|] eqn:Hn.
    + destruct Hmiss as (ch & Hin & Hnone).
      rewrite (bind_ok _ _ _ _ _ (getitem_some _ _ _ σ Hn)).
      apply bind_raise. by eapply channels_loop_missing.
    + apply bind_raise. by apply getitem_none.
  - destruct Hmiss as (ch & Hin & Hnone).
    rewrite bind_ret_l. apply bind_raise. by eapply channels_loop_missing.
Qed.

Lemma repeat_missing_key_changes_nothing_witness :
  repeat 0 (Named "RO qb1" Examples.operations) (5, 1) ["I_channel"; "flux"]
    (Examples.repeated 1 1)
  = (Raise KeyError, Examples.repeated 1 1).
Proof.
  apply (repeat_missing_key_changes_nothing (Examples.repeated 1 1) 0
           (Named "RO qb1" Examples.operations) (5, 1)
           ["I_channel"; "flux"]).
  simpl. exists "flux". split; [right; left|reflexivity].
Defined.

(** [n_acq_elements] sums the acquisition elements of the segments and
    only reads the store. *)
Lemma n_acq_elements_run σ self q gs :
  sequences σ !! self = Some q ->
  Forall2 (fun s g => segs σ !! s = Some g)
    (PyDict.values (segments q)) gs ->
  n_acq_elements self σ =
  (Ok (sum_list (map (fun g => length (Segment.acquisition_elements g)) gs)),
   σ).
Proof.
  intros Hq Hgs. unfold n_acq_elements.
  rewrite (bind_ok _ _ _ _ _ (get_sequence_some _ _ _ Hq)).
  assert (Hmap : map_m (fun seg => g <- get_segment seg ;;
                          ret (length (Segment.acquisition_elements g)))
                   (PyDict.values (segments q)) σ
                 = (Ok (map (fun g => length (Segment.acquisition_elements g))
                          gs), σ)).
  { induction Hgs as [|s g ss gs Hs _ IH]; [done|]. cbn [map_m map].
    rewrite (bind_ok _ _ _ (length (Segment.acquisition_elements g)) σ).
    - by rewrite (bind_ok _ _ _ _ _ IH).
    - by rewrite (bind_ok _ _ _ _ _ (get_segment_some _ _ _ Hs)). }
  by rewrite (bind_ok _ _ _ _ _ Hmap).
Qed.

(** X21: [repeat_ro] sets, on the I and the Q channel of the readout pulse, the
    pattern [(n, 1)] where [n] is the number of acquisition elements of
    all segments of the Sequence; the other channels keep their
    pattern. *)
Theorem repeat_ro_counts_acquisitions
    σ self q gs pulse_name pulse cI cQ :
  sequences σ !! self = Some q ->
  Forall2 (fun s g => segs σ !! s = Some g)
    (PyDict.values (segments q)) gs ->
  match pulse_name with
  | Given p => p = pulse
  | Named n d => PyDict.get n d = Some pulse
  end ->
  PyDict.get "I_channel" pulse = Some cI ->
  PyDict.get "Q_channel" pulse = Some cQ ->
  let n := sum_list (map (fun g => length (Segment.acquisition_elements g))
                       gs) in
  exists r σ',
    repeat_ro self pulse_name σ = (Ok r, σ') /\
    sequences σ' !! self = Some (set_repeat_patterns q r) /\
    PyDict.get cI r = Some (n, 1) /\
    PyDict.get cQ r = Some (n, 1) /\
    (forall c, c <> cI -> c <> cQ ->
               PyDict.get c r = PyDict.get c (repeat_patterns q)).
Proof.
  intros Hq Hgs Hpulse HI HQ n.
  destruct (repeat_run σ self q pulse_name pulse (n, 1) IQ_channel_names
              [cI; cQ] Hq Hpulse) as (Hrun & Hset & Hkeep).
  { by repeat constructor. }
  eexists _, _. split.
  { unfold repeat_ro.
    rewrite (bind_ok _ _ _ _ _ (n_acq_elements_run _ _ _ _ Hq Hgs)).
    exact Hrun. }
  simpl. split; [apply lookup_insert_eq|].
  split; [apply Hset; left|]. split; [apply Hset; right; left|].
  intros c HcI HcQ. apply Hkeep.
  intros Hin. apply elem_of_cons in Hin as [?|Hin]; [done|].
  apply list_elem_of_singleton in Hin. done.
Qed.

Lemma repeat_ro_counts_acquisitions_witness :
  exists r σ',
    repeat_ro 0 (Given Examples.ro_pulse) (Examples.repeated 1 1)
    = (Ok r, σ') /\
    PyDict.get "ch1" r = Some (1, 1) /\
    PyDict.get "ch2" r = Some (1, 1).
Proof.
  destruct (repeat_ro_counts_acquisitions (Examples.repeated 1 1) 0
              (mk "A" 0 [("a", 0)] [] [("ch1", (2, 1))])
              [Examples.segment "a"]
              (Given Examples.ro_pulse) Examples.ro_pulse "ch1" "ch2")
    as (r & σ' & Hrun & _ & HI & HQ & _).
  - reflexivity.
  - repeat constructor.
  - reflexivity.
  - reflexivity.
  - reflexivity.
  - exists r, σ'. split; [exact Hrun|]. split; [exact HI|exact HQ].
Defined.
End RepeatFacts.

(** * Further properties of [Sequence.generate_waveforms_sequences] *)

Section GenerateContent.
Import Sequence Spec.
Context {cw wf : Type} `{EqDecision cw}.
Variables
  (resolve_segment gen_elements_on_awg : Segment.t -> Segment.t)
  (elements_on_awg : Segment.t -> list (string * list string))
  (get_element_codewords : Segment.t -> string -> string -> list cw)
  (get_element_channels : Segment.t -> string -> string -> list string)
  (calculate_hash : Segment.t -> string -> cw -> string -> Z)
  (seg_waveforms : Segment.t -> string -> string -> string -> cw -> wf)
  (pulsar_get : string -> string).

Lemma dict_get_app {K V} `{EqDecision K} (d1 d2 : list (K * V)) k :
  PyDict.get k (d1 ++ d2) =
  match PyDict.get k d1 with
  | Some v => Some v
  | None => PyDict.get k d2
  end.
Proof.
  induction d1 as [|[k' v'] d1 IH]; simpl; [done|].
  by destruct (decide (k = k')).
Qed.

(** Looking a hash up in the table gives what the first of the
    references [refs] with that hash gives. *)
Lemma first_reference_see (ws : @wf_state wf) (refs : list (Z * wf)) h v :
  (forall x, PyDict.get x (fst ws) = PyDict.get x refs) ->
  forall x,
    PyDict.get x
      (fst (if PyDict.mem h (fst ws) then ws
            else (PyDict.set h v (fst ws), snd ws ++ [h])))
    = PyDict.get x (refs ++ [(h, v)]).
Proof.
  destruct ws as [table calls]. simpl. intros Hagree x.
  rewrite dict_get_app. simpl.
  unfold PyDict.mem. destruct (PyDict.get h table) as [w|] eqn:Hh; simpl.
  - rewrite Hagree. destruct (PyDict.get x refs) eqn:Hx; [done|].
    destruct (decide (x = h)) as [->|]; [|done].
    rewrite Hagree in Hh. congruence.
  - destruct (decide (x = h)) as [->|Hne].
    + rewrite dict_get_set_eq, <- Hagree, Hh. done.
    + rewrite dict_get_set_ne by done. rewrite Hagree.
      by destruct (PyDict.get x refs).
Qed.

Lemma fold_first_reference {A B}
    (step : B * @wf_state wf -> A -> B * @wf_state wf)
    (refs : A -> list (Z * wf)) :
  (forall st x seen,
      (forall h, PyDict.get h (fst (snd st)) = PyDict.get h seen) ->
      forall h, PyDict.get h (fst (snd (step st x)))
                = PyDict.get h (seen ++ refs x)) ->
  forall xs st seen,
    (forall h, PyDict.get h (fst (snd st)) = PyDict.get h seen) ->
    forall h, PyDict.get h (fst (snd (fold_left step xs st)))
              = PyDict.get h (seen ++ (xs ≫= refs)).
Proof.
  intros Hstep xs. induction xs as [|x xs IH]; intros st seen Hd.
  - simpl. by rewrite app_nil_r.
  - rewrite bind_cons, app_assoc. simpl fold_left.
    apply IH. by apply Hstep.
Qed.

Lemma generate_tables_first_reference segments awgs :
  forall h,
    PyDict.get h
      (fst (snd (generate_tables elements_on_awg get_element_codewords
                   get_element_channels calculate_hash seg_waveforms
                   pulsar_get segments awgs)))
    = PyDict.get h
        (waveform_references elements_on_awg get_element_codewords
           get_element_channels calculate_hash seg_waveforms segments
           (match awgs with
            | None => default_awgs elements_on_awg segments
            | Some a => a
            end)).
Proof.
  unfold generate_tables, waveform_references.
  apply (fold_first_reference _ _) with (seen := []); [|done].
  intros st awg seen Hd. unfold awg_step. cbv zeta. simpl snd.
  apply (fold_first_reference _ _); [|done].
  clear st seen Hd. intros st item seen Hd. unfold segment_step.
  apply (fold_first_reference _ _); [|done].
  clear st seen Hd. intros st elname seen Hd. unfold element_step.
  cbv zeta. simpl snd.
  apply (fold_first_reference _ _); [|done].
  clear st seen Hd. intros st c seen Hd. unfold codeword_step.
  cbv zeta. simpl snd.
  apply (fold_first_reference _
           (fun ch => [(calculate_hash (snd item) elname c ch,
                        seg_waveforms (snd item) awg elname ch c)]));
    [|done].
  clear st seen Hd. intros st ch seen Hd. unfold channel_step. cbv zeta.
  pose proof (first_reference_see (snd st) seen
                (calculate_hash (snd item) elname c ch)
                (seg_waveforms (snd item) awg elname ch c) Hd) as Hsee.
  destruct st as [d [table calls]]. simpl in *.
  destruct (PyDict.mem (calculate_hash (snd item) elname c ch) table);
    exact Hsee.
Qed.

(** The segments are resolved in place: the Sequence object is as it
    was. *)
Lemma resolve_loop_keeps_sequence self q ls :
  forall u σ r σ1,
    sequences σ !! self = Some q ->
    for_each ls
      (fun seg _ =>
         g <- get_segment seg ;;
         put_segment seg (gen_elements_on_awg (resolve_segment g)))
      u σ = (r, σ1) ->
    sequences σ1 !! self = Some q.
Proof.
  induction ls as [|l ls IH]; intros u σ r σ1 Hq; simpl.
  - by intros [= <- <-].
  - intros E. bind_cases E u' σa Estep.
    + run_read Estep g Hg; [|done].
      unfold put_segment in Estep. injection Estep as _ <-.
      by eapply IH in E.
    + run_read Estep g Hg; [|done].
      unfold put_segment in Estep. discriminate Estep.
Qed.

(** X22: Given a list of AWG names, the waveform stored under a hash is
    the one [seg.waveforms] yields for the first reference with that hash,
    in the order of the loops over the AWGs of the list, the segments, the
    elements, the codewords and the channels; a later reference with the
    same hash does not replace it, and a hash no reference has is not in
    the table.  (With [awgs=None] the AWGs are looped over in the iteration
    order of a Python set, which the code does not fix; nothing is stated
    for that case.) *)
Theorem waveform_table_holds_first_reference self awgs σ res σ' :
  generate_waveforms_sequences resolve_segment gen_elements_on_awg
    elements_on_awg get_element_codewords get_element_channels
    calculate_hash seg_waveforms pulsar_get self (Some awgs) σ
  = (Ok res, σ') ->
  exists q gs,
    sequences σ' !! self = Some q /\
    Forall2 (fun l g => segs σ' !! l = Some g)
      (PyDict.values (segments q)) gs /\
    let resolved := zip (PyDict.keys (segments q)) gs in
    forall h,
      PyDict.get h (fst res) =
      PyDict.get h
        (waveform_references elements_on_awg get_element_codewords
           get_element_channels calculate_hash seg_waveforms resolved
           awgs).
Proof.
  unfold generate_waveforms_sequences. intros H.
  run_read H q Hq; [|done].
  bind_cases H u σ1 Eresolve; [|done].
  bind_cases H gs σ2 Eget; [|done].
  apply map_m_get_segment in Eget as [-> Hgs].
  unfold ret in H. injection H as <- <-.
  exists q, gs.
  split; [by eapply resolve_loop_keeps_sequence|]. split; [done|].
  cbv zeta. apply (generate_tables_first_reference _ (Some awgs)).
Qed.

Lemma awg_steps_keys segments awgs :
  forall st,
    NoDup (PyDict.keys (fst st) ++ awgs) ->
    PyDict.keys
      (fst (fold_left
              (awg_step elements_on_awg get_element_codewords
                 get_element_channels calculate_hash seg_waveforms
                 pulsar_get segments)
              awgs st))
    = PyDict.keys (fst st) ++ awgs.
Proof.
  induction awgs as [|awg awgs IH]; intros st Hnd; simpl fold_left.
  - by rewrite app_nil_r.
  - assert (Hnew : awg ∉ PyDict.keys (fst st)).
    { apply NoDup_app in Hnd as (_ & Hdis & _). intros Hin.
      apply (Hdis _ Hin). left. }
    rewrite IH; unfold awg_step; cbv zeta; simpl fst;
      rewrite dict_keys_set, decide_False by done;
      rewrite <- app_assoc; [done|exact Hnd].
Qed.

(** X23: Given a list of distinct AWG names, the returned [sequences] dict
    has one program per name, in the order of the list, also for an AWG on
    which no segment has an element. *)
Theorem programs_keyed_by_awgs self awgs σ res σ' :
  NoDup awgs ->
  generate_waveforms_sequences resolve_segment gen_elements_on_awg
    elements_on_awg get_element_codewords get_element_channels
    calculate_hash seg_waveforms pulsar_get self (Some awgs) σ
  = (Ok res, σ') ->
  PyDict.keys (snd res) = awgs.
Proof.
  intros Hnd. unfold generate_waveforms_sequences. intros H.
  run_read H q Hq; [|done].
  bind_cases H u σ1 Eresolve; [|done].
  bind_cases H gs σ2 Eget; [|done].
  unfold ret in H. injection H as <- <-. simpl snd.
  unfold generate_tables. by rewrite awg_steps_keys.
Qed.
End GenerateContent.

Section GenerateContentWitness.
Import Sequence Spec Examples.

Lemma waveform_table_holds_first_reference_witness :
  exists table programs σ' q gs,
    generate_waveforms_sequences (fun g => g) (fun g => g)
      one_awg one_codeword two_channels hash_of samples_of channel_id
      0 (Some ["AWG1"]) (uniform 1 2) = (Ok (table, programs), σ') /\
    sequences σ' !! 0 = Some q /\
    forall h,
      PyDict.get h table =
      PyDict.get h
        (waveform_references one_awg one_codeword two_channels hash_of
           samples_of (zip (PyDict.keys (segments q)) gs) ["AWG1"]).
Proof.
  destruct (generate_waveforms_sequences (fun g => g) (fun g => g)
              one_awg one_codeword two_channels hash_of samples_of
              channel_id 0 (Some ["AWG1"]) (uniform 1 2))
    as [[[table programs]|e] σ'] eqn:E.
  - destruct (waveform_table_holds_first_reference
                _ _ _ _ _ _ _ _ _ _ _ _ _ E)
      as (q & gs & Hq & Hgs & Hfirst).
    exists table, programs, σ', q, gs. split; [reflexivity|].
    split; [exact Hq|exact Hfirst].
  - vm_compute in E. discriminate E.
Defined.

Lemma programs_keyed_by_awgs_witness :
  exists table programs σ',
    generate_waveforms_sequences (fun g => g) (fun g => g)
      one_awg one_codeword two_channels hash_of samples_of channel_id
      0 (Some ["AWG1"; "AWG2"]) (uniform 1 2)
    = (Ok (table, programs), σ') /\
    PyDict.keys programs = ["AWG1"; "AWG2"].
Proof.
  destruct (generate_waveforms_sequences (fun g => g) (fun g => g)
              one_awg one_codeword two_channels hash_of samples_of
              channel_id 0 (Some ["AWG1"; "AWG2"]) (uniform 1 2))
    as [[[table programs]|e] σ'] eqn:E.
  - exists table, programs, σ'. split; [reflexivity|].
    apply (programs_keyed_by_awgs (fun g => g) (fun g => g) one_awg
             one_codeword two_channels hash_of samples_of channel_id
             0 ["AWG1"; "AWG2"] (uniform 1 2) (table, programs) σ');
      [|exact E].
    apply NoDup_cons. split; [|apply NoDup_singleton].
    by intros ?%list_elem_of_singleton.
  - vm_compute in E. discriminate E.
Defined.
End GenerateContentWitness.

(** * [compress_2D_sweep] on a list of one Sequence *)

Section CompressionSingle.
Import Sequence Spec.

(** X24: For a list of one Sequence that is within the limit, the only factor
    is 1; building the warning that no compression is possible reads
    [compression_fact[-2]] of the one-element factor list, so
    [compress_2D_sweep] raises [IndexError] before anything is merged. *)
Theorem compress_single_sequence_within_limit_raises
    σ sequences s q lim mrp :
  lists σ !! sequences = Some [s] ->
  Sequence.sequences σ !! s = Some q ->
  le_limit (length (segments q)) lim = true ->
  compress_2D_sweep sequences lim mrp σ = (Raise IndexError, σ).
Proof.
  intros Hseqs Hq Hlim. unfold compress_2D_sweep.
  rewrite (bind_ok _ _ _ _ _ (get_list_some _ _ _ Hseqs)).
  rewrite (bind_ok _ _ _ _ _
             (map_m_n_segments σ [s] (length (segments q))
                ltac:(apply Forall_singleton; by exists q))).
  change (length [s]) with 1.
  rewrite (np_unique_uniform _ 1) by lia.
  change (negb (length [length (segments q)] =? 1)) with false. cbv iota.
  rewrite item_head, bind_ret_l.
  rewrite (bind_ok _ _ _ _ _ (n_segments_some _ _ _ Hq)).
  change (reverse (np_sort (factors 1))) with [1].
  cbn [compression_loop]. rewrite Nat.mul_1_l, Hlim. cbn [negb].
  reflexivity.
Qed.

Lemma compress_single_sequence_within_limit_raises_witness :
  compress_2D_sweep 0 (Some 20) true (Examples.uniform 1 5)
  = (Raise IndexError, Examples.uniform 1 5).
Proof.
  apply (compress_single_sequence_within_limit_raises
           (Examples.uniform 1 5) 0 0
           (mk "seq0" 0 (Examples.uniform_segments 5 0) [] [])).
  - reflexivity.
  - reflexivity.
  - reflexivity.
Defined.
End CompressionSingle.

(** * The DRAG pulse without [motzoi] *)

Section DragGaussian.
Import Numpy SSB_DRAG_pulse PulseSpec.
Local Open Scope R_scope.

Lemma last_cons_default {A} (x : A) (l : list A) :
  last (x :: l) = Some (default x (last l)).
Proof. rewrite last_cons. by destruct (last l). Qed.

(** The Gaussian envelope [chan_wf] computes is the one of the spec. *)
Lemma gauss_env_gaussian (self : t) (t0 : R) (rest : list R) :
  sigma self <> 0 ->
  gauss_env self (map (fun x => x - t0) (t0 :: rest))
  = Some (gaussian_envelope self t0 (default t0 (last rest)) (t0 :: rest)).
Proof.
  intros Hsigma.
  assert (Hg : forall x,
             amplitude self *
             exp (- (0.5 * (x - length self / 2.0) ^ 2 / sigma self ^ 2))
             = gaussian self x).
  { intros x. unfold gaussian. apply f_equal. apply f_equal.
    replace 0.5 with (/ 2) by lra. replace 2.0 with 2 by lra.
    field. exact Hsigma. }
  unfold gauss_env, sub_offset, gauss_env_raw.
  rewrite !last_map, last_cons_default.
  change (head (map ?f (map ?g (t0 :: rest)))) with (Some (f (g t0))).
  cbn [mbind option_bind fmap option_fmap option_map].
  f_equal. unfold gaussian_envelope. rewrite !map_map.
  apply map_ext. intros x. rewrite !Hg.
  replace (t0 - t0) with 0 by lra. reflexivity.
Qed.



End DragGaussian.

(** * Repeat patterns through [Sequence.merge] *)

Section Reconcile.
Import Sequence Spec.

Lemma reconcile_none inc :
  forall acc,
    NoDup (PyDict.keys inc) ->
    reconcile acc inc = None -> mismatch acc inc.
Proof.
  induction inc as [|[c p] inc IH]; intros acc Hnd; [done|].
  change (PyDict.keys ((c, p) :: inc)) with (c :: PyDict.keys inc) in Hnd.
  apply NoDup_cons in Hnd as [Hc Hnd].
  assert (Hrest : forall acc',
             (forall ch, ch <> c -> PyDict.get ch acc' = PyDict.get ch acc) ->
             mismatch acc' inc -> mismatch acc ((c, p) :: inc)).
  { intros acc' Hsame (ch & a & b & Ha & Hb & Hne).
    assert (ch <> c).
    { intros ->. apply dict_get_None in Hc. congruence. }
    exists ch, a, b. rewrite <- Hsame by done. split; [done|].
    split; [|done]. simpl. by rewrite decide_False. }
  simpl. destruct (PyDict.get c acc) as [prev|] eqn:Hprev.
  - destruct (decide (snd prev = snd p)) as [Heq|Hne].
    + intros H. apply IH in H; [|done]. eapply Hrest; [|exact H].
      intros ch Hch. apply dict_get_set_ne. congruence.
    + intros _. exists c, prev, p. split; [done|]. split; [|done].
      simpl. by rewrite decide_True.
  - intros H. apply IH in H; [|done]. eapply Hrest; [|exact H].
    intros ch Hch. apply dict_get_set_ne. congruence.
Qed.

Lemma reconcile_some inc :
  forall acc ps,
    NoDup (PyDict.keys inc) ->
    reconcile acc inc = Some ps ->
    ~ mismatch acc inc /\
    forall ch,
      PyDict.get ch ps = reconciled (PyDict.get ch acc) (PyDict.get ch inc).
Proof.
  induction inc as [|[c p] inc IH]; intros acc ps Hnd.
  - intros [= <-]. split.
    + by intros (ch & a & b & _ & Hb & _).
    + intros ch. simpl. by destruct (PyDict.get ch acc).
  - change (PyDict.keys ((c, p) :: inc)) with (c :: PyDict.keys inc) in Hnd.
    apply NoDup_cons in Hnd as [Hc Hnd]. apply dict_get_None in Hc.
    assert (Hstep : forall v,
               (match PyDict.get c acc with
                | Some prev => snd prev = snd p
                | None => True
                end) ->
               Some v = reconciled (PyDict.get c acc) (Some p) ->
               reconcile (PyDict.set c v acc) inc = Some ps ->
               ~ mismatch acc ((c, p) :: inc) /\
               forall ch,
                 PyDict.get ch ps =
                 reconciled (PyDict.get ch acc)
                   (PyDict.get ch ((c, p) :: inc))).
    { intros v Hok Hv H. apply IH in H as [Hno Hget]; [|done]. split.
      - intros (ch & a & b & Ha & Hb & Hne). simpl in Hb.
        destruct (decide (ch = c)) as [->|Hch].
        + injection Hb as <-. rewrite Ha in Hok. done.
        + apply Hno. exists ch, a, b.
          rewrite dict_get_set_ne by congruence. done.
      - intros ch. rewrite Hget. simpl.
        destruct (decide (ch = c)) as [->|Hch].
        + rewrite dict_get_set_eq, Hc, <- Hv. done.
        + rewrite dict_get_set_ne by congruence. done. }
    simpl. destruct (PyDict.get c acc) as [prev|] eqn:Hprev.
    + destruct (decide (snd prev = snd p)) as [Heq|Hne]; [|done].
      by apply Hstep.
    + by apply Hstep.
Qed.

Lemma for_each_unit_cons {A} (x : A) xs (body : A -> unit -> M unit) σ :
  for_each (x :: xs) body tt σ
  = bind (body x tt) (fun _ => for_each xs body tt) σ.
Proof.
  simpl. unfold bind. by destruct (body x tt σ) as [[[]|e] σ1].
Qed.

(** The loop over [seq.repeat_patterns.items()]: the patterns of the
    accumulator become their reconciliation with the incoming ones, or
    the loop raises at the first mismatch. *)
Lemma merge_patterns_run acc items :
  forall a σ,
    sequences σ !! acc = Some a ->
    match reconcile (repeat_patterns a) items with
    | Some ps =>
        for_each items (merge_pattern acc) tt σ =
        (Ok tt,
         with_sequences σ
           (<[acc := set_repeat_patterns a ps]> (sequences σ)))
    | None =>
        exists σ',
          for_each items (merge_pattern acc) tt σ
          = (Raise NotImplementedError, σ')
    end.
Proof.
  induction items as [|[ch p] items IH]; intros a σ Ha.
  - simpl. unfold ret. f_equal. destruct σ as [sq sg ls]. simpl in *.
    unfold with_sequences. simpl. f_equal.
    rewrite insert_id; [done|]. rewrite Ha. by destruct a.
  - pose proof (merge_pattern_cases acc ch p σ) as Hc. rewrite Ha in Hc.
    simpl reconcile.
    assert (Hnext : forall v,
               merge_pattern acc (ch, p) tt σ =
               (Ok tt,
                with_sequences σ
                  (<[acc := set_repeat_patterns a
                              (PyDict.set ch v (repeat_patterns a))]>
                     (sequences σ))) ->
               match reconcile (PyDict.set ch v (repeat_patterns a)) items
               with
               | Some ps =>
                   for_each ((ch, p) :: items) (merge_pattern acc) tt σ =
                   (Ok tt,
                    with_sequences σ
                      (<[acc := set_repeat_patterns a ps]> (sequences σ)))
               | None =>
                   exists σ',
                     for_each ((ch, p) :: items) (merge_pattern acc) tt σ
                     = (Raise NotImplementedError, σ')
               end).
    { intros v Hrun.
      specialize (IH (set_repeat_patterns a
                        (PyDict.set ch v (repeat_patterns a)))
                     (with_sequences σ
                        (<[acc := set_repeat_patterns a
                                    (PyDict.set ch v (repeat_patterns a))]>
                           (sequences σ)))).
      simpl in IH. rewrite lookup_insert_eq in IH. specialize (IH eq_refl).
      destruct (reconcile (PyDict.set ch v (repeat_patterns a)) items)
        as [ps|].
      - rewrite for_each_unit_cons, (bind_ok _ _ _ _ _ Hrun), IH.
        unfold with_sequences. simpl. by rewrite insert_insert_eq.
      - destruct IH as [σ' IH]. exists σ'.
        by rewrite for_each_unit_cons, (bind_ok _ _ _ _ _ Hrun). }
    destruct (PyDict.get ch (repeat_patterns a)) as [prev|].
    + destruct (decide (snd prev = snd p)) as [Heq|Hne].
      * by apply Hnext.
      * exists σ. rewrite for_each_unit_cons. by apply bind_raise.
    + by apply Hnext.
Qed.
End Reconcile.

Section MergeTwo.
Import Sequence Spec.

Lemma Forall2_chain {A B C} (R : A -> B -> Prop) (S : A -> C -> Prop)
    (T : B -> C -> Prop) l k m :
  (forall x y z, R x y -> S x z -> T y z) ->
  Forall2 R l k -> Forall2 S l m -> Forall2 T k m.
Proof.
  intros H HR. revert m.
  induction HR; intros m HS; inversion HS; subst; constructor; eauto.
Qed.

Lemma le_limit_weaken n k lim :
  le_limit (n + k) lim = true -> le_limit k lim = true.
Proof.
  destruct lim as [l|]; simpl; [|done].
  rewrite !Nat.leb_le. lia.
Qed.

(** The loop over [seq.segments.items()] when no name is taken: every
    segment is added under its name and no occurrence is counted. *)
Lemma merge_segments_fresh items :
  forall gs occ σ acc a,
    sequences σ !! acc = Some a ->
    Forall2 (fun it g => segs σ !! snd it = Some g) items gs ->
    NoDup (Segment.name <$> gs) ->
    Forall (fun g => Segment.name g ∉ PyDict.keys (segments a)) gs ->
    for_each items (merge_segment acc) occ σ =
    (Ok occ,
     with_sequences σ
       (<[acc := set_segments a
                   (segments a ++ zip (Segment.name <$> gs) (items.*2))]>
          (sequences σ))).
Proof.
  induction items as [|[k s] items IH]; intros gs occ σ acc a Ha Hgs Hnd Hnew.
  - apply Forall2_nil_inv_l in Hgs as ->. simpl.
    rewrite app_nil_r. unfold ret, with_sequences. f_equal.
    destruct σ as [sq sg ls]. simpl in *. f_equal.
    rewrite insert_id; [done|]. rewrite Ha. by destruct a.
  - apply Forall2_cons_inv_l in Hgs as (g & gs' & Hg & Hgs & ->).
    simpl in Hg.
    rewrite fmap_cons in Hnd. apply NoDup_cons in Hnd as [Hg_new Hnd].
    apply Forall_cons in Hnew as [Hga Hnew].
    pose proof (merge_segment_cases acc k s occ σ) as Hc.
    rewrite Ha, Hg in Hc. rewrite decide_False in Hc by done.
    cbn [for_each]. rewrite (bind_ok _ _ _ _ _ Hc).
    set (a1 := set_segments a (segments a ++ [(Segment.name g, s)])).
    rewrite (IH gs' occ _ acc a1).
    + unfold with_sequences. simpl. rewrite insert_insert_eq.
      rewrite <- app_assoc. reflexivity.
    + simpl. apply lookup_insert_eq.
    + exact Hgs.
    + exact Hnd.
    + apply Forall_forall. intros g' Hg'. simpl.
      unfold PyDict.keys. rewrite map_app. simpl.
      rewrite elem_of_app, list_elem_of_singleton.
      intros [Hin|Heq].
      * by apply (proj1 (Forall_forall _ _) Hnew g' Hg').
      * apply Hg_new. rewrite <- Heq. by apply list_elem_of_fmap_2.
Qed.

(** The run of [__deepcopy__] on a Sequence whose Segments are in the
    store. *)
Lemma deepcopy_run σ self q :
  sequences σ !! self = Some q ->
  Forall (fun it => is_Some (segs σ !! snd it)) (segments q) ->
  exists segs' σ1,
    deepcopy self σ =
    (Ok (fresh (dom (sequences σ))),
     with_sequences σ1
       (<[fresh (dom (sequences σ)) :=
            mk (name q) (pulsar q) segs' (awg_sequence q)
               (repeat_patterns q)]> (sequences σ))) /\
    sequences σ1 = sequences σ /\ lists σ1 = lists σ /\
    segs σ ⊆ segs σ1 /\
    Forall2 (fun it it' => fst it' = fst it /\
                           segs σ1 !! snd it' = segs σ !! snd it)
            (segments q) segs'.
Proof.
  intros Hq Hvalid.
  destruct (deepcopy_loop_content σ (segments q) ([], []) σ)
    as (ext & memo' & σ1 & Hrun & Hs1 & Hl1 & Hg1 & Hcontent);
    [done|done|constructor|].
  simpl in Hrun. exists ext, σ1. split.
  { unfold deepcopy.
    rewrite (bind_ok _ _ _ _ _ (get_sequence_some _ _ _ Hq)).
    rewrite (bind_ok _ _ _ _ _ Hrun). unfold new_sequence. simpl.
    by rewrite Hs1. }
  split_and!; try done.
  eapply Forall2_impl; [exact Hcontent|]. simpl. intros it it' (? & _ & ?).
  by split.
Qed.

Lemma keys_of_copy (l l' : list (string * loc)) (P : loc -> loc -> Prop) :
  Forall2 (fun it it' => fst it' = fst it /\ P (snd it) (snd it')) l l' ->
  PyDict.keys l' = PyDict.keys l /\ length l' = length l.
Proof.
  induction 1 as [|[k s] [k' s'] l l' [Hk _] _ [IHk IHl]]; [done|].
  simpl in *. subst k'. by rewrite IHk, IHl.
Qed.

Lemma last_item_singleton {A} (x : A) : last_item [x] = ret x.
Proof. reflexivity. Qed.

(** [merge] of two Sequences that fit together under the limit and whose
    segment names do not collide: the copy [m] of the first Sequence takes
    the segments of the second and the joined name; what is left to run is
    the reconciliation of the repeat patterns and the return of [[m]]. *)
Lemma merge_two_run σ sequences s0 s1 q0 q1 gs1 lim mrp :
  lists σ !! sequences = Some [s0; s1] ->
  Sequence.sequences σ !! s0 = Some q0 ->
  Sequence.sequences σ !! s1 = Some q1 ->
  Forall (fun it => is_Some (segs σ !! snd it)) (segments q0) ->
  Forall2 (fun it g => segs σ !! snd it = Some g) (segments q1) gs1 ->
  NoDup (Segment.name <$> gs1) ->
  Forall (fun g => Segment.name g ∉ PyDict.keys (segments q0)) gs1 ->
  le_limit (length (segments q0) + length (segments q1)) lim = true ->
  exists m a σm,
    Sequence.sequences σm !! m = Some a /\
    repeat_patterns a = repeat_patterns q0 /\
    merge sequences lim mrp σ =
    bind (if mrp then for_each (repeat_patterns q1) (merge_pattern m) tt
          else ret tt)
         (fun _ => new_list [m]) σm.
Proof.
  intros Hseqs Hq0 Hq1 Hv0 Hgs1 Hnd Hnew Hfit.
  (* the two copies *)
  destruct (deepcopy_run σ s0 q0 Hq0 Hv0)
    as (segs0 & σ1 & Hd0 & Hs1 & Hl1 & Hg1 & Hc0).
  pose proof (fresh_lookup_None (Sequence.sequences σ)) as Hc0_new.
  set (c0 := fresh (dom (Sequence.sequences σ))) in *.
  set (q0' := mk (name q0) (pulsar q0) segs0 (awg_sequence q0)
                 (repeat_patterns q0)) in *.
  set (σa := with_sequences σ1 (<[c0 := q0']> (Sequence.sequences σ))) in *.
  assert (Hq1a : Sequence.sequences σa !! s1 = Some q1).
  { simpl. rewrite lookup_insert_ne; [done|]. intros <-. congruence. }
  assert (Hv1a : Forall (fun it => is_Some (segs σa !! snd it))
                   (segments q1)).
  { clear -Hgs1 Hg1. induction Hgs1 as [|it g l k Hit _ IH]; constructor;
      [|done].
    exists g. simpl. by eapply lookup_weaken. }
  destruct (deepcopy_run σa s1 q1 Hq1a Hv1a)
    as (segs1 & σ2 & Hd1 & Hs2 & Hl2 & Hg2 & Hc1).
  pose proof (fresh_lookup_None (Sequence.sequences σa)) as Hc1_new.
  set (c1 := fresh (dom (Sequence.sequences σa))) in *.
  set (q1' := mk (name q1) (pulsar q1) segs1 (awg_sequence q1)
                 (repeat_patterns q1)) in *.
  set (σb := with_sequences σ2 (<[c1 := q1']> (Sequence.sequences σa)))
    in *.
  assert (Hne : c1 <> c0).
  { intros E. rewrite E in Hc1_new. simpl in Hc1_new.
    by rewrite lookup_insert_eq in Hc1_new. }
  assert (HA : Sequence.sequences σb !! c0 = Some q0').
  { simpl. rewrite lookup_insert_ne by done. apply lookup_insert_eq. }
  assert (HB : Sequence.sequences σb !! c1 = Some q1')
    by (simpl; apply lookup_insert_eq).
  assert (Hcopies : map_m deepcopy [s0; s1] σ = (Ok [c0; c1], σb)).
  { cbn [map_m]. rewrite (bind_ok _ _ _ _ _ Hd0).
    rewrite (bind_ok _ _ _ [c1] σb); [done|].
    by rewrite (bind_ok _ _ _ _ _ Hd1). }
  destruct (keys_of_copy _ _ (fun s s' => segs σ1 !! s' = segs σ !! s) Hc0)
    as [Hk0 Hlen0].
  destruct (keys_of_copy _ _ (fun s s' => segs σ2 !! s' = segs σa !! s) Hc1)
    as [Hk1 Hlen1].
  assert (Hseg1 : Forall2 (fun it' g => segs σb !! snd it' = Some g)
                    segs1 gs1).
  { eapply (Forall2_chain _ _ _ _ _ _ _ Hc1 Hgs1). Unshelve.
    intros it it' g [_ Hcopy] Hg. simpl. rewrite Hcopy. simpl.
    by eapply lookup_weaken. }
  (* the segments of the second copy go into the first *)
  assert (Hnew' : Forall (fun g => Segment.name g
                                   ∉ PyDict.keys (segments q0')) gs1)
    by (simpl; by rewrite Hk0).
  pose proof (merge_segments_fresh segs1 gs1 (occurrences segs0) σb c0 q0'
                HA Hseg1 Hnd Hnew') as Hloop.
  set (a1 := set_segments q0'
               (segments q0' ++ zip (Segment.name <$> gs1) (segs1.*2)))
    in *.
  set (σc := with_sequences σb (<[c0 := a1]> (Sequence.sequences σb))) in *.
  assert (HAc : Sequence.sequences σc !! c0 = Some a1)
    by (simpl; apply lookup_insert_eq).
  assert (HBc : Sequence.sequences σc !! c1 = Some q1').
  { unfold σc. simpl. rewrite lookup_insert_ne by done.
    apply lookup_insert_eq. }
  set (a2 := set_name a1 (name a1 +:+ "+" +:+ name q1')).
  set (σd := with_sequences σc (<[c0 := a2]> (Sequence.sequences σc))).
  assert (HBd : Sequence.sequences σd !! c1 = Some q1').
  { unfold σd. simpl. rewrite lookup_insert_ne by done.
    rewrite lookup_insert_ne by done. apply lookup_insert_eq. }
  exists c0, a2, σd.
  split; [simpl; apply lookup_insert_eq|]. split; [reflexivity|].
  (* one iteration of the loop over [sequences[1:]] *)
  assert (Hstep : exists st,
             fst (fst st) = [c0] /\
             merge_step lim mrp c1
               ([c0], [occurrences segs0], length segs0) σb
             = bind (if mrp
                     then for_each (repeat_patterns q1) (merge_pattern c0) tt
                     else ret tt)
                 (fun _ => ret st) σd).
  { eexists. split; [|unfold merge_step; cbn [fst snd]].
    2:{ rewrite (bind_ok _ _ _ _ _ (n_segments_some _ _ _ HB)).
        change (segments q1') with segs1. rewrite Hlen1.
        rewrite (le_limit_weaken _ _ _ Hfit). cbn [negb].
        rewrite last_item_singleton, bind_ret_l.
        rewrite (bind_ok _ _ _ _ _ (n_segments_some _ _ _ HA)).
        change (segments q0') with segs0. rewrite Hlen0, Hfit. cbn [negb].
        rewrite (bind_ok _ _ _ _ _ (get_sequence_some _ _ _ HB)).
        rewrite last_item_singleton, bind_ret_l.
        change (segments q1') with segs1.
        rewrite (bind_ok _ _ _ _ _ Hloop).
        rewrite (bind_ok _ _ _ _ _ (n_segments_some _ _ _ HBc)).
        rewrite (bind_ok _ _ _ _ _ (get_sequence_some _ _ _ HAc)).
        rewrite (bind_ok _ _ _ _ _ (get_sequence_some _ _ _ HBc)).
        rewrite (bind_ok _ _ _ tt σd) by reflexivity.
        destruct mrp.
        - unfold bind at 1 3.
          rewrite (bind_ok _ _ _ _ _ (get_sequence_some _ _ _ HBd)).
          reflexivity.
        - reflexivity. }
    reflexivity. }
  destruct Hstep as (st & Hst & Hstep).
  unfold merge.
  rewrite (bind_ok _ _ _ _ _ (get_list_some _ _ _ Hseqs)).
  rewrite (bind_ok _ _ _ _ _ Hcopies).
  rewrite (bind_ok _ _ _ _ _ (n_segments_some _ _ _ HA)).
  rewrite (bind_ok _ _ _ _ _ (get_sequence_some _ _ _ HA)).
  change (segments q0') with segs0. cbn [for_each].
  unfold bind at 1 2. rewrite Hstep. unfold bind.
  destruct ((if mrp
             then for_each (repeat_patterns q1) (merge_pattern c0) tt
             else ret tt) σd) as [[u|e] σ'].
  - unfold ret. by rewrite Hst.
  - reflexivity.
Qed.
End MergeTwo.

Section PatternClaims.
Import Sequence Spec.



End PatternClaims.
